(** * swmmnetwork: load and volume routing through a drainage network

    A shallow embedding of [swmmnetwork/swmmnetwork.py]: the edge aggregator
    [sum_edge_attr], the guarded division [safe_divide], the traversal
    [SwmmNetwork.solve] and the cached property [SwmmNetwork.results],
    followed by the properties of the specification that concern them and
    by further properties read off the code.

    Modelling conventions.
    - A Python number is an exact rational ([Qc]); the rounding of binary
      floating point is not modelled.  For that reason the value a theorem
      gives for a stored attribute is the expression the code evaluates,
      with its operations in the code's order ([total] adds from the left,
      starting at 0, as [val += ...] does), and no theorem equates two
      different expressions that only agree in exact arithmetic.  The
      operator [/] raises [ZeroDivisionError] on a zero denominator, as
      Python's does.
    - An attribute dictionary is a [gmap string value]; a value is a number
      or a string.  Arithmetic on a string and a substring test on a number
      raise [TypeError].
    - The [networkx.MultiDiGraph] is a record: the node identities in
      insertion order, the dictionary [G.node] of node attributes, and the
      list of edges [(from, to, data)] in the order [out_edges] reports
      them.  Node identities are strings, so that [str(node)] is the
      identity itself.
    - Exceptions are values of [exn]; a computation returns its result
      together with the state it leaves behind, so that mutations made
      before an exception stay visible.
    - [networkx.topological_sort] is library code, not part of the
      repository; the source does not say which networkx it runs on.  It is
      modelled here after the generator of networkx 2.0 to 2.3 (Kahn's
      algorithm), which yields nodes as their in-degree drops to zero and
      raises [NetworkXUnfeasible] at the end when nodes are left over.  The
      sort of networkx 1 returns a list and raises before the loop of
      [solve] starts.  The two agree on a graph without a cycle, up to the
      choice of the topological order; no property below depends on nodes
      being processed before the failure on a cycle.
    - [warnings.warn] appends to a log; [print] produces no state, but the
      evaluation of its arguments can raise.
    - The pandas table assembled after the traversal is not modelled:
      [nodes_to_df] and [edges_to_df] are left out, and where the table
      matters ([SwmmNetwork_solve], [SwmmNetwork_results]) its assembly is
      an arbitrary function of the graph that may raise. *)

From Stdlib Require Import QArith Qcanon.
From stdpp Require Import numbers gmap strings fin_maps list.

Open Scope Qc_scope.

(** ** Values, exceptions *)

Inductive exn :=
| KeyError (k : string)
| TypeError
| ZeroDivisionError
| NetworkXUnfeasible
| RuntimeError.

Inductive result (A : Type) :=
| Ok (a : A)
| Raise (e : exn).
Arguments Ok {A} a.
Arguments Raise {A} e.

Definition is_ok {A} (r : result A) : bool :=
  match r with Ok _ => true | Raise _ => false end.

Global Instance result_ret : MRet result := λ A a, Ok a.
Global Instance result_bind : MBind result := λ A B f r,
  match r with Ok a => f a | Raise e => Raise e end.

Global Instance exn_eq_dec : EqDecision exn.
Proof. solve_decision. Defined.

Global Instance result_eq_dec `{EqDecision A} : EqDecision (result A).
Proof. solve_decision. Defined.

Inductive value :=
| VNum (q : Qc)
| VStr (s : string).

Global Instance value_eq_dec : EqDecision value.
Proof. solve_decision. Defined.

Definition num (z : Z) : Qc := Q2Qc (inject_Z z).

(** A number is required: a string operand raises [TypeError]. *)
Definition as_num (v : value) : result Qc :=
  match v with VNum q => Ok q | VStr _ => Raise TypeError end.

(** [x / y] *)
Definition py_div (x y : Qc) : result Qc :=
  if decide (y = 0) then Raise ZeroDivisionError else Ok (x / y).

(** [def safe_divide(x, y)] *)
Definition safe_divide (x y : Qc) : Qc :=
  if decide (y = 0) then 0 else x / y.

(** [i in key] on strings: [i] occurs in [key] as a substring. *)
Fixpoint contains (i key : string) : bool :=
  String.prefix i key ||
  match key with
  | EmptyString => false
  | String _ key' => contains i key'
  end.

(** [any([i in key for i in flags])]; the test is evaluated once per flag,
    so a key that is not a string raises only when there is a flag. *)
Definition any_in (flags : list string) (key : value) : result bool :=
  match flags with
  | [] => Ok false
  | _ => match key with
         | VStr s => Ok (existsb (λ i, contains i s) flags)
         | VNum _ => Raise TypeError
         end
  end.

(** [i in key]: the substring test, which wants a string. *)
Definition py_in (i : string) (key : value) : result bool :=
  match key with
  | VStr s => Ok (contains i s)
  | VNum _ => Raise TypeError
  end.

(** [any(bs)] *)
Definition any_true (bs : list bool) : bool := existsb id bs.

(** [[i in data[k] for i in flags]]: the comprehension reads [data[k]]
    anew for each flag, so nothing is read when there is no flag. *)
Fixpoint flags_in_data (flags : list string) (data : gmap string value) (k : string)
    : result (list bool) :=
  match flags with
  | [] => Ok []
  | i :: flags' =>
      match data !! k with
      | None => Raise (KeyError k)
      | Some key =>
          b ← py_in i key;
          bs ← flags_in_data flags' data k;
          Ok (b :: bs)
      end
  end.

(** ** The graph *)

Record Edge := mkEdge {
  e_from : string;
  e_to : string;
  e_data : gmap string value
}.

Global Instance Edge_eq_dec : EqDecision Edge.
Proof. solve_decision. Defined.

Record Graph := mkGraph {
  g_nodes : list string;
  g_node : gmap string (gmap string value);
  g_edges : list Edge
}.

(** What [add_node] and [add_edge] guarantee: node identities are unique,
    [G.node] has an entry exactly for them, and edges join nodes. *)
Definition wf_graph (G : Graph) : Prop :=
  NoDup (g_nodes G) ∧
  (∀ n, n ∈ g_nodes G ↔ is_Some (g_node G !! n)) ∧
  (∀ e, e ∈ g_edges G → e_from e ∈ g_nodes G ∧ e_to e ∈ g_nodes G).

Inductive method := M_edges | M_in_edges | M_out_edges.

(** [getattr(G, method)(node, data=True)]; on a directed graph [edges] is
    [out_edges]. *)
Definition select_edges (G : Graph) (m : method) (node : string) : list Edge :=
  match m with
  | M_in_edges => filter (λ e, e_to e = node) (g_edges G)
  | M_edges | M_out_edges => filter (λ e, e_from e = node) (g_edges G)
  end.

(** [data[k]] *)
Definition getitem (data : gmap string value) (k : string) : result value :=
  match data !! k with Some v => Ok v | None => Raise (KeyError k) end.

(** [val += data.get(attr, 0)] *)
Definition add_attr (val : Qc) (data : gmap string value) (attr : string) : result Qc :=
  x ← as_num (default (VNum 0) (data !! attr)); Ok (val + x).

(** ** [sum_edge_attr] *)

(** The body of the loop over the selected edges. *)
Definition sum_edge_step (attr : string) (filter_key : option string)
    (include_filter_flags exclude_filter_flags : option (list string))
    (val : Qc) (data : gmap string value) : result Qc :=
  match filter_key with
  | Some fk =>
      key ← getitem data fk;
      match include_filter_flags with
      | Some inc =>
          hit ← any_in inc key;
          if hit : bool then
            match exclude_filter_flags with
            | Some exc =>
                out ← any_in exc key;
                if out : bool then Ok val else add_attr val data attr
            | None => add_attr val data attr
            end
          else Ok val
      | None =>
          match exclude_filter_flags with
          | Some exc =>
              out ← any_in exc key;
              if out : bool then Ok val else add_attr val data attr
          | None => add_attr val data attr
          end
      end
  | None => add_attr val data attr
  end.

Fixpoint sum_edge_loop (attr : string) (filter_key : option string)
    (include_filter_flags exclude_filter_flags : option (list string))
    (val : Qc) (edges : list Edge) : result Qc :=
  match edges with
  | [] => Ok val
  | edge :: edges' =>
      val' ← sum_edge_step attr filter_key include_filter_flags
               exclude_filter_flags val (e_data edge);
      sum_edge_loop attr filter_key include_filter_flags
        exclude_filter_flags val' edges'
  end.

Definition sum_edge_attr (G : Graph) (node attr : string) (m : method)
    (filter_key : option string)
    (include_filter_flags exclude_filter_flags : option (list string)) : result Qc :=
  let val := 0 in
  let edges := select_edges G m node in
  match edges with
  | [] => Ok val
  | _ => sum_edge_loop attr filter_key include_filter_flags
           exclude_filter_flags val edges
  end.

(** ** State and exceptions

    A computation over a state [S] returns a result or an exception, and
    the state it leaves. *)

Definition M (S A : Type) : Type := S → result A * S.

Global Instance M_ret {S} : MRet (M S) := λ A a s, (Ok a, s).
Global Instance M_bind {S} : MBind (M S) := λ A B f m s,
  match m s with
  | (Ok a, s') => f a s'
  | (Raise e, s') => (Raise e, s')
  end.

Definition lift {S A} (r : result A) : M S A := λ s, (r, s).

(** [for x in xs: body(x)] *)
Fixpoint for_each {S A} (xs : list A) (body : A → M S ()) : M S () :=
  match xs with
  | [] => mret ()
  | x :: xs' => _ ← body x; for_each xs' body
  end.

(** [if c: body] *)
Definition when {S} (c : bool) (body : M S ()) : M S () :=
  if c then body else mret ().

(** A warning names the edge (the value under [name_col]) and the load. *)
Definition Warning : Type := value * string.

Record State := mkState {
  st_G : Graph;
  st_warnings : list Warning
}.

(** [self.node[node].get(k, d)] *)
Definition node_get (node k : string) (d : value) : M State value := λ s,
  match g_node (st_G s) !! node with
  | Some attrs => (Ok (default d (attrs !! k)), s)
  | None => (Raise (KeyError node), s)
  end.

Definition set_node_attr (G : Graph) (node k : string) (v : value) : Graph :=
  mkGraph (g_nodes G)
    (<[node := <[k := v]> (default ∅ (g_node G !! node))]> (g_node G))
    (g_edges G).

(** [self.node[node][k] = v] *)
Definition node_set (node k : string) (v : value) : M State () := λ s,
  match g_node (st_G s) !! node with
  | Some _ => (Ok (), mkState (set_node_attr (st_G s) node k v) (st_warnings s))
  | None => (Raise (KeyError node), s)
  end.

(** ** Configuration

    The attributes [__init__] stores on the network.  The arguments
    [bmp_performance_mapping] and [flag_split_char] are accepted and not
    kept. *)

Record Config := mkConfig {
  treated : bool;
  name_col : string;
  vol_col : string;
  load_cols : list string;
  treated_flags : list string;
  vol_reduced_flags : list string;
  outfall_flags : list string
}.

(** The defaults of [__init__]. *)
Definition default_config : Config :=
  mkConfig true "id" "volume" ["load"] ["TR"] ["INF"; "HU"] ["OF"].

Section solve.
Context (self : Config).

Definition vol_out_col := vol_col self +:+ "_out".
Definition vol_red_col := vol_col self +:+ "_reduced".
Definition vol_tmnt_col := vol_col self +:+ "_treated".
Definition pct_vol_tmnt_col := vol_col self +:+ "_pct_treated".
Definition pct_vol_red_col := vol_col self +:+ "_pct_reduced".
Definition vol_cap_col := vol_col self +:+ "_capture".
Definition pct_vol_cap_col := vol_col self +:+ "_pct_capture".
Definition vol_pct_diff_col := vol_col self +:+ "_pct_diff".
Definition ck_vol_col := "_ck_" +:+ vol_col self.

Definition conc_col (load_col : string) := load_col +:+ "_conc".
Definition load_out_col (load_col : string) := load_col +:+ "_out".
Definition load_red_col (load_col : string) := load_col +:+ "_reduced".
Definition pct_load_red_col (load_col : string) := load_col +:+ "_pct_reduced".

(** The state of the loop body over one out-edge: the edge's [data]
    dictionary and the log of warnings. *)
Definition data_get (k : string) : M (gmap string value * list Warning) value :=
  λ s, (getitem s.1 k, s).
Definition data_num (k : string) : M (gmap string value * list Warning) Qc :=
  λ s, (v ← getitem s.1 k; as_num v, s).
Definition data_set (k : string) (v : value) : M (gmap string value * list Warning) () :=
  λ s, (Ok (), (<[k := v]> s.1, s.2)).
Definition data_has (k : string) : M (gmap string value * list Warning) bool :=
  λ s, (Ok (bool_decide (is_Some (s.1 !! k))), s).
Definition warn (w : Warning) : M (gmap string value * list Warning) () :=
  λ s, (Ok (), (s.1, s.2 ++ [w])).
(** [any([i in data[k] for i in flags])] *)
Definition data_any_in (flags : list string) (k : string)
    : M (gmap string value * list Warning) bool :=
  λ s, (bs ← flags_in_data flags s.1 k; Ok (any_true bs), s).

(** The body of [for edge in self.out_edges(node, data=True)]. *)
Definition solve_edge (load_col : string) (conc_in : Qc)
    : M (gmap string value * list Warning) () :=
  present ← data_has load_col;
  _ ← when present (
    name ← data_get (name_col self);
    vol ← data_num (vol_col self);
    load ← data_num load_col;
    _ ← lift (pct ← py_div (load - conc_in * vol) load; Ok (pct * num 100));
    warn (name, load_col));
  vol ← data_num (vol_col self);
  _ ← data_set load_col (VNum (conc_in * vol));
  if treated self then
    hit ← data_any_in (treated_flags self) (name_col self);
    when hit (
      let eff_conc := (1 - Q2Qc (7 # 10)) * conc_in in
      vol ← data_num (vol_col self);
      data_set load_col (VNum (eff_conc * vol)))
  else mret ().

(** The loop over the out-edges of [node]; the edges keep their place in
    the graph and their end points, the body works on their [data]. *)
Fixpoint out_edges_loop (body : M (gmap string value * list Warning) ())
    (node : string) (edges : list Edge) (log : list Warning)
    : result () * (list Edge * list Warning) :=
  match edges with
  | [] => (Ok (), ([], log))
  | edge :: edges' =>
      if decide (e_from edge = node) then
        let '(r, (data, log')) := body (e_data edge, log) in
        let edge' := mkEdge (e_from edge) (e_to edge) data in
        match r with
        | Ok _ =>
            let '(r', (edges'', log'')) := out_edges_loop body node edges' log' in
            (r', (edge' :: edges'', log''))
        | Raise e => (Raise e, (edge' :: edges', log'))
        end
      else
        let '(r', (edges'', log'')) := out_edges_loop body node edges' log in
        (r', (edge :: edges'', log''))
  end.

Definition for_out_edges (node : string)
    (body : M (gmap string value * list Warning) ()) : M State () := λ s,
  let '(r, (edges, log)) :=
    out_edges_loop body node (g_edges (st_G s)) (st_warnings s) in
  (r, mkState (mkGraph (g_nodes (st_G s)) (g_node (st_G s)) edges) log).

(** [sum_edge_attr(self, ...)] on the current graph. *)
Definition sum_edges (node attr : string) (m : method)
    (filter_key : option string)
    (include_filter_flags exclude_filter_flags : option (list string))
    : M State Qc := λ s,
  (sum_edge_attr (st_G s) node attr m filter_key
     include_filter_flags exclude_filter_flags, s).

(** [load_out, vol_out, vol_treated] of one load iteration. *)
Definition solve_out (node load_col : string) (vol_in load_in conc_in : Qc)
    : M State (Qc * Qc * Qc) :=
  if bool_decide (0 < load_in) then
    _ ← for_out_edges node (solve_edge load_col conc_in);
    outfall ← lift (any_in (outfall_flags self) (VStr node));
    if outfall : bool then mret (load_in, vol_in, 0)
    else
      load_out ← sum_edges node load_col M_out_edges None None None;
      vol_out ← sum_edges node (vol_col self) M_out_edges
                  (Some (name_col self)) None (Some (vol_reduced_flags self));
      vol_treated ← sum_edges node (vol_col self) M_out_edges
                      (Some (name_col self)) (Some (treated_flags self)) None;
      mret (load_out, vol_out, vol_treated)
  else mret (load_in, vol_in, 0).

(** The body of [for load_col in self.load_cols]. *)
Definition solve_load (node : string) (vol_in : Qc) (load_col : string)
    : M State () :=
  edge_load ← sum_edges node load_col M_in_edges None None None;
  node_load ← node_get node load_col (VNum 0);
  node_load ← lift (as_num node_load);
  let load_in := edge_load + node_load in
  let conc_in := safe_divide load_in vol_in in
  _ ← node_set node load_col (VNum load_in);
  _ ← node_set node (conc_col load_col) (VNum conc_in);
  '(load_out, vol_out, vol_treated) ← solve_out node load_col vol_in load_in conc_in;
  let load_reduced := load_in - load_out in
  _ ← node_set node (load_out_col load_col) (VNum load_out);
  _ ← node_set node (load_red_col load_col) (VNum load_reduced);
  _ ← when (bool_decide (0 < load_in)) (
    q ← lift (py_div load_reduced load_in);
    node_set node (pct_load_red_col load_col) (VNum (num 100 * q)));
  let vol_reduced := vol_in - vol_out in
  _ ← node_set node vol_out_col (VNum vol_out);
  _ ← node_set node vol_red_col (VNum vol_reduced);
  q ← lift (py_div vol_reduced vol_in);
  _ ← node_set node pct_vol_red_col (VNum (num 100 * q));
  _ ← node_set node vol_tmnt_col (VNum vol_treated);
  q ← lift (py_div vol_treated vol_in);
  _ ← node_set node pct_vol_tmnt_col (VNum (num 100 * q));
  _ ← node_set node vol_cap_col (VNum (vol_treated + vol_reduced));
  q ← lift (py_div (vol_treated + vol_reduced) vol_in);
  node_set node pct_vol_cap_col (VNum (num 100 * q)).

(** The body of [for node in nx.topological_sort(self)]. *)
Definition solve_node (node : string) : M State () :=
  node_vol ← node_get node (vol_col self) (VNum 0);
  edge_vol ← sum_edges node (vol_col self) M_in_edges None None None;
  node_vol_n ← lift (as_num node_vol);
  let vol_in := edge_vol + node_vol_n in
  _ ← node_set node (vol_col self) (VNum vol_in);
  check_vol ← node_get node ck_vol_col node_vol;
  check_vol ← lift (as_num check_vol);
  let vol_pct_diff := safe_divide (check_vol - vol_in) check_vol * num 100 in
  _ ← node_set node vol_pct_diff_col (VNum vol_pct_diff);
  when (negb (bool_decide (vol_in = 0)))
    (for_each (load_cols self) (solve_load node vol_in)).
End solve.

(** ** [networkx.topological_sort]

    A model of library code: networkx is not under [src/], and the
    definitions of this section follow the generator of networkx 2.0 to
    2.3, not a function of the repository.  The generator keeps a
    dictionary of the positive in-degrees and a stack of nodes whose
    in-degree is zero; it pops a node, lowers the in-degree of the target
    of each of its out-edges, pushes the targets that reach zero, and
    yields the node.  When the stack is empty and the dictionary is not, it
    raises [NetworkXUnfeasible].

    The source is as consistent with networkx 1, whose sort returns the
    whole list or raises [NetworkXUnfeasible] before a node is processed.
    The general theorems use of the sort that it yields every node once,
    each after its predecessors, when there is no cycle, and that it fails
    when there is one ([topological_sort_spec], [topological_sort_cycle],
    [topological_sort_acyclic]); both sorts have these properties. *)

Definition in_degree (G : Graph) (v : string) : Z :=
  Z.of_nat (length (filter (λ e, e_to e = v) (g_edges G))).

Definition indegree_map (G : Graph) : gmap string Z :=
  list_to_map
    (omap (λ v, if decide (0 < in_degree G v)%Z then Some (v, in_degree G v) else None)
       (g_nodes G)).

(** The list [zero_indegree], its last element first: [pop] takes the
    head and [append] conses. *)
Definition zero_indegree (G : Graph) : list string :=
  reverse (filter (λ v, in_degree G v = 0%Z) (g_nodes G)).

(** [for _, child in G.edges(node)] *)
Fixpoint relax (children : list string) (imap : gmap string Z) (stack : list string)
    : result (gmap string Z * list string) :=
  match children with
  | [] => Ok (imap, stack)
  | child :: children' =>
      match imap !! child with
      | None => Raise RuntimeError
      | Some d =>
          let d' := (d - 1)%Z in
          if decide (d' = 0%Z)
          then relax children' (delete child imap) (child :: stack)
          else relax children' (<[child := d']> imap) stack
      end
  end.

(** How the generator ends: exhausted, or with an exception.  [OutOfFuel]
    is an artefact of the bounded recursion; [topological_sort_fuel] shows
    that a well-formed graph never reaches it. *)
Inductive gen_end := Finished | Raised (e : exn) | OutOfFuel.

(** [while zero_indegree]; [yielded] holds the nodes yielded so far, the
    latest first. *)
Fixpoint kahn (fuel : nat) (G : Graph) (imap : gmap string Z)
    (stack yielded : list string) : list string * gen_end :=
  match stack with
  | [] =>
      (reverse yielded,
       if decide (imap = ∅) then Finished else Raised NetworkXUnfeasible)
  | node :: stack' =>
      match fuel with
      | O => (reverse yielded, OutOfFuel)
      | Datatypes.S fuel' =>
          if decide (node ∈ g_nodes G) then
            match relax (e_to <$> filter (λ e, e_from e = node) (g_edges G))
                    imap stack' with
            | Raise e => (reverse yielded, Raised e)
            | Ok (imap', stack'') => kahn fuel' G imap' stack'' (node :: yielded)
            end
          else (reverse yielded, Raised RuntimeError)
      end
  end.

(** The nodes the generator yields, in order, and how it ends. *)
Definition topological_sort (G : Graph) : list string * gen_end :=
  kahn (length (g_nodes G)) G (indegree_map G) (zero_indegree G) [].

(** *** Notions used to state what the generator yields *)

Section kahn_defs.
Context (G : Graph).


Definition children (u : string) : list string :=
  e_to <$> filter (λ e, e_from e = u) (g_edges G).

Definition cnt (l : list string) (v : string) : Z :=
  Z.of_nat (length (filter (λ c, c = v) l)).

Definition rem_in (es : list Edge) (done : list string) (v : string) : Z :=
  Z.of_nat (length (filter (λ e, e_to e = v ∧ e_from e ∉ done) es)).

Definition rem (done : list string) (v : string) : Z := rem_in (g_edges G) done v.

(** The in-degree dictionary holds, for every node, the number [r] of
    in-edges not yet accounted for, when that number is positive. *)
Definition counted (imap : gmap string Z) (r : string → Z) : Prop :=
  ∀ v, v ∈ g_nodes G →
    match imap !! v with
    | Some d => d = r v ∧ (0 < d)%Z
    | None => r v = 0%Z
    end.

(** Each node of the list has its predecessors later in the list (that
    is, yielded earlier). *)
Fixpoint topo (ys : list string) : Prop :=
  match ys with
  | [] => True
  | v :: l =>
      (v ∉ l) ∧ (∀ e, e ∈ g_edges G → e_to e = v → e_from e ∈ l) ∧ topo l
  end.

Record kahn_inv (imap : gmap string Z) (stack yielded : list string) : Prop := {
  ki_counted : counted imap (rem yielded);
  ki_members : ∀ v, v ∈ stack ++ yielded ↔ v ∈ g_nodes G ∧ imap !! v = None;
  ki_nodup : NoDup (stack ++ yielded);
  ki_dom : ∀ v d, imap !! v = Some d → v ∈ g_nodes G;
  ki_topo : topo yielded
}.

(** [u] has an edge to [v]. *)
Definition edge_rel (u v : string) : Prop :=
  ∃ e, e ∈ g_edges G ∧ e_from e = u ∧ e_to e = v.

(** The graph contains a cycle: some node reaches itself along at least
    one edge. *)
Definition has_cycle : Prop := ∃ v, tc edge_rel v v.
End kahn_defs.

(** ** [SwmmNetwork.solve]

    The loop body runs on every yielded node; an exception of the
    generator surfaces once the nodes yielded before it are processed.
    The body never changes the nodes or the end points of the edges
    ([solve_preserves]), so the generator's run does not depend on the
    body's mutations and can be computed up front. *)

Definition solve (self : Config) : M State () := λ s,
  let '(order, fin) := topological_sort (st_G s) in
  match for_each order (solve_node self) s with
  | (Ok _, s') =>
      match fin with
      | Finished => (Ok (), s')
      | Raised e => (Raise e, s')
      | OutOfFuel => (Raise RuntimeError, s')
      end
  | (Raise e, s') => (Raise e, s')
  end.

(** ** The end-to-end scenario of the specification *)

(** A dictionary literal. *)
Definition attrs (l : list (string * value)) : gmap string value := list_to_map l.

Module Scenario.
Definition G : Graph :=
  mkGraph ["A"; "B"; "OF1"]
    (list_to_map
       [("A", attrs [("volume", VNum (num 100)); ("load", VNum (num 10))]);
        ("B", ∅); ("OF1", ∅)])
    [mkEdge "A" "B" (attrs [("id", VStr "P1"); ("volume", VNum (num 100))]);
     mkEdge "B" "OF1" (attrs [("id", VStr "P2-TR"); ("volume", VNum (num 100))])].
End Scenario.

(** ** Other graphs used as concrete inputs *)

Module Examples.
(** A loaded subcatchment whose only out-edge already carries a load of
    zero. *)
Definition G_zero_load : Graph :=
  mkGraph ["A"; "B"]
    (list_to_map
       [("A", attrs [("volume", VNum (num 100)); ("load", VNum (num 10))]);
        ("B", ∅)])
    [mkEdge "A" "B"
       (attrs [("id", VStr "P1"); ("volume", VNum (num 100)); ("load", VNum 0)])].

Definition G_no_id : Graph :=
  mkGraph ["A"; "B"] (list_to_map [("A", ∅); ("B", ∅)])
    [mkEdge "A" "B" (attrs [("volume", VNum (num 100))])].

(** [A -> B -> C -> B]: a cycle downstream of a subcatchment. *)
Definition G_cycle : Graph :=
  mkGraph ["A"; "B"; "C"]
    (list_to_map
       [("A", attrs [("volume", VNum (num 100)); ("load", VNum (num 10))]);
        ("B", ∅); ("C", ∅)])
    [mkEdge "A" "B" (attrs [("id", VStr "P1"); ("volume", VNum (num 100))]);
     mkEdge "B" "C" (attrs [("id", VStr "P2"); ("volume", VNum (num 100))]);
     mkEdge "C" "B" (attrs [("id", VStr "P3"); ("volume", VNum (num 100))])].


(** An outfall without inflow. *)
Definition G_dry_outfall : Graph :=
  mkGraph ["OF1"] (list_to_map [("OF1", ∅)]) [].

(** A node with a source volume of its own and an inflow. *)
Definition G_inflow : Graph :=
  mkGraph ["A"; "B"]
    (list_to_map
       [("A", attrs [("volume", VNum (num 100))]);
        ("B", attrs [("volume", VNum (num 50))])])
    [mkEdge "A" "B" (attrs [("id", VStr "P1"); ("volume", VNum (num 100))])].
End Examples.

(** ** Notions used in the statements

    The attribute [k] of node [n], if any. *)

Definition node_attr (G : Graph) (n k : string) : option value :=
  g_node G !! n ≫= (.!! k).

(** [G'] differs from [G] at most in the node attributes [Wn] and the edge
    attributes [We] (an edge is named by its source node). *)
Record frame (Wn We : string → string → Prop) (G G' : Graph) : Prop := {
  fr_nodes : g_nodes G' = g_nodes G;
  fr_dom : ∀ n, is_Some (g_node G' !! n) ↔ is_Some (g_node G !! n);
  fr_node : ∀ n k, ¬ Wn n k → node_attr G' n k = node_attr G n k;
  fr_edges :
    Forall2 (λ e e', e_from e' = e_from e ∧ e_to e' = e_to e ∧
                     ∀ k, ¬ We (e_from e) k → e_data e' !! k = e_data e !! k)
      (g_edges G) (g_edges G')
}.

Definition preserves {A} (Wn We : string → string → Prop) (m : M State A) : Prop :=
  ∀ s, frame Wn We (st_G s) (st_G (m s).2).

(** The body over an edge leaves every key but [K] of [data] alone. *)
Definition data_preserves {A} (K : string → Prop)
    (m : M (gmap string value * list Warning) A) : Prop :=
  ∀ s k, ¬ K k → (m s).2.1 !! k = s.1 !! k.

Definition vol_keys (self : Config) : list string :=
  [vol_out_col self; vol_red_col self; pct_vol_red_col self; vol_tmnt_col self;
   pct_vol_tmnt_col self; vol_cap_col self; pct_vol_cap_col self].

Definition load_keys (load_col : string) : list string :=
  [load_col; conc_col load_col; load_out_col load_col; load_red_col load_col;
   pct_load_red_col load_col].

Definition node_keys (self : Config) : list string :=
  vol_col self :: vol_pct_diff_col self :: vol_keys self ++
  flat_map load_keys (load_cols self).

(** An edge is left out by the exclude flags [exc] tested on its value
    under [fk]. *)
Definition excluded (fk : string) (exc : list string) (e : Edge) : bool :=
  match e_data e !! fk with
  | Some (VStr s) => existsb (λ i, contains i s) exc
  | _ => false
  end.
Definition drop_excluded (fk : string) (exc : list string) (G : Graph) : Graph :=
  mkGraph (g_nodes G) (g_node G) (filter (λ e, excluded fk exc e = false) (g_edges G)).

(** The edge's identifier matches a treated flag, and treatment is on. *)
Definition treated_edge (self : Config) (data : gmap string value) : bool :=
  treated self &&
  match data !! name_col self with
  | Some (VStr s) => existsb (λ i, contains i s) (treated_flags self)
  | _ => false
  end.

(** The concentration leaving on an edge: [eff_conc] on a treated edge. *)
Definition edge_conc (self : Config) (data : gmap string value) (conc_in : Qc) : Qc :=
  if treated_edge self data then (1 - Q2Qc (7 # 10)) * conc_in else conc_in.

(** The outcome of one load iteration at a node: the triple
    [(load_out, vol_out, vol_treated)] and the edges it leaves. *)
Definition out_spec (self : Config) (n lc : string) (vol_in load_in conc_in : Qc)
    (s s' : State) (r : Qc * Qc * Qc) : Prop :=
  if bool_decide (0 < load_in) then
    out_edges_loop (solve_edge self lc conc_in) n (g_edges (st_G s)) (st_warnings s)
      = (Ok (), (g_edges (st_G s'), st_warnings s')) ∧
    if existsb (λ i, contains i n) (outfall_flags self)
    then r = (load_in, vol_in, 0)
    else
      sum_edge_attr (st_G s') n lc M_out_edges None None None = Ok r.1.1 ∧
      sum_edge_attr (st_G s') n (vol_col self) M_out_edges
        (Some (name_col self)) None (Some (vol_reduced_flags self)) = Ok r.1.2 ∧
      sum_edge_attr (st_G s') n (vol_col self) M_out_edges
        (Some (name_col self)) (Some (treated_flags self)) None = Ok r.2
  else g_edges (st_G s') = g_edges (st_G s) ∧ r = (load_in, vol_in, 0).

(** What one iteration of the loop over the load columns leaves at the
    node and on the edges. *)
Definition load_spec (self : Config) (n lc : string) (vol_in : Qc)
    (s s' : State) (load_in : Qc) (r : Qc * Qc * Qc) : Prop :=
  vol_in ≠ 0 ∧
  (∃ edge_load node_load,
     sum_edge_attr (st_G s) n lc M_in_edges None None None = Ok edge_load ∧
     as_num (default (VNum 0) (node_attr (st_G s) n lc)) = Ok node_load ∧
     load_in = edge_load + node_load) ∧
  out_spec self n lc vol_in load_in (safe_divide load_in vol_in) s s' r ∧
  node_attr (st_G s') n lc = Some (VNum load_in) ∧
  node_attr (st_G s') n (conc_col lc) = Some (VNum (safe_divide load_in vol_in)) ∧
  node_attr (st_G s') n (load_out_col lc) = Some (VNum r.1.1) ∧
  node_attr (st_G s') n (load_red_col lc) = Some (VNum (load_in - r.1.1)) ∧
  (0 < load_in →
   node_attr (st_G s') n (pct_load_red_col lc)
     = Some (VNum (num 100 * ((load_in - r.1.1) / load_in)))) ∧
  node_attr (st_G s') n (vol_out_col self) = Some (VNum r.1.2) ∧
  node_attr (st_G s') n (vol_red_col self) = Some (VNum (vol_in - r.1.2)) ∧
  node_attr (st_G s') n (vol_tmnt_col self) = Some (VNum r.2).

(** The column names do not collide: the keys written on a node are
    pairwise distinct and differ from the expected-volume key, and the
    load columns differ from each other and from the identifier and volume
    columns of an edge. *)
Definition cols_ok (self : Config) : Prop :=
  NoDup (ck_vol_col self :: node_keys self) ∧
  NoDup (name_col self :: vol_col self :: load_cols self).

(** The state in which the loop over the load columns starts at a node. *)
Definition node_spec (self : Config) (n : string) (s sb : State) (vol_in : Qc) : Prop :=
  (∃ edge_vol node_vol expected,
     sum_edge_attr (st_G s) n (vol_col self) M_in_edges None None None = Ok edge_vol ∧
     as_num (default (VNum 0) (node_attr (st_G s) n (vol_col self))) = Ok node_vol ∧
     vol_in = edge_vol + node_vol ∧
     as_num (default (VNum node_vol) (node_attr (st_G s) n (ck_vol_col self)))
       = Ok expected ∧
     node_attr (st_G sb) n (vol_pct_diff_col self)
       = Some (VNum (safe_divide (expected - vol_in) expected * num 100))) ∧
  node_attr (st_G sb) n (vol_col self) = Some (VNum vol_in) ∧
  g_edges (st_G sb) = g_edges (st_G s) ∧
  st_warnings sb = st_warnings s ∧
  (∀ k, k ≠ vol_col self → k ≠ vol_pct_diff_col self →
        node_attr (st_G sb) n k = node_attr (st_G s) n k).

(** Edge [e] is selected by method [m] at node [n]. *)
Definition selects (m : method) (n : string) (e : Edge) : Prop :=
  match m with
  | M_in_edges => e_to e = n
  | M_edges | M_out_edges => e_from e = n
  end.

(** [str(node)] contains an outfall flag. *)
Definition outfall_node (self : Config) (n : string) : bool :=
  existsb (λ i, contains i n) (outfall_flags self).

(** The string [id] contains one of [flags]. *)
Definition matches (flags : list string) (id : string) : bool :=
  existsb (λ i, contains i id) flags.


(** A chain [A -> B -> C] whose second edge already carries a load of
    zero. *)
Definition G_preset : Graph :=
  mkGraph ["A"; "B"; "C"]
    (list_to_map
       [("A", attrs [("volume", VNum (num 100)); ("load", VNum (num 10))]);
        ("B", ∅); ("C", ∅)])
    [mkEdge "A" "B" (attrs [("id", VStr "P1"); ("volume", VNum (num 100))]);
     mkEdge "B" "C"
       (attrs [("id", VStr "P2"); ("volume", VNum (num 100)); ("load", VNum 0)])].

(** A checker for [wf_graph]. *)
Definition wf_graphb (G : Graph) : bool :=
  bool_decide (NoDup (g_nodes G)) &&
  bool_decide (dom (g_node G) = list_to_set (g_nodes G)) &&
  forallb (λ e, bool_decide (e_from e ∈ g_nodes G) && bool_decide (e_to e ∈ g_nodes G))
    (g_edges G).

(** The state a traversal of [G] starts from and the one it leaves. *)
Definition initial (G : Graph) : State := mkState G [].
Definition final (self : Config) (G : Graph) : State := (solve self (initial G)).2.

(** The data of the [i]-th edge. *)
Definition edge_data (G : Graph) (i : nat) : gmap string value :=
  default ∅ (e_data <$> g_edges G !! i).

(** The treated edge [B -> OF1] of the scenario, as the traversal leaves
    it. *)
Definition treated_edge_after : Edge :=
  mkEdge "B" "OF1"
    (attrs [("id", VStr "P2-TR"); ("volume", VNum (num 100)); ("load", VNum (num 3))]).

(** The value, if any, is a number. *)
Definition numeric_or_absent (o : option value) : Prop :=
  match o with Some (VStr _) => False | _ => True end.




(** ** Further notions: typed attributes, sums, clean networks *)

(** The value is present and is a string, or a number. *)
Definition is_str (o : option value) : Prop :=
  match o with Some (VStr _) => True | _ => False end.

Definition is_num (o : option value) : Prop :=
  match o with Some (VNum _) => True | _ => False end.

(** The number an edge holds under [attr]; 0 when it holds none. *)
Definition attr_or_zero (attr : string) (e : Edge) : Qc :=
  match e_data e !! attr with Some (VNum q) => q | _ => 0 end.

(** The sum of a list of numbers, added to 0 one after the other in the
    order of the list, as [val = 0] followed by [val += x] does. *)
Definition total (l : list Qc) : Qc := foldl Qcplus 0 l.

(** The flag test on an identifier: it contains an include flag, when a
    list of them is given, and no exclude flag. *)
Definition passes (inc exc : option (list string)) (id : string) : bool :=
  match inc with Some flags => matches flags id | None => true end &&
  match exc with Some flags => negb (matches flags id) | None => true end.

(** The edge's value under [fk] is a string that passes the flag test. *)
Definition passing (fk : string) (inc exc : option (list string)) (e : Edge) : bool :=
  match e_data e !! fk with Some (VStr id) => passes inc exc id | _ => false end.

(** What one edge adds to the sum. *)
Definition contrib (attr : string) (fk : option string)
    (inc exc : option (list string)) (d : gmap string value) : result Qc :=
  sum_edge_step attr fk inc exc 0 d.

(** The computation returns from [s], with a result and a state that
    satisfy [Q]. *)
Definition returns {S A} (m : M S A) (s : S) (Q : A → S → Prop) : Prop :=
  ∃ a s', m s = (Ok a, s') ∧ Q a s'.

(** An edge with a string identifier and a numeric volume, whose load
    columns hold numbers if anything, and nothing where [pend] says that
    the load is still to be written. *)
Definition edge_ok (self : Config) (pend : string → string → Prop) (e : Edge) : Prop :=
  is_str (e_data e !! name_col self) ∧ is_num (e_data e !! vol_col self) ∧
  ∀ lc, lc ∈ load_cols self →
    numeric_or_absent (e_data e !! lc) ∧ (pend (e_from e) lc → e_data e !! lc = None).

(** The invariant of a traversal that cannot fail: the nodes [N] have
    their dictionaries, the columns read at the nodes hold numbers if
    anything, the edges are [edge_ok], and the warnings are [w]. *)
Record good (self : Config) (N : list string) (pend : string → string → Prop)
    (w : list Warning) (s : State) : Prop := {
  gd_dom : ∀ n, n ∈ N → is_Some (g_node (st_G s) !! n);
  gd_warn : st_warnings s = w;
  gd_node : ∀ n k, k ∈ vol_col self :: ck_vol_col self :: load_cols self →
                   numeric_or_absent (node_attr (st_G s) n k);
  gd_edge : Forall (edge_ok self pend) (g_edges (st_G s))
}.

(** The columns a traversal reads hold numbers where a node has them. *)
Definition clean_node (self : Config) (a : gmap string value) : Prop :=
  Forall (λ k, numeric_or_absent (a !! k))
    (vol_col self :: ck_vol_col self :: load_cols self).

(** An edge with a string identifier, a numeric volume and no load. *)
Definition clean_edge (self : Config) (d : gmap string value) : Prop :=
  is_str (d !! name_col self) ∧ is_num (d !! vol_col self) ∧
  Forall (λ lc, d !! lc = None) (load_cols self).

(** A network as a model builder leaves it: volumes and loads at the
    nodes are numbers, every edge has a string identifier and a numeric
    volume, and no edge carries a load yet. *)
Definition clean (self : Config) (G : Graph) : Prop :=
  map_Forall (λ _ a, clean_node self a) (g_node G) ∧
  Forall (λ e, clean_edge self (e_data e)) (g_edges G).

(** ** [SwmmNetwork.results] and the end of [SwmmNetwork.solve] *)

(** The network object: the graph with the warnings issued so far, and the
    attribute [_results], [None] until a table is stored. *)
Record Network (T : Type) := mkNetwork {
  net_state : State;
  net_results : option T
}.
Arguments mkNetwork {T} _ _.
Arguments net_state {T} _.
Arguments net_results {T} _.

(** [def solve(self)] as a whole: the traversal, then the assembly of the
    table from the nodes and the edges, its assignment to [_results] and
    its return.  The assembly is the function [table] of the graph, which
    may raise. *)
Definition SwmmNetwork_solve {T} (table : Graph → result T) (self : Config)
    : M (Network T) T := λ net,
  match solve self (net_state net) with
  | (Ok _, s') =>
      match table (st_G s') with
      | Ok t => (Ok t, mkNetwork s' (Some t))
      | Raise e => (Raise e, mkNetwork s' (net_results net))
      end
  | (Raise e, s') => (Raise e, mkNetwork s' (net_results net))
  end.

(** [self._results] *)
Definition get_results {T} : M (Network T) (option T) :=
  λ net, (Ok (net_results net), net).

(** [def results(self)], the property. *)
Definition SwmmNetwork_results {T} (table : Graph → result T) (self : Config)
    : M (Network T) (option T) :=
  cached ← get_results;
  _ ← match cached with
      | None => _ ← SwmmNetwork_solve table self; mret ()
      | Some _ => mret ()
      end;
  get_results.

(** ** More concrete inputs *)

(** The untreated edge [A -> B] of the scenario, before the traversal and
    as the traversal leaves it. *)
Definition untreated_edge_before : Edge :=
  mkEdge "A" "B" (attrs [("id", VStr "P1"); ("volume", VNum (num 100))]).

Definition untreated_edge_after : Edge :=
  mkEdge "A" "B"
    (attrs [("id", VStr "P1"); ("volume", VNum (num 100)); ("load", VNum (num 10))]).

(** Edge dictionaries: with a load, with a load of zero, without a
    volume. *)
Definition data_loaded : gmap string value :=
  attrs [("id", VStr "P1"); ("volume", VNum (num 100)); ("load", VNum (num 5))].

Definition data_zero_load : gmap string value :=
  attrs [("id", VStr "P1"); ("volume", VNum (num 100)); ("load", VNum 0)].

Definition data_no_volume : gmap string value := attrs [("id", VStr "P1")].

(** A stand-in for the assembly of the table: the number of nodes. *)
Definition node_count (G : Graph) : result nat := Ok (length (g_nodes G)).

(** An edge dictionary whose identifier is a number. *)
Definition data_numeric_id : gmap string value :=
  attrs [("id", VNum (num 7)); ("volume", VNum (num 100))].

(** A subcatchment with two links, the second of which carries no
    volume. *)
Definition G_dry_link : Graph :=
  mkGraph ["A"; "B"; "C"]
    (list_to_map
       [("A", attrs [("volume", VNum (num 100)); ("load", VNum (num 10))]);
        ("B", ∅); ("C", ∅)])
    [mkEdge "A" "B" (attrs [("id", VStr "P1"); ("volume", VNum (num 100))]);
     mkEdge "A" "C" (attrs [("id", VStr "P2"); ("volume", VNum 0)])].

(** * Properties *)

(** ** The topological sort *)

Section kahn.
Context (G : Graph).
Local Close Scope Qc_scope.

Local Abbreviation children := (children G).
Local Abbreviation rem := (rem G).
Local Abbreviation counted := (counted G).
Local Abbreviation topo := (topo G).
Local Abbreviation kahn_inv := (kahn_inv G).
Local Abbreviation edge_rel := (edge_rel G).
Local Abbreviation has_cycle := (has_cycle G).

Lemma cnt_nil v : cnt [] v = 0%Z.
Proof. done. Qed.

Lemma cnt_app l1 l2 v : cnt (l1 ++ l2) v = (cnt l1 v + cnt l2 v)%Z.
Proof. unfold cnt. rewrite filter_app, length_app. lia. Qed.

Lemma cnt_nonneg l v : (0 ≤ cnt l v)%Z.
Proof. unfold cnt. lia. Qed.

Lemma cnt_cons_eq l v : cnt (v :: l) v = (1 + cnt l v)%Z.
Proof. unfold cnt. rewrite filter_cons_True by done. simpl. lia. Qed.

Lemma cnt_cons_ne l c v : c ≠ v → cnt (c :: l) v = cnt l v.
Proof. intros. unfold cnt. by rewrite filter_cons_False. Qed.

Lemma rem_in_cons_done es u done v :
  u ∉ done →
  rem_in es (u :: done) v =
  (rem_in es done v - cnt (e_to <$> filter (λ e, e_from e = u) es) v)%Z.
Proof.
  intros Hu. unfold rem_in, cnt. induction es as [|e es IH]; [done|].
  rewrite !filter_cons.
  destruct (decide (e_from e = u)) as [->|Hne].
  - rewrite decide_False by (intros [_ H]; apply H; left).
    rewrite fmap_cons. destruct (decide (e_to e = v)) as [->|Hv].
    + rewrite decide_True by done. rewrite filter_cons_True by done.
      simpl length. lia.
    + rewrite decide_False by tauto. rewrite filter_cons_False by done. lia.
  - destruct (decide (e_to e = v ∧ e_from e ∉ done)) as [[H1 H2]|H].
    + rewrite decide_True.
      * simpl length. lia.
      * split; [done|]. rewrite not_elem_of_cons. done.
    + rewrite decide_False; [lia|].
      intros [H1 H2]. apply H. split; [done|]. rewrite not_elem_of_cons in H2. tauto.
Qed.

Lemma rem_nonneg done v : (0 ≤ rem done v)%Z.
Proof. unfold rem, rem_in. lia. Qed.

Lemma rem_cons u done v :
  u ∉ done → rem (u :: done) v = (rem done v - cnt (children u) v)%Z.
Proof. apply rem_in_cons_done. Qed.

Lemma rem_nil v : rem [] v = in_degree G v.
Proof.
  unfold rem, rem_in, in_degree. do 2 f_equal.
  apply list_filter_iff. intros e. split; [tauto|].
  intros ?. split; [done|]. apply not_elem_of_nil.
Qed.

Lemma rem_zero done v e :
  rem done v = 0%Z → e ∈ g_edges G → e_to e = v → e_from e ∈ done.
Proof.
  unfold rem, rem_in. intros H He Hv.
  destruct (decide (e_from e ∈ done)) as [|Hn]; [done|].
  assert (e ∈ filter (λ e, e_to e = v ∧ e_from e ∉ done) (g_edges G)) as Hin
    by (apply list_elem_of_filter; done).
  destruct (filter _ _); [by apply elem_of_nil in Hin | simpl in H; lia].
Qed.

Lemma relax_spec (R : string → Z) seen cs : ∀ ps imap stack,
  (∀ c, c ∈ cs → c ∈ g_nodes G) →
  (∀ v, (cnt (ps ++ cs) v ≤ R v)%Z) →
  counted imap (λ v, (R v - cnt ps v)%Z) →
  (∀ v, v ∈ stack ++ seen ↔ v ∈ g_nodes G ∧ imap !! v = None) →
  NoDup (stack ++ seen) →
  (∀ v d, imap !! v = Some d → v ∈ g_nodes G) →
  ∃ imap' stack',
    relax cs imap stack = Ok (imap', stack') ∧
    counted imap' (λ v, (R v - cnt (ps ++ cs) v)%Z) ∧
    (∀ v, v ∈ stack' ++ seen ↔ v ∈ g_nodes G ∧ imap' !! v = None) ∧
    NoDup (stack' ++ seen) ∧
    (∀ v d, imap' !! v = Some d → v ∈ g_nodes G).
Proof.
  induction cs as [|c cs IH]; intros ps imap stack Hcs Hle Hcnt Hmem Hnd Hdom.
  - exists imap, stack. rewrite app_nil_r. done.
  - assert (c ∈ g_nodes G) as Hc by (apply Hcs; left).
    pose proof (Hle c) as Hlec. rewrite cnt_app, cnt_cons_eq in Hlec.
    pose proof (cnt_nonneg cs c) as Hcs0.
    pose proof (Hcnt c Hc) as Hcc. simpl.
    destruct (imap !! c) as [d|] eqn:Hd; [|lia].
    destruct Hcc as [Hdr Hdpos].
    assert (Hassoc : ∀ v, cnt ((ps ++ [c]) ++ cs) v = cnt (ps ++ c :: cs) v)
      by (intros v; by rewrite <- app_assoc).
    assert (Hnotin : c ∉ stack ++ seen).
    { intros Hin. apply Hmem in Hin as [_ Hin]. congruence. }
    destruct (decide ((d - 1)%Z = 0%Z)) as [Hz|Hnz].
    + destruct (IH (ps ++ [c]) (delete c imap) (c :: stack))
        as (imap' & stack' & Hrel & Hcnt' & Hmem' & Hnd' & Hdom').
      * intros c' Hc'. apply Hcs. by right.
      * intros v. rewrite Hassoc. apply Hle.
      * intros v Hv. destruct (decide (v = c)) as [->|Hne].
        -- rewrite lookup_delete_eq. rewrite cnt_app, cnt_cons_eq, cnt_nil. lia.
        -- rewrite lookup_delete_ne by done.
           rewrite cnt_app, cnt_cons_ne, cnt_nil, Z.add_0_r by done. by apply Hcnt.
      * intros v. simpl. rewrite elem_of_cons, Hmem.
        destruct (decide (v = c)) as [->|Hne].
        -- rewrite lookup_delete_eq. tauto.
        -- rewrite lookup_delete_ne by done. tauto.
      * simpl. by apply NoDup_cons.
      * intros v d'. destruct (decide (v = c)) as [->|Hne].
        -- by rewrite lookup_delete_eq.
        -- rewrite lookup_delete_ne by done. apply Hdom.
      * exists imap', stack'. split; [done|]. split; [|done].
        intros v Hv. specialize (Hcnt' v Hv). cbv beta in Hcnt'. by rewrite Hassoc in Hcnt'.
    + destruct (IH (ps ++ [c]) (<[c := (d - 1)%Z]> imap) stack)
        as (imap' & stack' & Hrel & Hcnt' & Hmem' & Hnd' & Hdom').
      * intros c' Hc'. apply Hcs. by right.
      * intros v. rewrite Hassoc. apply Hle.
      * intros v Hv. destruct (decide (v = c)) as [->|Hne].
        -- rewrite lookup_insert_eq. rewrite cnt_app, cnt_cons_eq, cnt_nil. lia.
        -- rewrite lookup_insert_ne by done.
           rewrite cnt_app, cnt_cons_ne, cnt_nil, Z.add_0_r by done. by apply Hcnt.
      * intros v. rewrite Hmem.
        destruct (decide (v = c)) as [->|Hne].
        -- rewrite lookup_insert_eq, Hd. split; intros [? ?]; done.
        -- by rewrite lookup_insert_ne.
      * done.
      * intros v d'. destruct (decide (v = c)) as [->|Hne]; [done|].
        rewrite lookup_insert_ne by done. apply Hdom.
      * exists imap', stack'. split; [done|]. split; [|done].
        intros v Hv. specialize (Hcnt' v Hv). cbv beta in Hcnt'. by rewrite Hassoc in Hcnt'.
Qed.

Lemma topo_pred ys u v : topo ys → edge_rel u v → v ∈ ys → u ∈ ys.
Proof.
  intros Ht (e & He & <- & <-). induction ys as [|x l IH]; intros Hv.
  - by apply elem_of_nil in Hv.
  - destruct Ht as (_ & Hx & Hl). apply elem_of_cons in Hv as [Hv|Hv].
    + right. by apply Hx.
    + right. by apply IH.
Qed.

Lemma topo_ancestor x l u : topo (x :: l) → tc edge_rel u x → u ∈ l.
Proof.
  intros (_ & Hx & Hl) Htc. remember x as y eqn:Hy.
  induction Htc as [u y (e & He & <- & <-)|u w y Huw _ IH]; subst.
  - by apply Hx.
  - apply (topo_pred l u w); auto.
Qed.

Lemma topo_acyclic ys v : topo ys → v ∈ ys → ¬ tc edge_rel v v.
Proof.
  induction ys as [|x l IH]; intros Ht Hv Hc.
  - by apply elem_of_nil in Hv.
  - apply elem_of_cons in Hv as [->|Hv].
    + pose proof (topo_ancestor _ _ _ Ht Hc). by destruct Ht.
    + destruct Ht as (_ & _ & Hl). by apply IH.
Qed.

Lemma topo_NoDup ys : topo ys → NoDup ys.
Proof.
  induction ys as [|x l IH]; [constructor|].
  intros (? & _ & ?). constructor; auto.
Qed.

Lemma children_nodes u c : wf_graph G → c ∈ children u → c ∈ g_nodes G.
Proof.
  intros (_ & _ & Hwf) Hc. unfold children in Hc.
  apply list_elem_of_fmap in Hc as (e & -> & He).
  apply list_elem_of_filter in He as [_ He]. by apply Hwf.
Qed.

Lemma kahn_inv_step imap u stack yielded :
  wf_graph G → kahn_inv imap (u :: stack) yielded →
  ∃ imap' stack',
    relax (children u) imap stack = Ok (imap', stack') ∧
    kahn_inv imap' stack' (u :: yielded).
Proof.
  intros Hwf [Hcnt Hmem Hnd Hdom Ht].
  assert (u ∈ g_nodes G ∧ imap !! u = None) as [Hu Hnone]
    by (apply Hmem; left).
  simpl in Hnd. apply NoDup_cons in Hnd as [Hunot Hnd].
  assert (u ∉ yielded) as Huy by (intros ?; apply Hunot, elem_of_app; by right).
  pose proof (Hcnt u Hu) as Hru. rewrite Hnone in Hru.
  destruct (relax_spec (rem yielded) (u :: yielded) (children u) [] imap stack)
    as (imap' & stack' & Hrel & Hcnt' & Hmem' & Hnd' & Hdom').
  - intros c. by apply children_nodes.
  - intros v. simpl. pose proof (rem_cons u yielded v Huy).
    pose proof (rem_nonneg (u :: yielded) v). lia.
  - intros v Hv. specialize (Hcnt v Hv). rewrite cnt_nil, Z.sub_0_r. done.
  - intros v. rewrite <- Hmem. rewrite !elem_of_app, !elem_of_cons. tauto.
  - apply NoDup_app. apply NoDup_app in Hnd as (Hs & Hsy & Hy).
    split; [done|]. split; [|by apply NoDup_cons].
    intros v Hv. rewrite elem_of_cons. intros [->|Hvy].
    + apply Hunot, elem_of_app. by left.
    + by apply (Hsy v).
  - done.
  - exists imap', stack'. split; [done|]. split.
    + intros v Hv. specialize (Hcnt' v Hv). simpl in Hcnt'.
      by rewrite rem_cons.
    + done.
    + done.
    + done.
    + simpl. split; [done|]. split; [|done].
      intros e He Hto. by apply (rem_zero yielded u).
Qed.

Lemma kahn_spec fuel : ∀ imap stack yielded,
  wf_graph G → kahn_inv imap stack yielded →
  length (g_nodes G) ≤ length yielded + fuel →
  ∃ ys fin,
    kahn fuel G imap stack yielded = (reverse ys, fin) ∧
    topo ys ∧ (∀ v, v ∈ ys → v ∈ g_nodes G) ∧
    ((fin = Finished ∧ ∀ v, v ∈ g_nodes G → v ∈ ys) ∨
     (fin = Raised NetworkXUnfeasible ∧ ∃ v, v ∈ g_nodes G ∧ v ∉ ys)).
Proof.
  induction fuel as [|fuel IH]; intros imap stack yielded Hwf Hinv Hlen.
  - destruct stack as [|u stack].
    + clear Hlen. destruct Hinv as [Hcnt Hmem Hnd Hdom Ht]. simpl.
      exists yielded. eexists. split; [done|]. split; [done|].
      split; [intros v Hv; by apply Hmem|].
      destruct (decide (imap = ∅)) as [->|Hne].
      * left. split; [done|]. intros v Hv. apply Hmem. by rewrite lookup_empty.
      * right. split; [done|]. apply map_choose in Hne as (v & d & Hvd).
        exists v. split; [by eapply Hdom|].
        intros Hv. apply Hmem in Hv as [_ Hv]. congruence.
    + exfalso. destruct Hinv as [_ Hmem Hnd _ _].
      assert ((u :: stack) ++ yielded ⊆+ g_nodes G) as Hsub.
      { apply NoDup_submseteq; [done|]. intros v Hv. by apply Hmem. }
      apply submseteq_length in Hsub. rewrite length_app in Hsub.
      simpl in Hsub. lia.
  - destruct stack as [|u stack].
    + destruct Hinv as [Hcnt Hmem Hnd Hdom Ht]. simpl.
      exists yielded. eexists. split; [done|]. split; [done|].
      split; [intros v Hv; by apply Hmem|].
      destruct (decide (imap = ∅)) as [->|Hne].
      * left. split; [done|]. intros v Hv. apply Hmem. by rewrite lookup_empty.
      * right. split; [done|]. apply map_choose in Hne as (v & d & Hvd).
        exists v. split; [by eapply Hdom|].
        intros Hv. apply Hmem in Hv as [_ Hv]. congruence.
    + assert (u ∈ g_nodes G) as Hu by (apply (ki_members _ _ _ _ Hinv); left).
      destruct (kahn_inv_step _ _ _ _ Hwf Hinv) as (imap' & stack' & Hrel & Hinv').
      simpl. rewrite decide_True by done.
      change (relax (e_to <$> filter (λ e, e_from e = u) (g_edges G)) imap stack = Ok (imap', stack')) in Hrel. rewrite Hrel.
      apply IH; [done..|]. simpl. lia.
Qed.

Lemma kahn_inv_init :
  wf_graph G → kahn_inv (indegree_map G) (zero_indegree G) [].
Proof.
  intros (Hnd & _ & _).
  assert (Hlook : ∀ v, v ∈ g_nodes G →
    indegree_map G !! v =
    if decide (0 < in_degree G v)%Z then Some (in_degree G v) else None).
  { intros v. unfold indegree_map. clear.
    induction (g_nodes G) as [|x l IH]; intros Hv.
    - by apply elem_of_nil in Hv.
    - simpl. destruct (decide (v = x)) as [->|Hne].
      + destruct (decide (0 < in_degree G x)%Z).
        * simpl. by rewrite lookup_insert_eq.
        * destruct (decide (x ∈ l)) as [Hin|Hnin]; [by apply IH|].
          apply not_elem_of_list_to_map. rewrite list_fmap_omap.
          intros Hx. apply list_elem_of_omap in Hx as (w & Hw & Heq).
          simpl in Heq. destruct (decide (0 < in_degree G w)%Z); simplify_eq/=. done.
      + apply elem_of_cons in Hv as [|Hv]; [done|].
        destruct (decide (0 < in_degree G x)%Z); simpl.
        * rewrite lookup_insert_ne by done. by apply IH.
        * by apply IH. }
  split.
  - intros v Hv. rewrite (Hlook v Hv), rem_nil.
    pose proof (rem_nonneg [] v). rewrite rem_nil in H.
    destruct (decide _); [done|lia].
  - intros v. rewrite app_nil_r. unfold zero_indegree.
    rewrite elem_of_reverse, list_elem_of_filter. split.
    + intros [Hz Hv]. split; [done|]. rewrite (Hlook v Hv).
      rewrite decide_False; [done|lia].
    + intros [Hv Hnone]. split; [|done]. rewrite (Hlook v Hv) in Hnone.
      pose proof (rem_nonneg [] v). rewrite rem_nil in H.
      destruct (decide _); [done|lia].
  - rewrite app_nil_r. unfold zero_indegree. rewrite reverse_Permutation.
    by apply NoDup_filter.
  - intros v d Hvd. unfold indegree_map in Hvd.
    apply elem_of_list_to_map_2 in Hvd.
    apply list_elem_of_omap in Hvd as (w & Hw & Heq).
    destruct (decide _); simplify_eq. done.
  - done.
Qed.

(** What the generator yields on a well-formed graph: distinct nodes,
    each after all its predecessors; it ends normally exactly when every
    node has been yielded, and otherwise raises [NetworkXUnfeasible]. *)
Lemma topological_sort_spec :
  wf_graph G →
  ∃ ys fin,
    topological_sort G = (reverse ys, fin) ∧
    topo ys ∧ (∀ v, v ∈ ys → v ∈ g_nodes G) ∧
    ((fin = Finished ∧ ∀ v, v ∈ g_nodes G → v ∈ ys) ∨
     (fin = Raised NetworkXUnfeasible ∧ ∃ v, v ∈ g_nodes G ∧ v ∉ ys)).
Proof.
  intros Hwf. apply kahn_spec; [done|by apply kahn_inv_init|]. simpl. lia.
Qed.

Lemma topological_sort_fuel : wf_graph G → (topological_sort G).2 ≠ OutOfFuel.
Proof.
  intros Hwf. destruct (topological_sort_spec Hwf) as (ys & fin & -> & _ & _ & H).
  simpl. destruct H as [[-> _]|[-> _]]; done.
Qed.

Lemma has_cycle_node v : wf_graph G → tc edge_rel v v → v ∈ g_nodes G.
Proof.
  intros (_ & _ & Hwf) Htc.
  assert (∃ w, edge_rel v w) as (w & e & He & <- & _)
    by (inversion Htc; eauto).
  by apply Hwf.
Qed.

Lemma topological_sort_cycle :
  wf_graph G → has_cycle →
  ∃ ys, topological_sort G = (reverse ys, Raised NetworkXUnfeasible) ∧
        topo ys ∧ (∀ v, v ∈ ys → v ∈ g_nodes G).
Proof.
  intros Hwf (v & Hv).
  destruct (topological_sort_spec Hwf) as (ys & fin & Heq & Ht & Hsub & H).
  exists ys. destruct H as [[-> Hall]|[-> _]]; [|done].
  exfalso. apply (topo_acyclic ys v); auto. apply Hall. by apply has_cycle_node.
Qed.

End kahn.

(** ** Frames: what a computation leaves alone *)

Lemma frame_refl Wn We G : frame Wn We G G.
Proof.
  split; try done. apply Forall2_same_length_lookup. split; [done|].
  intros i e e' H1 H2. by simplify_eq.
Qed.

Lemma frame_trans Wn We G1 G2 G3 :
  frame Wn We G1 G2 → frame Wn We G2 G3 → frame Wn We G1 G3.
Proof.
  intros [a1 b1 c1 d1] [a2 b2 c2 d2]. split.
  - congruence.
  - intros n. by rewrite b2.
  - intros n k H. by rewrite c2, c1.
  - eapply Forall2_trans; [|done..].
    intros e1 e2 e3 (f1 & t1 & k1) (f2 & t2 & k2). split; [congruence|].
    split; [congruence|]. intros k H. rewrite k2, k1; [done..|]. by rewrite f1.
Qed.

Lemma frame_mono (Wn We Wn' We' : string → string → Prop) G G' :
  (∀ n k, Wn n k → Wn' n k) → (∀ n k, We n k → We' n k) →
  frame Wn We G G' → frame Wn' We' G G'.
Proof.
  intros Hn He [a b c d]. split; try done.
  - intros n k H. apply c. auto.
  - eapply Forall2_impl; [done|]. intros e e' (f & t & H). split; [done|].
    split; [done|]. intros k Hk. apply H. auto.
Qed.

Lemma preserves_mono {A} (Wn We Wn' We' : string → string → Prop) (m : M State A) :
  (∀ n k, Wn n k → Wn' n k) → (∀ n k, We n k → We' n k) →
  preserves Wn We m → preserves Wn' We' m.
Proof. intros Hn He H s. eapply frame_mono; [done..|]. apply H. Qed.

Lemma preserves_ret {A} Wn We (a : A) : preserves Wn We (mret a).
Proof. intros s. apply frame_refl. Qed.

Lemma preserves_bind {A B} Wn We (m : M State A) (f : A → M State B) :
  preserves Wn We m → (∀ a, preserves Wn We (f a)) → preserves Wn We (m ≫= f).
Proof.
  intros Hm Hf s. specialize (Hm s). unfold mbind, M_bind.
  destruct (m s) as [[a|e] s1]; simpl in *; [|done].
  eapply frame_trans; [done|]. apply Hf.
Qed.

Lemma preserves_lift {A} Wn We (r : result A) : preserves Wn We (lift r).
Proof. intros s. apply frame_refl. Qed.

Lemma preserves_node_get Wn We n k d : preserves Wn We (node_get n k d).
Proof. intros s. unfold node_get. destruct (_ !! _); apply frame_refl. Qed.

Lemma preserves_sum_edges Wn We n a m fk inc exc :
  preserves Wn We (sum_edges n a m fk inc exc).
Proof. intros s. apply frame_refl. Qed.

Lemma preserves_when Wn We c (m : M State ()) :
  preserves Wn We m → preserves Wn We (when c m).
Proof. destruct c; [done|]. intros _. apply preserves_ret. Qed.

Lemma preserves_for_each {A} Wn We (xs : list A) (body : A → M State ()) :
  (∀ x, x ∈ xs → preserves Wn We (body x)) → preserves Wn We (for_each xs body).
Proof.
  induction xs as [|x xs IH]; intros H; simpl.
  - apply preserves_ret.
  - apply preserves_bind; [apply H; left|]. intros _. apply IH.
    intros y Hy. apply H. by right.
Qed.

Lemma node_attr_set G n k v n' k' :
  node_attr (set_node_attr G n k v) n' k' =
  if decide (n = n' ∧ k = k') then Some v else node_attr G n' k'.
Proof.
  unfold node_attr, set_node_attr. simpl.
  destruct (decide (n = n')) as [->|Hn].
  - rewrite lookup_insert_eq. simpl. destruct (decide (k = k')) as [->|Hk].
    + rewrite lookup_insert_eq. by rewrite decide_True.
    + rewrite lookup_insert_ne by done. rewrite decide_False by tauto.
      by destruct (g_node G !! n').
  - rewrite lookup_insert_ne by done. by rewrite decide_False by tauto.
Qed.

Lemma preserves_node_set (Wn We : string → string → Prop) n k v :
  Wn n k → preserves Wn We (node_set n k v).
Proof.
  intros HW s. unfold node_set.
  destruct (g_node (st_G s) !! n) as [a|] eqn:Ha; simpl; [|apply frame_refl].
  split; simpl.
  - done.
  - intros n'. destruct (decide (n = n')) as [<-|Hn].
    + rewrite lookup_insert_eq, Ha. split; eauto.
    + by rewrite lookup_insert_ne.
  - intros n' k' H. rewrite node_attr_set. rewrite decide_False; [done|].
    intros [<- <-]. done.
  - apply Forall2_same_length_lookup. split; [done|].
    intros i e e' H1 H2. by simplify_eq.
Qed.

Lemma data_preserves_ret {A} K (a : A) : data_preserves K (mret a).
Proof. done. Qed.

Lemma data_preserves_bind {A B} K (m : M _ A) (f : A → M _ B) :
  data_preserves K m → (∀ a, data_preserves K (f a)) → data_preserves K (m ≫= f).
Proof.
  intros Hm Hf s k Hk. specialize (Hm s k Hk). unfold mbind, M_bind.
  destruct (m s) as [[a|e] s1]; simpl in *; [|done].
  by rewrite Hf.
Qed.

Lemma data_preserves_when K c (m : M _ ()) :
  data_preserves K m → data_preserves K (when c m).
Proof. by destruct c. Qed.

Lemma any_true_fmap (f : string → bool) flags :
  any_true (f <$> flags) = existsb f flags.
Proof.
  unfold any_true. induction flags as [|i flags IH]; [done|].
  rewrite fmap_cons. cbn [existsb]. by rewrite IH.
Qed.

Lemma flags_in_data_str flags d k s :
  d !! k = Some (VStr s) →
  flags_in_data flags d k = Ok ((λ i, contains i s) <$> flags).
Proof.
  intros Hk. induction flags as [|i flags IH]; [done|].
  simpl. rewrite Hk. simpl. by rewrite IH.
Qed.

(** The comprehension over the flags reads the dictionary only when there
    is a flag; the test then is the one on the value read. *)
Lemma data_any_in_spec flags k d log :
  data_any_in flags k (d, log) =
  (match flags with
   | [] => Ok false
   | _ :: _ => key ← getitem d k; any_in flags key
   end, (d, log)).
Proof.
  unfold data_any_in. f_equal. destruct flags as [|i flags]; [done|].
  unfold getitem. cbn [fst flags_in_data].
  destruct (d !! k) as [[q|s]|] eqn:Hk; [done| |done].
  simpl. rewrite (flags_in_data_str flags d k s Hk). simpl.
  by rewrite any_true_fmap.
Qed.

Lemma solve_edge_preserves self lc conc :
  data_preserves (λ k, k = lc) (solve_edge self lc conc).
Proof.
  unfold solve_edge.
  repeat first
    [ apply data_preserves_bind; [|intros ?]
    | apply data_preserves_when
    | match goal with |- data_preserves _ (if ?b then _ else _) => destruct b end
    | done
    | (intros s k Hk; simpl; by rewrite lookup_insert_ne by done) ].
Qed.

Lemma out_edges_loop_frame body n (K : string → Prop) es : ∀ log,
  data_preserves K body →
  Forall2 (λ e e', e_from e' = e_from e ∧ e_to e' = e_to e ∧
                   ∀ k, ¬ (e_from e = n ∧ K k) → e_data e' !! k = e_data e !! k)
    es (out_edges_loop body n es log).2.1.
Proof.
  intros log Hb. revert log. induction es as [|e es IH]; intros log; simpl.
  - constructor.
  - destruct (decide (e_from e = n)) as [He|He].
    + specialize (Hb (e_data e, log)).
      destruct (body (e_data e, log)) as [[[]|x] [d log']]; simpl in *.
      * specialize (IH log').
        destruct (out_edges_loop body n es log') as [r' [es' log'']]; simpl in *.
        constructor; [|done]. simpl. split; [done|]. split; [done|].
        intros k Hk. apply Hb. tauto.
      * constructor.
        -- simpl. split; [done|]. split; [done|]. intros k Hk. apply Hb. tauto.
        -- apply Forall2_same_length_lookup. split; [done|].
           intros i e1 e2 H1 H2. by simplify_eq.
    + specialize (IH log).
      destruct (out_edges_loop body n es log) as [r' [es' log'']]; simpl in *.
      constructor; [|done]. done.
Qed.

Lemma preserves_for_out_edges (Wn We : string → string → Prop) n body K :
  data_preserves K body → (∀ k, K k → We n k) →
  preserves Wn We (for_out_edges n body).
Proof.
  intros Hb HK s. unfold for_out_edges.
  pose proof (out_edges_loop_frame body n K (g_edges (st_G s)) (st_warnings s) Hb) as H.
  destruct (out_edges_loop _ _ _ _) as [r [es log]]; simpl in *.
  split; simpl; try done.
  eapply Forall2_impl; [done|]. intros e e' (f & t & Hk). split; [done|].
  split; [done|]. intros k HW. apply Hk. intros [<- HKk]. apply HW. auto.
Qed.

Ltac preserves_tac :=
  repeat first
    [ apply preserves_ret
    | apply preserves_lift
    | apply preserves_node_get
    | apply preserves_sum_edges
    | apply preserves_bind; [|intros ?]
    | apply preserves_when
    | match goal with
      | |- preserves _ _ (if ?b then _ else _) => destruct b
      | |- preserves _ _ (let '(_, _) := ?p in _) => destruct p
      end ].

Lemma solve_load_preserves self n vol_in lc :
  preserves (λ n' k, n' = n ∧ k ∈ load_keys lc ++ vol_keys self)
            (λ n' k, n' = n ∧ k = lc)
            (solve_load self n vol_in lc).
Proof.
  unfold solve_load, solve_out.
  preserves_tac;
    try (apply preserves_node_set; split; [done|]; unfold load_keys, vol_keys;
         set_solver).
  eapply preserves_for_out_edges; [apply solve_edge_preserves|].
  intros k ->. done.
Qed.

Lemma solve_node_preserves self n :
  preserves (λ n' k, n' = n ∧ k ∈ node_keys self)
            (λ n' k, n' = n ∧ k ∈ load_cols self)
            (solve_node self n).
Proof.
  unfold solve_node.
  preserves_tac;
    try (apply preserves_node_set; split; [done|]; unfold node_keys; set_solver).
  apply preserves_for_each. intros lc Hlc.
  eapply preserves_mono; [| |apply solve_load_preserves].
  - intros n' k [-> Hk]. split; [done|]. unfold node_keys.
    apply elem_of_app in Hk as [Hk|Hk].
    + do 2 right. apply elem_of_app. right. apply list_elem_of_In, in_flat_map.
      exists lc. split; by apply list_elem_of_In.
    + do 2 right. apply elem_of_app. by left.
  - intros n' k [-> ->]. done.
Qed.

(** The frame of a run of the loop over the nodes [ns]. *)
Lemma solve_nodes_preserves self ns :
  preserves (λ n' _, n' ∈ ns) (λ n' k, n' ∈ ns ∧ k ∈ load_cols self)
            (for_each ns (solve_node self)).
Proof.
  apply preserves_for_each. intros n Hn.
  eapply preserves_mono; [| |apply solve_node_preserves].
  - by intros n' k [-> _].
  - by intros n' k [-> ?].
Qed.

Lemma bind_ok {S A B} (m : M S A) (f : A → M S B) s b s' :
  (m ≫= f) s = (Ok b, s') → ∃ a s1, m s = (Ok a, s1) ∧ f a s1 = (Ok b, s').
Proof.
  unfold mbind, M_bind. destruct (m s) as [[a|e] s1]; [|done]. eauto.
Qed.

Lemma for_each_app {S A} (l1 l2 : list A) (body : A → M S ()) s s' :
  for_each (l1 ++ l2) body s = (Ok (), s') →
  ∃ s1, for_each l1 body s = (Ok (), s1) ∧ for_each l2 body s1 = (Ok (), s').
Proof.
  revert s. induction l1 as [|x l1 IH]; intros s; simpl.
  - intros H. by exists s.
  - intros H. apply bind_ok in H as ([] & s1 & Hx & H).
    apply IH in H as (s2 & H1 & H2). exists s2. split; [|done].
    unfold mbind, M_bind. by rewrite Hx.
Qed.

Lemma frame_wf Wn We G G' : frame Wn We G G' → wf_graph G → wf_graph G'.
Proof.
  intros [Hn Hd _ He] (Hnd & Hdom & Hed). unfold wf_graph. rewrite Hn.
  split; [done|]. split.
  - intros n. by rewrite Hd.
  - intros e' He'. apply list_elem_of_lookup in He' as [i Hi].
    destruct (Forall2_lookup_r _ _ _ _ _ He Hi) as (e & Hi' & f & t & _).
    rewrite f, t. apply Hed. by eapply list_elem_of_lookup_2.
Qed.

(** A successful solve has run the loop body on every node exactly once. *)
Lemma solve_ok self s s' :
  wf_graph (st_G s) → solve self s = (Ok (), s') →
  ∃ order, for_each order (solve_node self) s = (Ok (), s') ∧
           NoDup order ∧ ∀ n, n ∈ order ↔ n ∈ g_nodes (st_G s).
Proof.
  intros Hwf. unfold solve.
  destruct (topological_sort_spec (st_G s) Hwf) as (ys & fin & -> & Ht & Hsub & Hfin).
  destruct (for_each (reverse ys) (solve_node self) s) as [[[]|e] s1] eqn:Hrun; [|done].
  destruct Hfin as [[-> Hall]|[-> _]]; [|done].
  intros [= <-]. exists (reverse ys). split; [done|]. split.
  - rewrite reverse_Permutation. by eapply topo_NoDup.
  - intros n. rewrite elem_of_reverse. split; auto.
Qed.

(** Around the processing of [n], the other iterations leave the
    attributes of [n] and of its out-edges alone, and change the other
    edges at most in the load columns. *)
Lemma solve_sandwich self s s' n :
  wf_graph (st_G s) → solve self s = (Ok (), s') → n ∈ g_nodes (st_G s) →
  ∃ s0 s1,
    frame (λ n' _, n' ≠ n) (λ n' k, n' ≠ n ∧ k ∈ load_cols self) (st_G s) (st_G s0) ∧
    solve_node self n s0 = (Ok (), s1) ∧
    frame (λ n' _, n' ≠ n) (λ n' k, n' ≠ n ∧ k ∈ load_cols self) (st_G s1) (st_G s').
Proof.
  intros Hwf Hs Hn. apply solve_ok in Hs as (order & Hrun & Hnd & Hall); [|done].
  apply Hall in Hn. apply list_elem_of_split in Hn as (l1 & l2 & ->).
  apply for_each_app in Hrun as (s0 & H1 & H2). simpl in H2.
  apply bind_ok in H2 as ([] & s1 & Hx & H2).
  apply NoDup_app in Hnd as (_ & Hl1 & Hl2). apply NoDup_cons in Hl2 as [Hl2 _].
  exists s0, s1. split; [|split; [done|]].
  - pose proof (solve_nodes_preserves self l1 s) as Hf. rewrite H1 in Hf.
    eapply frame_mono; [| |exact Hf].
    + intros n' _ Hin ->. apply (Hl1 n Hin). left.
    + intros n' k [Hin ?]. split; [|done]. intros ->. apply (Hl1 n Hin). left.
  - pose proof (solve_nodes_preserves self l2 s1) as Hf. rewrite H2 in Hf.
    eapply frame_mono; [| |exact Hf].
    + by intros n' _ Hin ->.
    + intros n' k [Hin ?]. split; [|done]. by intros ->.
Qed.


(** ** The edge aggregator *)

Lemma sum_edge_attr_loop G node attr m fk inc exc :
  sum_edge_attr G node attr m fk inc exc =
  sum_edge_loop attr fk inc exc 0 (select_edges G m node).
Proof. unfold sum_edge_attr. by destruct (select_edges G m node). Qed.

Lemma any_in_true flags s :
  existsb (λ i, contains i s) flags = true → any_in flags (VStr s) = Ok true.
Proof. destruct flags; simpl; [done|]. by intros ->. Qed.

Lemma sum_edge_step_excluded attr fk inc exc val e :
  excluded fk exc e = true →
  sum_edge_step attr (Some fk) (Some inc) (Some exc) val (e_data e) = Ok val.
Proof.
  unfold excluded, sum_edge_step, getitem.
  destruct (e_data e !! fk) as [[q|s]|]; [done| |done]. intros Hex. simpl.
  rewrite (any_in_true exc s Hex).
  destruct (any_in inc (VStr s)) as [[]|]eqn:Hinc; simpl; try done.
  destruct inc; simpl in Hinc; done.
Qed.

Lemma select_edges_drop_excluded fk exc G m node :
  select_edges (drop_excluded fk exc G) m node =
  filter (λ e, excluded fk exc e = false) (select_edges G m node).
Proof.
  unfold select_edges, drop_excluded. simpl.
  destruct m; rewrite !list_filter_filter; apply list_filter_iff; intros e; tauto.
Qed.

Lemma sum_edge_loop_drop_excluded attr fk inc exc es : ∀ val,
  sum_edge_loop attr (Some fk) (Some inc) (Some exc) val es =
  sum_edge_loop attr (Some fk) (Some inc) (Some exc) val
    (filter (λ e, excluded fk exc e = false) es).
Proof.
  induction es as [|e es IH]; intros val; [done|].
  rewrite filter_cons. destruct (decide (excluded fk exc e = false)) as [Hf|Ht].
  - cbn [sum_edge_loop].
    destruct (sum_edge_step attr (Some fk) (Some inc) (Some exc) val (e_data e));
      simpl; [apply IH|done].
  - apply not_false_is_true in Ht. cbn [sum_edge_loop].
    rewrite (sum_edge_step_excluded _ _ _ _ _ _ Ht). simpl. apply IH.
Qed.

(** Claim C8.  [sum_edge_attr] returns 0 for a node that has no edge in the
    requested direction, whatever the filter arguments; and when both an
    include and an exclude flag list are given, the edges whose filter value
    contains an exclude flag do not contribute: deleting them from the graph
    leaves the result unchanged, also for an edge that matches an include
    flag. *)
Theorem sum_edge_attr_exclude G node attr m fk inc exc :
  (select_edges G m node = [] →
   ∀ fk' inc' exc', sum_edge_attr G node attr m fk' inc' exc' = Ok 0) ∧
  sum_edge_attr G node attr m (Some fk) (Some inc) (Some exc) =
  sum_edge_attr (drop_excluded fk exc G) node attr m (Some fk) (Some inc) (Some exc).
Proof.
  split.
  - intros Hnil fk' inc' exc'. unfold sum_edge_attr. by rewrite Hnil.
  - rewrite !sum_edge_attr_loop, select_edges_drop_excluded.
    apply sum_edge_loop_drop_excluded.
Qed.

Lemma sum_edge_loop_missing attr fk inc exc e es : ∀ val,
  e ∈ es → e_data e !! fk = None →
  is_ok (sum_edge_loop attr (Some fk) inc exc val es) = false.
Proof.
  induction es as [|e' es IH]; intros val Hin Hnone.
  - by apply elem_of_nil in Hin.
  - cbn [sum_edge_loop]. apply elem_of_cons in Hin as [<-|Hin].
    + unfold sum_edge_step, getitem. by rewrite Hnone.
    + destruct (sum_edge_step attr (Some fk) inc exc val (e_data e')); simpl; [|done].
      by apply IH.
Qed.

(** Claim C10.  When a [filter_key] is given, [sum_edge_attr] reads it from
    every selected edge before it looks at the flag lists: if a selected
    edge lacks the attribute the call raises, whatever the flag lists are,
    in particular when both are [None]. *)
Theorem sum_edge_attr_filter_key_required G node attr m fk inc exc e :
  e ∈ select_edges G m node → e_data e !! fk = None →
  is_ok (sum_edge_attr G node attr m (Some fk) inc exc) = false.
Proof.
  intros Hin Hnone. rewrite sum_edge_attr_loop. by eapply sum_edge_loop_missing.
Qed.

(** ** One load iteration at a node *)

Lemma any_in_ok flags key b :
  any_in flags key = Ok b →
  b = match key with VStr s => existsb (λ i, contains i s) flags | VNum _ => false end.
Proof.
  destruct flags as [|f flags]; simpl.
  - intros [= <-]. by destruct key.
  - destruct key; [done|]. by intros [= <-].
Qed.

Lemma data_any_in_ok flags k d log b s' :
  data_any_in flags k (d, log) = (Ok b, s') →
  s' = (d, log) ∧
  b = match d !! k with
      | Some (VStr s) => existsb (λ i, contains i s) flags
      | _ => false
      end.
Proof.
  rewrite data_any_in_spec. destruct flags as [|i flags].
  - intros [= <- <-]. split; [done|]. by destruct (d !! k) as [[]|].
  - unfold getitem. destruct (d !! k) as [key|]; [|done].
    intros [= Hb <-]. split; [done|].
    change (any_in (i :: flags) key = Ok b) in Hb.
    apply any_in_ok in Hb. by destruct key.
Qed.

Lemma flags_in_data_ok flags k d b :
  flags_in_data flags d k ≫= (λ bs, Ok (any_true bs)) = Ok b →
  b = match d !! k with
      | Some (VStr s) => existsb (λ i, contains i s) flags
      | _ => false
      end.
Proof.
  intros H.
  assert (data_any_in flags k (d, []) = (Ok b, (d, []))) as Hrun
    by (unfold data_any_in; cbn [fst]; by rewrite H).
  by apply data_any_in_ok in Hrun as [_ ?].
Qed.

Lemma solve_edge_ok self lc conc d log d' log' :
  lc ≠ vol_col self → lc ≠ name_col self →
  solve_edge self lc conc (d, log) = (Ok (), (d', log')) →
  ∃ vol, d !! vol_col self = Some (VNum vol) ∧
         d' = <[lc := VNum (edge_conc self d conc * vol)]> d.
Proof.
  intros Hv Hn. unfold solve_edge, edge_conc, treated_edge.
  unfold data_has, data_get, data_num, data_set, warn, when, lift, mbind, M_bind,
    mret, M_ret, getitem, as_num, result_bind. simpl.
  intros H.
  repeat (case_match; simplify_eq/=);
    repeat match goal with
           | H : flags_in_data _ _ _ ≫= _ = Ok _ |- _ =>
               apply flags_in_data_ok in H;
               rewrite ?lookup_insert_ne in H by done
           end;
    repeat match goal with
           | H : _ = match ?x with _ => _ end, H' : ?x = _ |- _ => rewrite H' in H
           end;
    simplify_eq/=;
    try (rewrite lookup_insert_ne in * by done);
    simplify_eq/=;
    try (eexists; split; [done|]); try rewrite insert_insert_eq; try done;
    try congruence.
Qed.

Lemma out_edges_loop_ok body n es : ∀ log es' log',
  out_edges_loop body n es log = (Ok (), (es', log')) →
  Forall2 (λ e e', e_from e' = e_from e ∧ e_to e' = e_to e ∧
             if decide (e_from e = n)
             then ∃ l1 l2, body (e_data e, l1) = (Ok (), (e_data e', l2))
             else e_data e' = e_data e) es es'.
Proof.
  induction es as [|e es IH]; intros log es' log'; simpl.
  - intros [= <- <-]. constructor.
  - destruct (decide (e_from e = n)) as [He|He].
    + destruct (body (e_data e, log)) as [[[]|x] [d l1]] eqn:Hb; [|done].
      destruct (out_edges_loop body n es l1) as [r' [es1 l2]] eqn:Hl.
      intros [= -> <- <-]. constructor; [|by eapply IH].
      simpl. rewrite decide_True by done. eauto.
    + destruct (out_edges_loop body n es log) as [r' [es1 l2]] eqn:Hl.
      intros [= -> <- <-]. constructor; [|by eapply IH].
      by rewrite decide_False.
Qed.

Lemma node_get_ok n k d s v s' :
  node_get n k d s = (Ok v, s') →
  s' = s ∧ v = default d (node_attr (st_G s) n k).
Proof.
  unfold node_get, node_attr. destruct (g_node (st_G s) !! n); [|done].
  by intros [= <- <-].
Qed.

Lemma node_set_ok n k v s u s' :
  node_set n k v s = (Ok u, s') →
  s' = mkState (set_node_attr (st_G s) n k v) (st_warnings s).
Proof. unfold node_set. destruct (g_node (st_G s) !! n); [|done]. by intros [= <-]. Qed.

Lemma lift_ok {S A} (r : result A) (s : S) a s' :
  lift r s = (Ok a, s') → r = Ok a ∧ s' = s.
Proof. by intros [= -> ->]. Qed.

Lemma sum_edges_ok n attr m fk inc exc s v s' :
  sum_edges n attr m fk inc exc s = (Ok v, s') →
  sum_edge_attr (st_G s) n attr m fk inc exc = Ok v ∧ s' = s.
Proof. by intros [= -> ->]. Qed.

Lemma ret_ok {S A} (a : A) (s : S) b s' :
  (mret a : M S A) s = (Ok b, s') → b = a ∧ s' = s.
Proof. by intros [= -> ->]. Qed.

Lemma solve_out_ok self n lc vol_in load_in conc_in s r s' :
  solve_out self n lc vol_in load_in conc_in s = (Ok r, s') →
  g_nodes (st_G s') = g_nodes (st_G s) ∧ g_node (st_G s') = g_node (st_G s) ∧
  out_spec self n lc vol_in load_in conc_in s s' r.
Proof.
  unfold solve_out, out_spec. destruct (bool_decide (0 < load_in)).
  - intros H. apply bind_ok in H as ([] & s1 & Hloop & H).
    apply bind_ok in H as (outfall & s2 & Hof & H).
    apply lift_ok in Hof as [Hof ->]. apply any_in_ok in Hof. subst outfall.
    unfold for_out_edges in Hloop.
    destruct (out_edges_loop _ _ _ _) as [r1 [es log]] eqn:Hl.
    injection Hloop as -> <-. simpl in *.
    destruct (existsb _ _).
    + apply ret_ok in H as [-> ->]. done.
    + apply bind_ok in H as (lo & s3 & H1 & H).
      apply sum_edges_ok in H1 as [H1 ->].
      apply bind_ok in H as (vo & s3 & H2 & H).
      apply sum_edges_ok in H2 as [H2 ->].
      apply bind_ok in H as (vt & s3 & H3 & H).
      apply sum_edges_ok in H3 as [H3 ->].
      apply ret_ok in H as [-> ->]. done.
  - intros H. apply ret_ok in H as [-> ->]. done.
Qed.

Lemma sum_edge_attr_edges G G' n attr m fk inc exc :
  g_edges G' = g_edges G →
  sum_edge_attr G' n attr m fk inc exc = sum_edge_attr G n attr m fk inc exc.
Proof. intros H. unfold sum_edge_attr, select_edges. by rewrite H. Qed.

Lemma out_spec_ext self n lc vol_in load_in conc s1 s1' s2 s2' r :
  g_edges (st_G s2) = g_edges (st_G s1) → st_warnings s2 = st_warnings s1 →
  g_edges (st_G s2') = g_edges (st_G s1') → st_warnings s2' = st_warnings s1' →
  out_spec self n lc vol_in load_in conc s1 s1' r →
  out_spec self n lc vol_in load_in conc s2 s2' r.
Proof.
  intros E1 W1 E2 W2. unfold out_spec.
  rewrite E1, W1, E2, W2, !(sum_edge_attr_edges (st_G s1') (st_G s2')) by done.
  done.
Qed.

Lemma py_div_ok x y q : py_div x y = Ok q → y ≠ 0 ∧ q = x / y.
Proof. unfold py_div. destruct (decide (y = 0)); [done|]. by intros [= <-]. Qed.

Ltac nodup_neqs H :=
  repeat (apply NoDup_cons in H as [? H]);
  repeat match goal with
         | H' : _ ∉ _ :: _ |- _ => apply not_elem_of_cons in H' as [? H']
         end.

Ltac attr_lookup :=
  cbn [st_G];
  repeat (rewrite node_attr_set;
          first [ rewrite decide_True by done
                | rewrite decide_False by (intros [_ ?]; congruence) ]);
  try done.

Lemma solve_load_ok self n vol_in lc s s' :
  NoDup (load_keys lc ++ vol_keys self) →
  solve_load self n vol_in lc s = (Ok (), s') →
  ∃ load_in r, load_spec self n lc vol_in s s' load_in r.
Proof.
  intros Hnd H. unfold solve_load in H.
  apply bind_ok in H as (el & s1 & H1 & H). apply sum_edges_ok in H1 as [Hel ->].
  apply bind_ok in H as (nlv & s1 & H1 & H). apply node_get_ok in H1 as [-> ->].
  apply bind_ok in H as (nl & s1 & H1 & H). apply lift_ok in H1 as [Hnl ->].
  apply bind_ok in H as ([] & s1 & H1 & H). apply node_set_ok in H1 as ->.
  apply bind_ok in H as ([] & s2 & H1 & H). apply node_set_ok in H1 as ->.
  apply bind_ok in H as ([[lo vo] vt] & s3 & Hout & H).
  apply solve_out_ok in Hout as (Hns & Hnode & Hout).
  apply bind_ok in H as ([] & s4 & H1 & H). apply node_set_ok in H1 as ->.
  apply bind_ok in H as ([] & s5 & H1 & H). apply node_set_ok in H1 as ->.
  apply bind_ok in H as ([] & s6 & Hpct & H).
  apply bind_ok in H as ([] & s7 & H1 & H). apply node_set_ok in H1 as ->.
  apply bind_ok in H as ([] & s8 & H1 & H). apply node_set_ok in H1 as ->.
  apply bind_ok in H as (q1 & s9 & H1 & H). apply lift_ok in H1 as [Hq1 ->].
  apply py_div_ok in Hq1 as [Hvol ->].
  apply bind_ok in H as ([] & s9 & H1 & H). apply node_set_ok in H1 as ->.
  apply bind_ok in H as ([] & s10 & H1 & H). apply node_set_ok in H1 as ->.
  apply bind_ok in H as (q2 & s11 & H1 & H). apply lift_ok in H1 as [_ ->].
  apply bind_ok in H as ([] & s11 & H1 & H). apply node_set_ok in H1 as ->.
  apply bind_ok in H as ([] & s12 & H1 & H). apply node_set_ok in H1 as ->.
  apply bind_ok in H as (q3 & s13 & H1 & H). apply lift_ok in H1 as [_ ->].
  apply node_set_ok in H as ->.
  set (load_in := el + nl) in *.
  exists load_in, (lo, vo, vt).
  assert (Hs6 : ∃ g6, s6 = mkState g6 (st_warnings s3) ∧
            g_edges g6 = g_edges (st_G s3) ∧
            (∀ k, k ≠ pct_load_red_col lc →
               node_attr g6 n k =
               node_attr (set_node_attr (set_node_attr (st_G s3) n (load_out_col lc)
                  (VNum lo)) n (load_red_col lc) (VNum (load_in - lo))) n k) ∧
            (0 < load_in → node_attr g6 n (pct_load_red_col lc)
               = Some (VNum (num 100 * ((load_in - lo) / load_in))))).
  { unfold when in Hpct. destruct (bool_decide (0 < load_in)) eqn:Hb.
    - apply bind_ok in Hpct as (q & s' & H1 & H). apply lift_ok in H1 as [Hq ->].
      apply py_div_ok in Hq as [_ ->]. apply node_set_ok in H as ->. simpl.
      eexists. split; [done|]. split; [done|]. split.
      + intros k Hk. rewrite node_attr_set. by rewrite decide_False by (intros [_ ?]; done).
      + intros _. rewrite node_attr_set. by rewrite decide_True.
    - apply ret_ok in Hpct as [_ ->]. simpl. eexists. split; [done|].
      split; [done|]. split; [done|]. apply bool_decide_eq_false in Hb. done. }
  destruct Hs6 as (g6 & -> & Hg6e & Hg6 & Hg6p). simpl in *.
  unfold load_keys, vol_keys in Hnd. simpl in Hnd. nodup_neqs Hnd.
  assert (Hn3 : ∀ k, node_attr (st_G s3) n k =
     node_attr (set_node_attr (set_node_attr (st_G s) n lc (VNum load_in)) n
       (conc_col lc) (VNum (safe_divide load_in vol_in))) n k).
  { intros k. unfold node_attr. by rewrite Hnode. }
  split; [done|]. split; [by exists el, nl|]. split.
  { eapply out_spec_ext; [..|exact Hout]; simpl; try done. }
  repeat split.
  - attr_lookup. rewrite Hg6 by congruence. attr_lookup. rewrite Hn3. attr_lookup.
  - attr_lookup. rewrite Hg6 by congruence. attr_lookup. rewrite Hn3. attr_lookup.
  - attr_lookup. rewrite Hg6 by congruence. attr_lookup.
  - attr_lookup. rewrite Hg6 by congruence. attr_lookup.
  - intros Hpos. attr_lookup. by apply Hg6p.
  - attr_lookup.
  - attr_lookup.
  - attr_lookup.
Qed.

(** ** One node, and the volume after a traversal *)

Global Instance cols_ok_dec self : Decision (cols_ok self).
Proof. unfold cols_ok. apply _. Defined.

Lemma default_config_cols_ok : cols_ok default_config.
Proof. by apply (bool_decide_unpack _); vm_compute. Qed.

Lemma for_each_snoc {S A} (xs : list A) x (body : A → M S ()) s s' :
  for_each (xs ++ [x]) body s = (Ok (), s') →
  ∃ s1, for_each xs body s = (Ok (), s1) ∧ body x s1 = (Ok (), s').
Proof.
  intros H. apply for_each_app in H as (s1 & H1 & H2). exists s1. split; [done|].
  simpl in H2. apply bind_ok in H2 as ([] & s2 & H2 & H3).
  apply ret_ok in H3 as [_ ->]. done.
Qed.

Lemma solve_loads_preserves self n vol_in l :
  preserves (λ n' k, n' = n ∧ k ∈ vol_keys self ++ flat_map load_keys l)
            (λ n' k, n' = n ∧ k ∈ l)
            (for_each l (solve_load self n vol_in)).
Proof.
  apply preserves_for_each. intros lc Hlc.
  eapply preserves_mono; [| |apply solve_load_preserves].
  - intros n' k [-> Hk]. split; [done|]. rewrite elem_of_app in *.
    destruct Hk as [Hk|Hk]; [|by left]. right.
    apply list_elem_of_In, in_flat_map. exists lc. split; by apply list_elem_of_In.
  - by intros n' k [-> ->].
Qed.

Lemma solve_node_ok self n s s' :
  cols_ok self → solve_node self n s = (Ok (), s') →
  ∃ sb vol_in,
    node_spec self n s sb vol_in ∧
    if decide (vol_in = 0) then s' = sb
    else for_each (load_cols self) (solve_load self n vol_in) sb = (Ok (), s').
Proof.
  intros [Hnd _] H. unfold solve_node in H.
  apply bind_ok in H as (nvv & s1 & H1 & H). apply node_get_ok in H1 as [-> ->].
  apply bind_ok in H as (ev & s1 & H1 & H). apply sum_edges_ok in H1 as [Hev ->].
  apply bind_ok in H as (nv & s1 & H1 & H). apply lift_ok in H1 as [Hnv ->].
  apply bind_ok in H as ([] & s1 & H1 & H). apply node_set_ok in H1 as ->.
  apply bind_ok in H as (ckv & s2 & H1 & H). apply node_get_ok in H1 as [-> ->].
  apply bind_ok in H as (ex & s2 & H1 & H). apply lift_ok in H1 as [Hex ->].
  apply bind_ok in H as ([] & s2 & H1 & H). apply node_set_ok in H1 as ->.
  cbn [st_G st_warnings] in *.
  assert (Hk1 : ck_vol_col self ≠ vol_col self ∧ vol_col self ≠ vol_pct_diff_col self).
  { unfold node_keys in Hnd. apply NoDup_cons in Hnd as [H1 Hnd].
    apply NoDup_cons in Hnd as [H2 _].
    rewrite not_elem_of_cons in H1. rewrite not_elem_of_cons in H2. tauto. }
  destruct Hk1 as [Hk1 Hk2].
  rewrite node_attr_set, decide_False in Hex by (intros [_ ?]; congruence).
  assert (Hnvv : default (VNum 0) (node_attr (st_G s) n (vol_col self)) = VNum nv)
    by (destruct (default _ _); by simplify_eq/=).
  rewrite Hnvv in Hex.
  match type of H with _ ?sb = _ => exists sb, (ev + nv) end. split.
  - split; [|split; [|split; [|split]]].
    + exists ev, nv, ex. split; [done|]. split; [by rewrite Hnvv|]. split; [done|].
      split; [done|]. cbn [st_G]. rewrite node_attr_set. by rewrite decide_True.
    + cbn [st_G]. rewrite !node_attr_set. rewrite decide_False by (intros [_ ?]; congruence).
      by rewrite decide_True.
    + done.
    + done.
    + intros k ? ?. cbn [st_G]. rewrite !node_attr_set.
      by rewrite !decide_False by (intros [_ ?]; congruence).
  - unfold when in H. destruct (decide (ev + nv = 0)) as [Hz|Hz].
    + rewrite bool_decide_eq_true_2 in H by done. simpl in H.
      by apply ret_ok in H as [_ ->].
    + rewrite bool_decide_eq_false_2 in H by done. done.
Qed.

Global Instance selects_dec m n e : Decision (selects m n e).
Proof. destruct m; simpl; apply _. Defined.

Lemma select_edges_filter G m n : select_edges G m n = filter (selects m n) (g_edges G).
Proof. by destruct m. Qed.

Lemma sum_edge_step_agree attr fk inc exc val d d' :
  d' !! attr = d !! attr → (∀ k, fk = Some k → d' !! k = d !! k) →
  sum_edge_step attr fk inc exc val d' = sum_edge_step attr fk inc exc val d.
Proof.
  intros Ha Hk. unfold sum_edge_step, add_attr, getitem. rewrite Ha.
  destruct fk as [k|]; [|done]. by rewrite (Hk k).
Qed.

Lemma sum_edge_loop_agree attr fk inc exc es es' : ∀ val,
  Forall2 (λ e e', e_data e' !! attr = e_data e !! attr ∧
                   ∀ k, fk = Some k → e_data e' !! k = e_data e !! k) es es' →
  sum_edge_loop attr fk inc exc val es' = sum_edge_loop attr fk inc exc val es.
Proof.
  intros val H. revert val. induction H as [|e e' es es' [Ha Hk] _ IH]; intros val; [done|].
  cbn [sum_edge_loop]. rewrite (sum_edge_step_agree _ _ _ _ _ _ _ Ha Hk).
  destruct (sum_edge_step _ _ _ _ _ _); simpl; [apply IH|done].
Qed.

Lemma Forall2_filter_selects (P : Edge → Edge → Prop) m n es es' :
  Forall2 (λ e e', e_from e' = e_from e ∧ e_to e' = e_to e ∧ P e e') es es' →
  Forall2 (λ e e', selects m n e ∧ P e e')
    (filter (selects m n) es) (filter (selects m n) es').
Proof.
  induction 1 as [|e e' es es' (Hf & Ht & HP) _ IH]; [constructor|].
  rewrite !filter_cons.
  assert (selects m n e' ↔ selects m n e) as Hsel
    by (unfold selects; destruct m; by rewrite ?Hf, ?Ht).
  destruct (decide (selects m n e)) as [Hs|Hs].
  - rewrite decide_True by (by apply Hsel). by constructor.
  - rewrite decide_False by (by rewrite Hsel). done.
Qed.

(** The sum over the edges selected at [n] only reads the summed
    attribute and the filter attribute of those edges. *)
Lemma sum_edge_attr_frame Wn We G G' n attr m fk inc exc :
  frame Wn We G G' →
  (∀ e, selects m n e → ¬ We (e_from e) attr ∧ ∀ k, fk = Some k → ¬ We (e_from e) k) →
  sum_edge_attr G' n attr m fk inc exc = sum_edge_attr G n attr m fk inc exc.
Proof.
  intros [_ _ _ He] Hsel. rewrite !sum_edge_attr_loop, !select_edges_filter.
  apply sum_edge_loop_agree.
  eapply Forall2_impl.
  - apply (Forall2_filter_selects
             (λ e e', ∀ k, ¬ We (e_from e) k → e_data e' !! k = e_data e !! k)).
    exact He.
  - intros e e' [Hs HP]. destruct (Hsel e Hs) as [H1 H2]. split; [by apply HP|].
    intros k Hk. apply HP. by apply H2.
Qed.

(** The whole traversal changes node attributes and the load columns of
    edges, and nothing else, whether it returns or raises. *)
Lemma solve_preserves self :
  preserves (λ _ _, True) (λ _ k, k ∈ load_cols self) (solve self).
Proof.
  intros s. unfold solve. destruct (topological_sort (st_G s)) as [order fin].
  pose proof (solve_nodes_preserves self order s) as H.
  assert (frame (λ _ _, True) (λ _ k, k ∈ load_cols self) (st_G s)
            (st_G (for_each order (solve_node self) s).2)) as H'.
  { eapply frame_mono; [| |exact H]; [done|]. by intros ? ? [_ ?]. }
  destruct (for_each order (solve_node self) s) as [[[]|e] s1]; [|done].
  by destruct fin.
Qed.

Lemma cols_ok_vol_not_load self : cols_ok self → vol_col self ∉ load_cols self.
Proof. intros [_ H]. apply NoDup_cons in H as [_ H]. by apply NoDup_cons in H as [? _]. Qed.

Lemma cols_ok_name_not_load self : cols_ok self → name_col self ∉ load_cols self.
Proof.
  intros [_ H]. apply NoDup_cons in H as [H _]. rewrite not_elem_of_cons in H. tauto.
Qed.

Lemma cols_ok_vol_not_written self :
  cols_ok self →
  (vol_col self ∉ vol_keys self ++ flat_map load_keys (load_cols self)) ∧
  vol_col self ≠ vol_pct_diff_col self.
Proof.
  intros [H _]. unfold node_keys in H. apply NoDup_cons in H as [_ H].
  apply NoDup_cons in H as [H _]. rewrite not_elem_of_cons in H. tauto.
Qed.

(** After a successful traversal every node holds, as its volume, the sum
    of the volumes of its in-edges plus the volume it held before; the
    volumes of the edges are as before. *)
Lemma solve_volume self s s' n :
  wf_graph (st_G s) → cols_ok self → solve self s = (Ok (), s') →
  n ∈ g_nodes (st_G s) →
  ∃ edge_vol node_vol,
    sum_edge_attr (st_G s) n (vol_col self) M_in_edges None None None = Ok edge_vol ∧
    as_num (default (VNum 0) (node_attr (st_G s) n (vol_col self))) = Ok node_vol ∧
    node_attr (st_G s') n (vol_col self) = Some (VNum (edge_vol + node_vol)) ∧
    sum_edge_attr (st_G s') n (vol_col self) M_in_edges None None None = Ok edge_vol.
Proof.
  intros Hwf Hcols Hs Hn.
  destruct (solve_sandwich _ _ _ _ Hwf Hs Hn) as (s0 & s1 & F0 & Hnode & F1).
  destruct (solve_node_ok _ _ _ _ Hcols Hnode) as (sb & vol_in & Hspec & Hrest).
  destruct Hspec as ((ev & nv & ex & Hev & Hnv & -> & _) & Hvol & _).
  pose proof (cols_ok_vol_not_load _ Hcols) as Hvl.
  pose proof (cols_ok_vol_not_written _ Hcols) as [Hvw _].
  exists ev, nv.
  rewrite (sum_edge_attr_frame _ _ _ _ n (vol_col self) M_in_edges None None None F0)
    in Hev by (intros e _; split; [tauto|done]).
  rewrite (fr_node _ _ _ _ F0) in Hnv by (intros ?; done).
  split; [done|]. split; [done|]. split.
  - rewrite (fr_node _ _ _ _ F1) by (intros ?; done).
    destruct (decide (ev + nv = 0)) as [Hz|Hz]; [by subst|].
    pose proof (solve_loads_preserves self n (ev + nv) (load_cols self) sb) as F.
    rewrite Hrest in F. simpl in F. rewrite (fr_node _ _ _ _ F); [done|]. by intros [_ ?].
  - pose proof (solve_preserves self s) as F. rewrite Hs in F. simpl in F.
    rewrite (sum_edge_attr_frame _ _ _ _ n (vol_col self) M_in_edges None None None F);
      [done|]. intros e _. split; [done|done].
Qed.

(** Claim C9, as amended.  [solve] is not idempotent on the volume of a
    node: when two calls in a row both return, the second one stores at
    every node the sum of the volumes of the in-edges plus the volume
    stored by the first. *)
Theorem solve_twice_adds_inflow self s s1 s2 n inflow :
  wf_graph (st_G s) → cols_ok self →
  solve self s = (Ok (), s1) → solve self s1 = (Ok (), s2) →
  n ∈ g_nodes (st_G s) →
  sum_edge_attr (st_G s) n (vol_col self) M_in_edges None None None = Ok inflow →
  ∃ v1,
    node_attr (st_G s1) n (vol_col self) = Some (VNum v1) ∧
    node_attr (st_G s2) n (vol_col self) = Some (VNum (inflow + v1)).
Proof.
  intros Hwf Hcols H1 H2 Hn Htot.
  destruct (solve_volume _ _ _ _ Hwf Hcols H1 Hn) as (ev & nv & Hev & Hnv & Hv1 & Hev1).
  assert (ev = inflow) as -> by congruence.
  pose proof (solve_preserves self s) as F. rewrite H1 in F. simpl in F.
  assert (wf_graph (st_G s1)) as Hwf1 by (by eapply frame_wf).
  assert (n ∈ g_nodes (st_G s1)) as Hn1 by (by rewrite (fr_nodes _ _ _ _ F)).
  destruct (solve_volume _ _ _ _ Hwf1 Hcols H2 Hn1) as (ev' & nv' & Hev' & Hnv' & Hv2 & _).
  assert (ev' = inflow) as -> by congruence.
  rewrite Hv1 in Hnv'. simpl in Hnv'. injection Hnv' as <-.
  by eexists.
Qed.

(** ** The attributes left by a successful traversal *)

Lemma edge_conc_insert self lc v d conc :
  lc ≠ name_col self → edge_conc self (<[lc := v]> d) conc = edge_conc self d conc.
Proof.
  intros H. unfold edge_conc, treated_edge. by rewrite lookup_insert_ne.
Qed.

Lemma edge_conc_agree self d d' conc :
  d' !! name_col self = d !! name_col self →
  edge_conc self d' conc = edge_conc self d conc.
Proof. intros H. unfold edge_conc, treated_edge. by rewrite H. Qed.

(** After the loop over the out-edges, each of them carries the load
    [edge_conc * volume]. *)
Lemma out_spec_edges self n lc vol_in load_in conc sa sb r e :
  lc ≠ vol_col self → lc ≠ name_col self →
  out_spec self n lc vol_in load_in conc sa sb r → 0 < load_in →
  e ∈ g_edges (st_G sb) → e_from e = n →
  ∃ vol, e_data e !! vol_col self = Some (VNum vol) ∧
         e_data e !! lc = Some (VNum (edge_conc self (e_data e) conc * vol)).
Proof.
  intros Hv Hn Hout Hpos He Hfrom. unfold out_spec in Hout.
  rewrite bool_decide_eq_true_2 in Hout by done. destruct Hout as [Hloop _].
  apply out_edges_loop_ok in Hloop.
  apply list_elem_of_lookup in He as [i Hi].
  destruct (Forall2_lookup_r _ _ _ _ _ Hloop Hi) as (e0 & _ & Hf & _ & Hbody).
  rewrite decide_True in Hbody by congruence.
  destruct Hbody as (l1 & l2 & Hbody).
  apply solve_edge_ok in Hbody as (vol & Hvol & Hd); [|done..].
  exists vol. rewrite Hd. rewrite edge_conc_insert by done.
  rewrite lookup_insert_ne by done. rewrite lookup_insert_eq. done.
Qed.

Lemma cols_ok_load self l1 lc l2 :
  cols_ok self → load_cols self = l1 ++ lc :: l2 →
  NoDup (load_keys lc ++ vol_keys self) ∧
  lc ≠ vol_col self ∧ lc ≠ name_col self ∧ (lc ∉ l1) ∧ (lc ∉ l2) ∧
  (∀ k, k ∈ load_keys lc → k ∉ vol_keys self ++ flat_map load_keys l2) ∧
  (∀ k, k ∈ vol_keys self →
        k ≠ vol_col self ∧ k ≠ vol_pct_diff_col self ∧ k ≠ ck_vol_col self).
Proof.
  intros [Hk He] Hl. rewrite Hl in He. unfold node_keys in Hk. rewrite Hl in Hk.
  rewrite flat_map_app in Hk.
  change (flat_map load_keys (lc :: l2))
    with (load_keys lc ++ flat_map load_keys l2) in Hk.
  apply NoDup_cons in He as [Hname He]. apply NoDup_cons in He as [Hvol He].
  apply NoDup_app in He as (_ & Hl1 & He). apply NoDup_cons in He as [Hl2 _].
  rewrite not_elem_of_cons, not_elem_of_app, not_elem_of_cons in Hname.
  rewrite not_elem_of_app, not_elem_of_cons in Hvol.
  apply NoDup_cons in Hk as [Hck Hk]. apply NoDup_cons in Hk as [Hv Hk].
  apply NoDup_cons in Hk as [Hpd Hk].
  apply NoDup_app in Hk as (Hvk & Hdisj & Hk).
  apply NoDup_app in Hk as (_ & _ & Hk).
  apply NoDup_app in Hk as (Hlk & Hdisj2 & _).
  split; [|split; [|split; [|split; [|split; [|split]]]]].
  - apply NoDup_app. split; [done|]. split; [|done].
    intros k Hk1 Hk2. apply (Hdisj k Hk2). rewrite !elem_of_app. right. by left.
  - destruct Hvol as (_ & ? & _). congruence.
  - destruct Hname as (_ & _ & ? & _). congruence.
  - intros Hin. apply (Hl1 lc Hin). left.
  - done.
  - intros k Hk1. rewrite not_elem_of_app. split.
    + intros Hk2. apply (Hdisj k Hk2). rewrite !elem_of_app. right. by left.
    + by apply Hdisj2.
  - intros k Hk1. rewrite !not_elem_of_cons, !not_elem_of_app in *.
    split; [|split]; intros ->; tauto.
Qed.

Lemma solve_load_iteration self n vol_in s s' l1 lc l2 :
  cols_ok self → load_cols self = l1 ++ lc :: l2 →
  for_each (load_cols self) (solve_load self n vol_in) s = (Ok (), s') →
  ∃ sa sb load_in r,
    load_spec self n lc vol_in sa sb load_in r ∧
    frame (λ n' k, n' = n ∧ k ∈ vol_keys self ++ flat_map load_keys l2)
          (λ n' k, n' = n ∧ k ∈ l2) (st_G sb) (st_G s').
Proof.
  intros Hcols Hl Hrun. rewrite Hl in Hrun.
  apply for_each_app in Hrun as (sa & _ & Hrun). simpl in Hrun.
  apply bind_ok in Hrun as ([] & sb & Hlc & Hrun).
  destruct (cols_ok_load _ _ _ _ Hcols Hl) as (Hnd & _).
  apply solve_load_ok in Hlc as (load_in & r & Hspec); [|done].
  exists sa, sb, load_in, r. split; [done|].
  pose proof (solve_loads_preserves self n vol_in l2 sb) as F.
  by rewrite Hrun in F.
Qed.

(** A node that ends a successful traversal with a non-zero volume has
    gone through the loop over the load columns; the later iterations of
    the loop over the nodes leave it and its out-edges alone. *)
Lemma solve_final_node self s s' n vol_in :
  wf_graph (st_G s) → cols_ok self → solve self s = (Ok (), s') →
  n ∈ g_nodes (st_G s) →
  node_attr (st_G s') n (vol_col self) = Some (VNum vol_in) → vol_in ≠ 0 →
  ∃ sb s1,
    for_each (load_cols self) (solve_load self n vol_in) sb = (Ok (), s1) ∧
    frame (λ n' _, n' ≠ n) (λ n' k, n' ≠ n ∧ k ∈ load_cols self) (st_G s1) (st_G s').
Proof.
  intros Hwf Hcols Hs Hn Hvol Hnz.
  destruct (solve_sandwich _ _ _ _ Hwf Hs Hn) as (s0 & s1 & F0 & Hnode & F1).
  destruct (solve_node_ok _ _ _ _ Hcols Hnode) as (sb & vol_in' & Hspec & Hrest).
  destruct Hspec as (_ & Hvol' & _).
  pose proof (cols_ok_vol_not_written _ Hcols) as [Hvw _].
  assert (vol_in' = vol_in) as ->.
  { rewrite (fr_node _ _ _ _ F1) in Hvol by (intros ?; done).
    destruct (decide (vol_in' = 0)) as [Hz|Hz]; [subst; congruence|].
    pose proof (solve_loads_preserves self n vol_in' (load_cols self) sb) as F.
    rewrite Hrest in F. simpl in F.
    rewrite (fr_node _ _ _ _ F) in Hvol by (by intros [_ ?]). congruence. }
  rewrite decide_False in Hrest by done. by exists sb, s1.
Qed.

Lemma safe_divide_nz x y : y ≠ 0 → safe_divide x y = x / y.
Proof. intros. unfold safe_divide. by rewrite decide_False. Qed.

(** The attributes of one load column at a node, and on its out-edges,
    after a successful traversal. *)
Lemma solve_final_load self s s' n lc vol_in :
  wf_graph (st_G s) → cols_ok self → solve self s = (Ok (), s') →
  n ∈ g_nodes (st_G s) → lc ∈ load_cols self →
  node_attr (st_G s') n (vol_col self) = Some (VNum vol_in) → vol_in ≠ 0 →
  ∃ load_in lo,
    node_attr (st_G s') n lc = Some (VNum load_in) ∧
    node_attr (st_G s') n (conc_col lc) = Some (VNum (load_in / vol_in)) ∧
    node_attr (st_G s') n (load_out_col lc) = Some (VNum lo) ∧
    node_attr (st_G s') n (load_red_col lc) = Some (VNum (load_in - lo)) ∧
    if bool_decide (0 < load_in) then
      (∀ e, e ∈ g_edges (st_G s') → e_from e = n →
         ∃ vol, e_data e !! vol_col self = Some (VNum vol) ∧
                e_data e !! lc
                  = Some (VNum (edge_conc self (e_data e) (load_in / vol_in) * vol))) ∧
      (if outfall_node self n then lo = load_in
       else sum_edge_attr (st_G s') n lc M_out_edges None None None = Ok lo)
    else lo = load_in.
Proof.
  intros Hwf Hcols Hs Hn Hlc Hvol Hnz.
  destruct (solve_final_node _ _ _ _ _ Hwf Hcols Hs Hn Hvol Hnz) as (sb0 & s1 & Hrun & F1).
  apply list_elem_of_split in Hlc as (l1 & l2 & Hl).
  destruct (solve_load_iteration _ _ _ _ _ _ _ _ Hcols Hl Hrun)
    as (sa & sb & load_in & r & Hspec & F2).
  destruct (cols_ok_load _ _ _ _ Hcols Hl) as (_ & Hlv & Hln & _ & Hl2 & Hkeys & _).
  destruct Hspec as (_ & _ & Hout & A1 & A2 & A3 & A4 & _).
  assert (F : frame (λ n' k, n' = n → k ∈ vol_keys self ++ flat_map load_keys l2)
                    (λ n' k, n' = n → k ∈ l2) (st_G sb) (st_G s')).
  { eapply frame_trans; (eapply frame_mono; [| |done]); simpl; tauto. }
  assert (Hload : ∀ k, k ∈ load_keys lc →
            node_attr (st_G s') n k = node_attr (st_G sb) n k).
  { intros k Hk. apply (fr_node _ _ _ _ F). intros H. by apply (Hkeys k Hk), H. }
  exists load_in, r.1.1.
  rewrite !Hload by (unfold load_keys; set_solver).
  rewrite safe_divide_nz in * by done.
  split; [done|]. split; [done|]. split; [done|]. split; [done|].
  unfold out_spec in Hout. destruct (bool_decide (0 < load_in)) eqn:Hpos.
  - apply bool_decide_eq_true in Hpos. split.
    + intros e He Hfrom. apply list_elem_of_lookup in He as [i Hi].
      destruct (Forall2_lookup_r _ _ _ _ _ (fr_edges _ _ _ _ F) Hi)
        as (eb & Hib & Hf & _ & Hk).
      assert (e_from eb = n) as Hfb by congruence.
      destruct (out_spec_edges self n lc vol_in load_in (load_in / vol_in) sa sb r eb)
        as (vol & Hv & Hl'); try done.
      { unfold out_spec. by rewrite bool_decide_eq_true_2. }
      { by eapply list_elem_of_lookup_2. }
      assert (Hnot : ∀ k, k ∉ l2 → e_data e !! k = e_data eb !! k).
      { intros k Hk2. apply Hk. intros H. by apply Hk2, H. }
      pose proof (cols_ok_vol_not_load _ Hcols) as Hvl.
      pose proof (cols_ok_name_not_load _ Hcols) as Hnl.
      rewrite Hl, not_elem_of_app, not_elem_of_cons in Hvl, Hnl.
      exists vol. rewrite !Hnot by tauto.
      rewrite (edge_conc_agree self (e_data eb) (e_data e)) by (apply Hnot; tauto).
      done.
    + destruct Hout as [_ Hout]. unfold outfall_node.
      destruct (existsb _ _); [by subst r|]. destruct Hout as (Hlo & _).
      rewrite (sum_edge_attr_frame _ _ _ _ n lc M_out_edges None None None F); [done|].
      intros e He. simpl in He. split; [|done]. intros H. by apply Hl2, H.
  - destruct Hout as [_ ->]. done.
Qed.

(** The volume attributes at a node after a successful traversal: those
    of the iteration for the last load column. *)
Lemma solve_final_vol self s s' n vol_in l lc :
  wf_graph (st_G s) → cols_ok self → solve self s = (Ok (), s') →
  n ∈ g_nodes (st_G s) → load_cols self = l ++ [lc] →
  node_attr (st_G s') n (vol_col self) = Some (VNum vol_in) → vol_in ≠ 0 →
  ∃ load_in vo vt,
    node_attr (st_G s') n lc = Some (VNum load_in) ∧
    node_attr (st_G s') n (vol_out_col self) = Some (VNum vo) ∧
    node_attr (st_G s') n (vol_red_col self) = Some (VNum (vol_in - vo)) ∧
    node_attr (st_G s') n (vol_tmnt_col self) = Some (VNum vt) ∧
    if bool_decide (0 < load_in) && negb (outfall_node self n) then
      sum_edge_attr (st_G s') n (vol_col self) M_out_edges
        (Some (name_col self)) None (Some (vol_reduced_flags self)) = Ok vo ∧
      sum_edge_attr (st_G s') n (vol_col self) M_out_edges
        (Some (name_col self)) (Some (treated_flags self)) None = Ok vt
    else vo = vol_in ∧ vt = 0.
Proof.
  intros Hwf Hcols Hs Hn Hl Hvol Hnz.
  destruct (solve_final_node _ _ _ _ _ Hwf Hcols Hs Hn Hvol Hnz) as (sb0 & s1 & Hrun & F1).
  rewrite Hl in Hrun. apply for_each_snoc in Hrun as (sa & _ & Hlc).
  destruct (cols_ok_load _ _ _ _ Hcols Hl) as (Hnd & _).
  apply solve_load_ok in Hlc as (load_in & r & Hspec); [|done].
  destruct Hspec as (_ & _ & Hout & A1 & _ & _ & _ & _ & A2 & A3 & A4).
  exists load_in, r.1.2, r.2.
  rewrite !(fr_node _ _ _ _ F1) by (intros ?; done).
  split; [done|]. split; [done|]. split; [done|]. split; [done|].
  unfold out_spec in Hout. unfold outfall_node.
  destruct (bool_decide (0 < load_in)); simpl.
  - destruct Hout as [_ Hout]. destruct (existsb _ _); simpl; [by subst r|].
    destruct Hout as (_ & H1 & H2).
    rewrite !(sum_edge_attr_frame _ _ _ _ n (vol_col self) M_out_edges _ _ _ F1);
      [done| |]; intros e He; simpl in He; (split; [tauto|intros k _; tauto]).
  - destruct Hout as [_ ->]. done.
Qed.

(** Claim C5, as amended.  After a successful traversal, a node whose
    identity contains an outfall flag and whose inflow volume is not zero
    has [load_out] equal to [load_in] for every load column, [vol_out]
    equal to [vol_in] and [vol_treated] equal to 0, whatever its out-edges
    are. *)
Theorem outfall_terminal self s s' n vol_in lc :
  wf_graph (st_G s) → cols_ok self → solve self s = (Ok (), s') →
  n ∈ g_nodes (st_G s) → outfall_node self n = true →
  node_attr (st_G s') n (vol_col self) = Some (VNum vol_in) → vol_in ≠ 0 →
  lc ∈ load_cols self →
  (∃ load_in, node_attr (st_G s') n lc = Some (VNum load_in) ∧
              node_attr (st_G s') n (load_out_col lc) = Some (VNum load_in)) ∧
  node_attr (st_G s') n (vol_out_col self) = Some (VNum vol_in) ∧
  node_attr (st_G s') n (vol_tmnt_col self) = Some (VNum 0).
Proof.
  intros Hwf Hcols Hs Hn Hof Hvol Hnz Hlc. split.
  - destruct (solve_final_load _ _ _ _ _ _ Hwf Hcols Hs Hn Hlc Hvol Hnz)
      as (load_in & lo & A1 & _ & A3 & _ & Hlo).
    exists load_in. split; [done|]. rewrite A3. do 2 f_equal.
    destruct (bool_decide (0 < load_in)); [|done].
    destruct Hlo as [_ Hlo]. by rewrite Hof in Hlo.
  - destruct (load_cols self) as [|c cs] eqn:Hcs using rev_ind;
      [by apply elem_of_nil in Hlc|]. clear IHcs.
    destruct (solve_final_vol _ _ _ _ _ _ _ Hwf Hcols Hs Hn Hcs Hvol Hnz)
      as (load_in & vo & vt & _ & B1 & _ & B2 & Hv).
    rewrite Hof, andb_false_r in Hv. destruct Hv as [-> ->]. done.
Qed.

(** ** Treatment and conservation *)

Lemma any_in_str flags id : any_in flags (VStr id) = Ok (matches flags id).
Proof. by destruct flags. Qed.

Lemma edge_conc_treated self d conc id :
  treated self = true → d !! name_col self = Some (VStr id) →
  matches (treated_flags self) id = true →
  edge_conc self d conc = (1 - Q2Qc (7 # 10)) * conc.
Proof.
  intros Ht Hid Hm. unfold edge_conc, treated_edge. rewrite Ht, Hid. simpl.
  unfold matches in Hm. by rewrite Hm.
Qed.


Lemma solve_edge_node self s s' e :
  wf_graph (st_G s) → solve self s = (Ok (), s') → e ∈ g_edges (st_G s') →
  e_from e ∈ g_nodes (st_G s).
Proof.
  intros Hwf Hs He. pose proof (solve_preserves self s) as F. rewrite Hs in F.
  simpl in F. rewrite <- (fr_nodes _ _ _ _ F).
  by apply (frame_wf _ _ _ _ F Hwf).
Qed.

(** Claim C1, as amended.  After a successful traversal with treatment
    enabled, an edge whose identifier contains a treated flag, leaving a node
    with non-zero inflow volume and positive inflow load, carries the load
    [(1 - 0.7) * conc_in * edge_volume], where [conc_in = load_in / vol_in]
    is the concentration stored at the node.  The efficiency 0.7 is a
    constant of the code. *)
Theorem treated_edge_load self s s' e lc id vol_in load_in :
  wf_graph (st_G s) → cols_ok self → solve self s = (Ok (), s') →
  treated self = true → e ∈ g_edges (st_G s') → lc ∈ load_cols self →
  e_data e !! name_col self = Some (VStr id) →
  matches (treated_flags self) id = true →
  node_attr (st_G s') (e_from e) (vol_col self) = Some (VNum vol_in) → vol_in ≠ 0 →
  node_attr (st_G s') (e_from e) lc = Some (VNum load_in) → 0 < load_in →
  ∃ conc_in edge_volume,
    node_attr (st_G s') (e_from e) (conc_col lc) = Some (VNum conc_in) ∧
    conc_in = load_in / vol_in ∧
    e_data e !! vol_col self = Some (VNum edge_volume) ∧
    e_data e !! lc = Some (VNum ((1 - Q2Qc (7 # 10)) * conc_in * edge_volume)).
Proof.
  intros Hwf Hcols Hs Ht He Hlc Hid Hm Hvol Hnz Hload Hpos.
  pose proof (solve_edge_node _ _ _ _ Hwf Hs He) as Hn.
  destruct (solve_final_load _ _ _ _ _ _ Hwf Hcols Hs Hn Hlc Hvol Hnz)
    as (load_in' & lo & A1 & A2 & _ & _ & Hedges).
  assert (load_in' = load_in) as -> by congruence.
  rewrite bool_decide_eq_true_2 in Hedges by done. destruct Hedges as [Hedges _].
  destruct (Hedges e He eq_refl) as (vol & Hv & Hl).
  rewrite (edge_conc_treated self _ _ id) in Hl by done.
  by exists (load_in / vol_in), vol.
Qed.




(** ** Concrete runs *)

Lemma wf_graphb_true G : wf_graphb G = true → wf_graph G.
Proof.
  unfold wf_graphb. rewrite !andb_true_iff, !bool_decide_eq_true, forallb_forall.
  intros [[Hnd Hdom] He]. split; [done|]. split.
  - intros n. rewrite <- elem_of_dom, Hdom, elem_of_list_to_set. done.
  - intros e Hin. apply list_elem_of_In, He in Hin.
    by rewrite andb_true_iff, !bool_decide_eq_true in Hin.
Qed.

Lemma solve_run self s :
  is_ok (solve self s).1 = true → solve self s = (Ok (), (solve self s).2).
Proof. destruct (solve self s) as [[[]|e] s']; simpl; [done|discriminate]. Qed.

(** Claim C2 (not met by the code).  The report of an overwritten edge load
    divides by the load the edge carried; on [G_zero_load], where that load
    is 0, the division is not guarded and [solve] raises
    [ZeroDivisionError]. *)
Theorem overwrite_report_divides_by_zero :
  (solve default_config (initial Examples.G_zero_load)).1 = Raise ZeroDivisionError.
Proof. by vm_compute. Qed.

(** Claim C6 (not met by the code).  On [G_preset] the overwrite of the
    zero load on edge [B -> C] aborts the traversal with
    [ZeroDivisionError]: no warning has been issued, the edge keeps its
    load of 0 and node [C] is not processed. *)
Theorem overwrite_of_zero_load_aborts :
  let s' := final default_config G_preset in
  (solve default_config (initial G_preset)).1 = Raise ZeroDivisionError ∧
  st_warnings s' = [] ∧
  edge_data (st_G s') 1 !! "load" = Some (VNum 0) ∧
  node_attr (st_G s') "C" "volume" = None.
Proof. by vm_compute. Qed.

Ltac decide_by_computation := apply (bool_decide_unpack _); vm_compute; exact I.

(** C1, as stated, fails: the stored load is [0.3 * conc_in * volume]
    whatever efficiency one has in mind; there is no such setting. *)
Lemma removal_efficiency_is_fixed :
  let s' := final default_config Scenario.G in
  let data := edge_data (st_G s') 1 in
  ∃ conc_in edge_volume,
    treated default_config = true ∧
    data !! "id" = Some (VStr "P2-TR") ∧
    matches (treated_flags default_config) "P2-TR" = true ∧
    node_attr (st_G s') "B" "load_conc" = Some (VNum conc_in) ∧
    data !! "volume" = Some (VNum edge_volume) ∧
    ¬ ∀ removal_efficiency : Qc,
        0 ≤ removal_efficiency → removal_efficiency ≤ 1 →
        data !! "load" = Some (VNum ((1 - removal_efficiency) * conc_in * edge_volume)).
Proof.
  exists (Q2Qc (1 # 10)), (num 100).
  split; [done|]. split; [by vm_compute|]. split; [done|].
  split; [decide_by_computation|]. split; [decide_by_computation|].
  intros H. specialize (H (Q2Qc (1 # 2))).
  assert (data_load : edge_data (st_G (final default_config Scenario.G)) 1 !! "load"
            ≠ Some (VNum ((1 - Q2Qc (1 # 2)) * Q2Qc (1 # 10) * num 100)))
    by decide_by_computation.
  apply data_load, H; by vm_compute.
Qed.


(** C5, as stated, fails: an outfall without inflow gets none of the
    three attributes. *)
Lemma dry_outfall_stores_nothing :
  let s' := final default_config Examples.G_dry_outfall in
  (solve default_config (initial Examples.G_dry_outfall)).1 = Ok () ∧
  outfall_node default_config "OF1" = true ∧
  node_attr (st_G s') "OF1" "load_out" = None ∧
  node_attr (st_G s') "OF1" "volume_out" = None ∧
  node_attr (st_G s') "OF1" "volume_treated" = None.
Proof. by vm_compute. Qed.


(** C9, as stated, fails: on [G_dry_link] the first traversal returns and
    leaves a load of 0 on the link without volume, on which the report of
    the second traversal divides by zero.  Node [B], whose in-edge carries
    a positive volume, is not reached by the second traversal and keeps the
    volume of the first. *)
Lemma second_solve_can_abort :
  let s1 := final default_config G_dry_link in
  let s2 := (solve default_config s1).2 in
  (solve default_config (initial G_dry_link)).1 = Ok () ∧
  (solve default_config s1).1 = Raise ZeroDivisionError ∧
  sum_edge_attr G_dry_link "B" "volume" M_in_edges None None None = Ok (num 100) ∧
  0 < num 100 ∧
  node_attr (st_G s1) "B" "volume" = Some (VNum (num 100)) ∧
  node_attr (st_G s2) "B" "volume" = Some (VNum (num 100)) ∧
  ¬ ∃ v1 v2, node_attr (st_G s1) "B" "volume" = Some (VNum v1) ∧
             node_attr (st_G s2) "B" "volume" = Some (VNum v2) ∧ v1 < v2.
Proof.
  assert (H1 : node_attr (st_G (final default_config G_dry_link)) "B" "volume"
               = Some (VNum (num 100))) by decide_by_computation.
  assert (H2 : node_attr (st_G (solve default_config (final default_config G_dry_link)).2)
                 "B" "volume" = Some (VNum (num 100))) by decide_by_computation.
  split; [by vm_compute|]. split; [by vm_compute|].
  split; [decide_by_computation|]. split; [done|].
  split; [exact H1|]. split; [exact H2|].
  intros (v1 & v2 & E1 & E2 & Hlt). cbv zeta in *.
  rewrite H1 in E1. rewrite H2 in E2.
  injection E1 as <-. injection E2 as <-.
  exact (Qcle_not_lt _ _ (Qcle_refl _) Hlt).
Qed.

Lemma G_cycle_has_cycle : has_cycle Examples.G_cycle.
Proof.
  assert (E : ∀ i e, g_edges Examples.G_cycle !! i = Some e →
                edge_rel Examples.G_cycle (e_from e) (e_to e)).
  { intros i e Hi. exists e. split; [by eapply list_elem_of_lookup_2|done]. }
  exists "B". eapply tc_l; [|apply tc_once].
  - exact (E 1%nat _ eq_refl).
  - exact (E 2%nat _ eq_refl).
Qed.

(** ** The theorems at work on the scenario *)

Ltac run_ok := apply solve_run; vm_compute; reflexivity.
Ltac graph_ok := apply wf_graphb_true; vm_compute; reflexivity.

(** The scenario of the specification, edge [B -> OF1]: the theorem for C1
    applies. *)
Lemma treated_edge_load_scenario :
  let s' := final default_config Scenario.G in
  let e := treated_edge_after in
  ∃ conc_in edge_volume,
    node_attr (st_G s') (e_from e) (conc_col "load") = Some (VNum conc_in) ∧
    conc_in = num 10 / num 100 ∧
    e_data e !! vol_col default_config = Some (VNum edge_volume) ∧
    e_data e !! "load" = Some (VNum ((1 - Q2Qc (7 # 10)) * conc_in * edge_volume)).
Proof.
  refine (treated_edge_load default_config (initial Scenario.G)
            (final default_config Scenario.G) treated_edge_after "load" "P2-TR"
            (num 100) (num 10) _ default_config_cols_ok _ eq_refl _ _ _ eq_refl _ _ _ _).
  - graph_ok.
  - run_ok.
  - decide_by_computation.
  - decide_by_computation.
  - decide_by_computation.
  - decide_by_computation.
  - decide_by_computation.
  - decide_by_computation.
  - decide_by_computation.
Defined.

(** The scenario, outfall [OF1]: the theorem for C5 applies. *)
Lemma outfall_terminal_scenario :
  let s' := final default_config Scenario.G in
  (∃ load_in, node_attr (st_G s') "OF1" "load" = Some (VNum load_in) ∧
              node_attr (st_G s') "OF1" (load_out_col "load") = Some (VNum load_in)) ∧
  node_attr (st_G s') "OF1" (vol_out_col default_config) = Some (VNum (num 100)) ∧
  node_attr (st_G s') "OF1" (vol_tmnt_col default_config) = Some (VNum 0).
Proof.
  refine (outfall_terminal default_config (initial Scenario.G)
            (final default_config Scenario.G) "OF1" (num 100) "load"
            _ default_config_cols_ok _ _ eq_refl _ _ _).
  - graph_ok.
  - run_ok.
  - decide_by_computation.
  - decide_by_computation.
  - decide_by_computation.
  - decide_by_computation.
Defined.


(** The scenario solved twice, node [B]: the theorem for C9 applies. *)
Lemma solve_twice_scenario :
  let s1 := final default_config Scenario.G in
  let s2 := (solve default_config s1).2 in
  ∃ v1,
    node_attr (st_G s1) "B" (vol_col default_config) = Some (VNum v1) ∧
    node_attr (st_G s2) "B" (vol_col default_config) = Some (VNum (num 100 + v1)).
Proof.
  refine (solve_twice_adds_inflow default_config (initial Scenario.G)
            (final default_config Scenario.G)
            (solve default_config (final default_config Scenario.G)).2
            "B" (num 100) _ default_config_cols_ok _ _ _ _).
  - graph_ok.
  - run_ok.
  - run_ok.
  - decide_by_computation.
  - decide_by_computation.
Defined.

(** A node without in-edges: the first part of the theorem for C8
    applies. *)
Lemma sum_edge_attr_no_edges :
  sum_edge_attr Scenario.G "A" "volume" M_in_edges
    (Some "id") (Some ["TR"]) (Some ["INF"]) = Ok 0.
Proof.
  refine (proj1 (sum_edge_attr_exclude Scenario.G "A" "volume" M_in_edges "id" [] [])
            _ (Some "id") (Some ["TR"]) (Some ["INF"])).
  reflexivity.
Defined.

(** An edge without identifier: the theorem for C10 applies, also when no
    flag list is given. *)
Lemma sum_edge_attr_no_id :
  is_ok (sum_edge_attr Examples.G_no_id "B" "volume" M_in_edges (Some "id") None None)
    = false.
Proof.
  refine (sum_edge_attr_filter_key_required Examples.G_no_id "B" "volume" M_in_edges
            "id" None None (mkEdge "A" "B" (attrs [("volume", VNum (num 100))])) _ _).
  - decide_by_computation.
  - reflexivity.
Defined.

(** ** A graph with a cycle *)

Lemma frame_node_map Wn We G G' n :
  frame Wn We G G' → (∀ k, ¬ Wn n k) → g_node G' !! n = g_node G !! n.
Proof.
  intros [_ Hdom Hnode _] HW.
  pose proof (Hdom n) as Hd.
  assert (Hk : ∀ k, node_attr G' n k = node_attr G n k) by (intros k; by apply Hnode).
  unfold node_attr in Hk.
  destruct (g_node G' !! n) as [a'|], (g_node G !! n) as [a|]; simpl in *.
  - f_equal. apply map_eq. intros k. apply Hk.
  - destruct Hd as [Hd _]. by destruct Hd.
  - destruct Hd as [_ Hd]. by destruct Hd.
  - done.
Qed.

Lemma frame_out_edges Wn We G G' n :
  frame Wn We G G' → (∀ k, ¬ We n k) →
  select_edges G' M_out_edges n = select_edges G M_out_edges n.
Proof.
  intros [_ _ _ He] HW. simpl.
  induction He as [|e e' es es' (Hf & Ht & Hk) _ IH]; [done|].
  rewrite !filter_cons, IH. rewrite Hf.
  destruct (decide (e_from e = n)) as [Hn|Hn]; [|done].
  f_equal. destruct e as [f t d], e' as [f' t' d']. simpl in *. subst.
  f_equal. apply map_eq. intros k. by apply Hk.
Qed.

Lemma topo_ancestors G ys c n :
  topo G ys → rtc (edge_rel G) c n → n ∈ ys → c ∈ ys.
Proof.
  intros Ht Hr. induction Hr as [|c m n Hcm _ IH]; [done|].
  intros Hn. eapply topo_pred; eauto.
Qed.

(** Property X25.  On a graph with a cycle [solve] raises, and the
    attribute dictionaries of every node on a cycle or downstream of one,
    and the out-edges of such a node, are as before the call.  This holds
    whether the sort raises before the loop starts or after the nodes
    upstream of the cycle have been yielded. *)
Theorem cycle_raises self s :
  wf_graph (st_G s) → has_cycle (st_G s) →
  (∃ e, (solve self s).1 = Raise e) ∧
  ∀ c n, tc (edge_rel (st_G s)) c c → rtc (edge_rel (st_G s)) c n →
    g_node (st_G (solve self s).2) !! n = g_node (st_G s) !! n ∧
    select_edges (st_G (solve self s).2) M_out_edges n
      = select_edges (st_G s) M_out_edges n.
Proof.
  intros Hwf Hcyc.
  destruct (topological_sort_cycle _ Hwf Hcyc) as (ys & Hsort & Ht & _).
  pose proof (solve_nodes_preserves self (reverse ys) s) as F.
  unfold solve. rewrite Hsort.
  destruct (for_each (reverse ys) (solve_node self) s) as [[[]|e] s1];
    simpl in *; (split; [by eexists|]).
  all: intros c n Hc Hcn;
    assert (n ∉ reverse ys) as Hn
      by (rewrite elem_of_reverse; intros Hin;
          by apply (topo_acyclic _ ys c Ht (topo_ancestors _ _ _ _ Ht Hcn Hin)));
    split; [eapply frame_node_map; [done|]; by intros k
           |eapply frame_out_edges; [done|]; by intros k [? _]].
Qed.

(** The cyclic example: the nodes [B] and [C] of the cycle are as
    before. *)
Lemma cycle_raises_example :
  (∃ e, (solve default_config (initial Examples.G_cycle)).1 = Raise e) ∧
  ∀ c n, tc (edge_rel (st_G (initial Examples.G_cycle))) c c →
         rtc (edge_rel (st_G (initial Examples.G_cycle))) c n →
    g_node (st_G (solve default_config (initial Examples.G_cycle)).2) !! n
      = g_node (st_G (initial Examples.G_cycle)) !! n ∧
    select_edges (st_G (solve default_config (initial Examples.G_cycle)).2) M_out_edges n
      = select_edges (st_G (initial Examples.G_cycle)) M_out_edges n.
Proof.
  refine (cycle_raises default_config (initial Examples.G_cycle) _ G_cycle_has_cycle).
  graph_ok.
Defined.

(** ** The volume check is diagnostic only *)



Section sim.
Context (self : Config).










End sim.











Global Instance numeric_or_absent_dec o : Decision (numeric_or_absent o).
Proof. destruct o as [[]|]; simpl; apply _. Defined.




(** ** More on the edge aggregator *)

Global Instance is_str_dec o : Decision (is_str o).
Proof. destruct o as [[]|]; simpl; apply _. Defined.

Global Instance is_num_dec o : Decision (is_num o).
Proof. destruct o as [[]|]; simpl; apply _. Defined.

Lemma sum_edge_step_contrib attr fk inc exc val d :
  sum_edge_step attr fk inc exc val d =
  (x ← contrib attr fk inc exc d; Ok (val + x)).
Proof.
  unfold contrib, sum_edge_step, add_attr.
  destruct fk as [fk|]; simpl.
  - destruct (getitem d fk) as [key|]; simpl; [|done].
    destruct inc as [inc|], exc as [exc|]; simpl;
      repeat match goal with
             | |- context [any_in ?f ?k] => destruct (any_in f k) as [[]|]; simpl
             end;
      rewrite ?Qcplus_0_r; try done;
      destruct (as_num _); simpl; by rewrite ?Qcplus_0_l.
  - destruct (as_num _); simpl; by rewrite ?Qcplus_0_l.
Qed.

Lemma foldl_Qcplus a l : foldl Qcplus a l = a + total l.
Proof.
  unfold total. revert a. induction l as [|x l IH]; intros a; simpl.
  - ring.
  - rewrite (IH (a + x)), (IH (0 + x)). ring.
Qed.

Lemma total_cons x l : total (x :: l) = x + total l.
Proof.
  unfold total at 1. simpl. rewrite foldl_Qcplus. ring.
Qed.

(** The loop returns exactly when every edge contributes, and then the
    start value plus the contributions. *)
Lemma sum_edge_loop_contribs attr fk inc exc es : ∀ val v,
  sum_edge_loop attr fk inc exc val es = Ok v ↔
  ∃ xs, Forall2 (λ e x, contrib attr fk inc exc (e_data e) = Ok x) es xs ∧
        v = val + total xs.
Proof.
  induction es as [|e es IH]; intros val v; cbn [sum_edge_loop].
  - split.
    + intros [= <-]. exists []. split; [constructor|]. simpl. by rewrite Qcplus_0_r.
    + intros (xs & H & ->). inversion H; subst. simpl. by rewrite Qcplus_0_r.
  - rewrite sum_edge_step_contrib.
    destruct (contrib attr fk inc exc (e_data e)) as [x|err] eqn:Hx; simpl.
    + rewrite IH. split.
      * intros (xs & H & ->). exists (x :: xs). split; [by constructor|].
        rewrite total_cons. ring.
      * intros (xs & H & ->). inversion H as [|? x' ? xs' Hx' H']; subst.
        rewrite Hx in Hx'. injection Hx' as <-. exists xs'. split; [done|].
        rewrite total_cons. ring.
    + split; [done|]. intros (xs & H & _). inversion H; subst. congruence.
Qed.

Lemma contrib_unfiltered attr inc exc e :
  numeric_or_absent (e_data e !! attr) →
  contrib attr None inc exc (e_data e) = Ok (attr_or_zero attr e).
Proof.
  unfold contrib, sum_edge_step, add_attr, attr_or_zero.
  destruct (e_data e !! attr) as [[q|s]|]; simpl; try done; intros _;
    by rewrite Qcplus_0_l.
Qed.

Lemma sum_edge_loop_unfiltered attr inc exc es val :
  Forall (λ e, numeric_or_absent (e_data e !! attr)) es →
  sum_edge_loop attr None inc exc val es = Ok (val + total (attr_or_zero attr <$> es)).
Proof.
  intros H. apply sum_edge_loop_contribs. eexists. split; [|done].
  apply Forall2_fmap_r. apply Forall_Forall2_diag.
  eapply Forall_impl; [done|]. intros e He. by apply contrib_unfiltered.
Qed.

(** Property X1.  Without a filter key both flag lists are ignored: the
    result is the sum of the attribute over the selected edges, an edge
    without the attribute counting for 0, as long as the values present are
    numbers. *)
Theorem sum_edge_attr_unfiltered G node attr m inc exc :
  (∀ e, e ∈ select_edges G m node → numeric_or_absent (e_data e !! attr)) →
  sum_edge_attr G node attr m None inc exc =
  Ok (total (attr_or_zero attr <$> select_edges G m node)).
Proof.
  intros H. rewrite sum_edge_attr_loop, sum_edge_loop_unfiltered.
  - by rewrite Qcplus_0_l.
  - by apply Forall_forall.
Qed.

Lemma contrib_filtered attr fk inc exc e :
  is_str (e_data e !! fk) →
  (passing fk inc exc e = true → numeric_or_absent (e_data e !! attr)) →
  contrib attr (Some fk) inc exc (e_data e) =
  Ok (if passing fk inc exc e then attr_or_zero attr e else 0).
Proof.
  unfold contrib, sum_edge_step, passing, passes, getitem.
  destruct (e_data e !! fk) as [[q|id]|]; simpl; try done. intros _.
  assert (Hadd : numeric_or_absent (e_data e !! attr) →
            add_attr 0 (e_data e) attr = Ok (attr_or_zero attr e)).
  { unfold add_attr, attr_or_zero.
    destruct (e_data e !! attr) as [[q|s]|]; simpl; try done; intros _;
      by rewrite Qcplus_0_l. }
  destruct inc as [inc|], exc as [exc|]; simpl; rewrite ?any_in_str; simpl;
    repeat (match goal with
            | |- context [matches ?f id] => destruct (matches f id); simpl
            end);
    try done; intros H; by apply Hadd, H.
Qed.

Lemma total_filter (f : Edge → Qc) (P : Edge → bool) es :
  total ((λ e, if P e then f e else 0) <$> es) =
  total (f <$> filter (λ e, P e = true) es).
Proof.
  induction es as [|e es IH]; [done|].
  rewrite filter_cons, fmap_cons, total_cons, IH.
  destruct (decide (P e = true)) as [HP|HP].
  - by rewrite HP, fmap_cons, total_cons.
  - apply not_true_is_false in HP. rewrite HP. ring.
Qed.

(** Property X2.  With a filter key whose value is a string on every
    selected edge, the result is the sum of the attribute over the selected
    edges whose filter value contains an include flag (when include flags
    are given) and no exclude flag (when exclude flags are given). *)
Theorem sum_edge_attr_filtered G node attr m fk inc exc :
  (∀ e, e ∈ select_edges G m node → is_str (e_data e !! fk)) →
  (∀ e, e ∈ select_edges G m node → passing fk inc exc e = true →
        numeric_or_absent (e_data e !! attr)) →
  sum_edge_attr G node attr m (Some fk) inc exc =
  Ok (total (attr_or_zero attr <$>
               filter (λ e, passing fk inc exc e = true) (select_edges G m node))).
Proof.
  intros Hstr Hnum. rewrite sum_edge_attr_loop.
  apply sum_edge_loop_contribs.
  exists ((λ e, if passing fk inc exc e then attr_or_zero attr e else 0)
            <$> select_edges G m node).
  split.
  - apply Forall2_fmap_r, Forall_Forall2_diag, Forall_forall.
    intros e He. apply contrib_filtered; auto.
  - by rewrite Qcplus_0_l, total_filter.
Qed.

Lemma sum_edge_loop_string attr inc exc e s es : ∀ val,
  e ∈ es → e_data e !! attr = Some (VStr s) →
  sum_edge_loop attr None inc exc val es = Raise TypeError.
Proof.
  induction es as [|e' es IH]; intros val Hin Hs.
  - by apply elem_of_nil in Hin.
  - cbn [sum_edge_loop]. unfold sum_edge_step, add_attr.
    destruct (e_data e' !! attr) as [[q|s']|] eqn:He'; simpl.
    + apply IH; [|done]. apply elem_of_cons in Hin as [->|]; [congruence|done].
    + done.
    + apply IH; [|done]. apply elem_of_cons in Hin as [->|]; [congruence|done].
Qed.

(** Property X3.  A string under the summed attribute is not concatenated:
    without a filter key, a selected edge that holds a string there makes
    the call raise [TypeError]. *)
Theorem sum_edge_attr_string_attr G node attr m inc exc e s :
  e ∈ select_edges G m node → e_data e !! attr = Some (VStr s) →
  sum_edge_attr G node attr m None inc exc = Raise TypeError.
Proof.
  intros Hin Hs. rewrite sum_edge_attr_loop. by eapply sum_edge_loop_string.
Qed.

(** ** The body of the loop over the out-edges *)

Lemma bind_run {S A B} (m : M S A) (f : A → M S B) s a s1 :
  m s = (Ok a, s1) → (m ≫= f) s = f a s1.
Proof. intros H. unfold mbind, M_bind. by rewrite H. Qed.

Lemma bind_raise {S A B} (m : M S A) (f : A → M S B) s e s1 :
  m s = (Raise e, s1) → (m ≫= f) s = (Raise e, s1).
Proof. intros H. unfold mbind, M_bind. by rewrite H. Qed.

Lemma data_get_run k d log v :
  d !! k = Some v → data_get k (d, log) = (Ok v, (d, log)).
Proof. intros H. unfold data_get, getitem. simpl. by rewrite H. Qed.

Lemma data_num_run k d log q :
  d !! k = Some (VNum q) → data_num k (d, log) = (Ok q, (d, log)).
Proof. intros H. unfold data_num, getitem. simpl. by rewrite H. Qed.

Lemma data_get_missing k d log :
  d !! k = None → data_get k (d, log) = (Raise (KeyError k), (d, log)).
Proof. intros H. unfold data_get, getitem. simpl. by rewrite H. Qed.

Lemma data_num_missing k d log :
  d !! k = None → data_num k (d, log) = (Raise (KeyError k), (d, log)).
Proof. intros H. unfold data_num, getitem. simpl. by rewrite H. Qed.

Lemma data_any_in_run flags k d log id :
  d !! k = Some (VStr id) →
  data_any_in flags k (d, log) = (Ok (matches flags id), (d, log)).
Proof.
  intros Hk. rewrite data_any_in_spec. f_equal. destruct flags as [|i flags]; [done|].
  unfold getitem. rewrite Hk. apply any_in_str.
Qed.

Lemma solve_edge_tail self lc conc d log id vol :
  lc ≠ vol_col self → lc ≠ name_col self →
  d !! name_col self = Some (VStr id) →
  d !! vol_col self = Some (VNum vol) →
  (vol ← data_num (vol_col self);
   _ ← data_set lc (VNum (conc * vol));
   if treated self then
     hit ← data_any_in (treated_flags self) (name_col self);
     when hit (
       let eff_conc := (1 - Q2Qc (7 # 10)) * conc in
       vol ← data_num (vol_col self);
       data_set lc (VNum (eff_conc * vol)))
   else mret ()) (d, log) =
  (Ok (), (<[lc := VNum (edge_conc self d conc * vol)]> d, log)).
Proof.
  intros Hv Hn Hid Hvol. unfold edge_conc, treated_edge. rewrite Hid.
  erewrite bind_run by (by apply data_num_run).
  erewrite bind_run by reflexivity. simpl.
  destruct (treated self); simpl; [|done].
  erewrite bind_run by (apply (data_any_in_run _ _ _ _ id); by rewrite lookup_insert_ne).
  unfold matches. destruct (existsb _ _); simpl; [|done].
  erewrite bind_run by (apply data_num_run; by rewrite lookup_insert_ne).
  unfold data_set. simpl. by rewrite insert_insert_eq.
Qed.

(** Property X6.  The body of the loop over the out-edges, on an edge with a
    string identifier and a numeric volume that carries no load yet, or a
    load other than 0: it stores the load [edge_conc * volume], and warns
    exactly when it replaces a load. *)
Theorem solve_edge_writes_load self lc conc d log id vol :
  lc ≠ vol_col self → lc ≠ name_col self →
  d !! name_col self = Some (VStr id) →
  d !! vol_col self = Some (VNum vol) →
  (d !! lc = None ∨ ∃ l, d !! lc = Some (VNum l) ∧ l ≠ 0) →
  solve_edge self lc conc (d, log) =
  (Ok (), (<[lc := VNum (edge_conc self d conc * vol)]> d,
           if decide (d !! lc = None) then log else log ++ [(VStr id, lc)])).
Proof.
  intros Hv Hn Hid Hvol Hpre. unfold solve_edge.
  erewrite bind_run by reflexivity. simpl.
  destruct Hpre as [Hnone|(l & Hl & Hnz)].
  - rewrite Hnone. rewrite bool_decide_eq_false_2 by (by intros [? ?]).
    rewrite decide_True by done.
    erewrite bind_run by reflexivity. by apply (solve_edge_tail _ _ _ _ _ id).
  - rewrite Hl. rewrite bool_decide_eq_true_2 by eauto.
    rewrite decide_False by done.
    erewrite bind_run; [by apply (solve_edge_tail _ _ _ _ _ id)|]. simpl.
    erewrite bind_run by (by apply data_get_run).
    erewrite bind_run by (by apply data_num_run).
    erewrite bind_run by (by apply data_num_run).
    erewrite bind_run by (unfold lift, py_div; by rewrite decide_False).
    done.
Qed.

(** Property X7.  On an edge that carries a load of 0 the report of the
    overwrite divides by that load: the body raises [ZeroDivisionError]
    before it warns or writes. *)
Theorem solve_edge_zero_preset_load self lc conc d log name vol :
  d !! lc = Some (VNum 0) →
  d !! name_col self = Some name →
  d !! vol_col self = Some (VNum vol) →
  solve_edge self lc conc (d, log) = (Raise ZeroDivisionError, (d, log)).
Proof.
  intros Hl Hid Hvol. unfold solve_edge.
  erewrite bind_run by reflexivity. simpl.
  rewrite Hl. rewrite bool_decide_eq_true_2 by eauto.
  erewrite bind_raise; [done|]. simpl.
  erewrite bind_run by (by apply data_get_run).
  erewrite bind_run by (by apply data_num_run).
  erewrite bind_run by (by apply data_num_run).
  erewrite bind_raise; [done|]. by unfold lift, py_div.
Qed.

(** Property X8.  An edge without a volume makes the body raise [KeyError]
    and leaves the edge and the warnings as they were; the key reported is
    the volume column, unless the edge carries a load and lacks the
    identifier, which the report of the overwrite reads first. *)
Theorem solve_edge_missing_volume self lc conc d log :
  d !! vol_col self = None →
  solve_edge self lc conc (d, log) =
  (Raise (KeyError (if decide (is_Some (d !! lc) ∧ d !! name_col self = None)
                    then name_col self else vol_col self)), (d, log)).
Proof.
  intros Hvol. unfold solve_edge.
  erewrite bind_run by reflexivity. simpl.
  destruct (d !! lc) as [v|] eqn:Hl.
  - rewrite bool_decide_eq_true_2 by eauto.
    erewrite bind_raise; [done|]. simpl.
    destruct (d !! name_col self) as [name|] eqn:Hid.
    + rewrite decide_False by (by intros [_ ?]).
      erewrite bind_run by (by apply data_get_run).
      erewrite bind_raise; [done|]. by apply data_num_missing.
    + rewrite decide_True by eauto.
      erewrite bind_raise; [done|]. by apply data_get_missing.
  - rewrite bool_decide_eq_false_2 by (by intros [? ?]).
    rewrite decide_False by (by intros [[? ?] _]).
    erewrite bind_run by reflexivity.
    erewrite bind_raise; [done|]. by apply data_num_missing.
Qed.

(** ** A traversal that returns *)

Lemma rem_pos G done v :
  (0 < rem G done v)%Z → ∃ e, e ∈ g_edges G ∧ e_to e = v ∧ e_from e ∉ done.
Proof.
  unfold rem, rem_in. intros H.
  destruct (filter (λ e, e_to e = v ∧ e_from e ∉ done) (g_edges G)) as [|e l] eqn:Hf;
    [simpl in H; lia|].
  assert (e ∈ filter (λ e, e_to e = v ∧ e_from e ∉ done) (g_edges G)) as Hin
    by (rewrite Hf; left).
  apply list_elem_of_filter in Hin as [[? ?] ?]. eauto.
Qed.

(** When the generator stops with nodes left over, each of them has a
    predecessor among them. *)
Lemma kahn_stuck G fuel : ∀ imap stack yielded,
  wf_graph G → kahn_inv G imap stack yielded →
  (length (g_nodes G) ≤ length yielded + fuel)%nat →
  (kahn fuel G imap stack yielded).2 = Raised NetworkXUnfeasible →
  ∀ v, v ∈ g_nodes G → v ∉ (kahn fuel G imap stack yielded).1 →
    ∃ u, edge_rel G u v ∧ u ∈ g_nodes G ∧ u ∉ (kahn fuel G imap stack yielded).1.
Proof.
  assert (Hbase : ∀ imap yielded, wf_graph G → kahn_inv G imap [] yielded →
    ∀ v, v ∈ g_nodes G → v ∉ reverse yielded →
      ∃ u, edge_rel G u v ∧ u ∈ g_nodes G ∧ u ∉ reverse yielded).
  { intros imap yielded Hwf [Hcnt Hmem Hnd Hdom Ht] v Hv Hnot.
    rewrite elem_of_reverse in Hnot. specialize (Hcnt v Hv).
    destruct (imap !! v) as [d|] eqn:Hd.
    - destruct Hcnt as [-> Hpos]. apply rem_pos in Hpos as (e & He & Hto & Hfrom).
      exists (e_from e). split; [by exists e|]. split.
      + by apply Hwf.
      + by rewrite elem_of_reverse.
    - exfalso. apply Hnot. by apply (Hmem v). }
  induction fuel as [|fuel IH]; intros imap stack yielded Hwf Hinv Hlen.
  - destruct stack as [|u stack]; simpl.
    + intros _. by eapply Hbase.
    + done.
  - destruct stack as [|u stack]; simpl.
    + intros _. by eapply Hbase.
    + assert (u ∈ g_nodes G) as Hu by (apply (ki_members _ _ _ _ Hinv); left).
      destruct (kahn_inv_step _ _ _ _ _ Hwf Hinv) as (imap' & stack' & Hrel & Hinv').
      rewrite decide_True by done.
      change (relax (e_to <$> filter (λ e, e_from e = u) (g_edges G)) imap stack
              = Ok (imap', stack')) in Hrel.
      rewrite Hrel. apply IH; [done..|]. simpl. lia.
Qed.

(** A non-empty set of nodes, each with a predecessor in the set, holds a
    cycle. *)
Lemma stuck_cycle G (S : list string) h :
  h ∈ S → (∀ v, v ∈ S → ∃ u, edge_rel G u v ∧ u ∈ S) → has_cycle G.
Proof.
  intros Hh Hpred.
  assert (Hchain : ∀ n, has_cycle G ∨
            ∃ h' p, length (h' :: p) = Datatypes.S n ∧ NoDup (h' :: p) ∧
                    (∀ w, w ∈ h' :: p → w ∈ S ∧ rtc (edge_rel G) h' w)).
  { induction n as [|n [Hc|(h' & p & Hlen & Hnd & Hall)]].
    - right. exists h, []. split; [done|]. split; [apply NoDup_singleton|].
      intros w Hw. apply list_elem_of_singleton in Hw as ->. done.
    - by left.
    - destruct (Hall h') as [Hh' _]; [left|].
      destruct (Hpred h' Hh') as (u & Hedge & Hu).
      destruct (decide (u ∈ h' :: p)) as [Hin|Hnin].
      + left. exists u. eapply tc_rtc_r; [by apply tc_once|]. by apply Hall.
      + right. exists u, (h' :: p). split; [simpl in *; lia|].
        split; [by constructor|]. intros w Hw.
        apply elem_of_cons in Hw as [->|Hw]; [done|].
        destruct (Hall w Hw) as [? ?]. split; [done|]. by eapply rtc_l. }
  destruct (Hchain (length S)) as [Hc|(h' & p & Hlen & Hnd & Hall)]; [done|].
  exfalso.
  assert (h' :: p ⊆+ S) as Hsub
    by (apply NoDup_submseteq; [done|]; intros w Hw; by apply Hall).
  apply submseteq_length in Hsub. lia.
Qed.

(** On a well-formed graph without a cycle the generator yields every
    node, each after its predecessors, and ends normally. *)
Lemma topological_sort_acyclic G :
  wf_graph G → ¬ has_cycle G →
  ∃ ys, topological_sort G = (reverse ys, Finished) ∧ topo G ys ∧
        ∀ v, v ∈ ys ↔ v ∈ g_nodes G.
Proof.
  intros Hwf Hac.
  destruct (topological_sort_spec G Hwf) as (ys & fin & Heq & Ht & Hsub & Hfin).
  destruct Hfin as [[-> Hall]|[-> (v & Hv & Hnot)]].
  - exists ys. split; [done|]. split; [done|]. intros v. split; auto.
  - exfalso. apply Hac.
    pose proof (kahn_stuck G (length (g_nodes G)) (indegree_map G) (zero_indegree G) []
                  Hwf (kahn_inv_init G Hwf)) as Hstuck.
    fold (topological_sort G) in Hstuck. rewrite Heq in Hstuck. simpl in Hstuck.
    specialize (Hstuck ltac:(lia) eq_refl).
    apply (stuck_cycle G (filter (λ v, v ∉ ys) (g_nodes G)) v).
    + apply list_elem_of_filter. done.
    + intros w Hw. apply list_elem_of_filter in Hw as [Hw1 Hw2].
      destruct (Hstuck w Hw2) as (u & Hedge & Hu & Hnu).
      { by rewrite elem_of_reverse. }
      exists u. split; [done|]. apply list_elem_of_filter.
      rewrite elem_of_reverse in Hnu. done.
Qed.

Lemma finished_acyclic G :
  wf_graph G → (topological_sort G).2 = Finished → ¬ has_cycle G.
Proof.
  intros Hwf Hfin (v & Hv).
  destruct (topological_sort_spec G Hwf) as (ys & fin & Heq & Ht & Hsub & H).
  rewrite Heq in Hfin. simpl in Hfin. subst fin.
  destruct H as [[_ Hall]|[? _]]; [|done].
  apply (topo_acyclic G ys v Ht); [|done]. apply Hall. by eapply has_cycle_node.
Qed.

Global Instance clean_dec self G : Decision (clean self G).
Proof. unfold clean, clean_node, clean_edge. apply _. Defined.

Lemma returns_bind {S A B} (m : M S A) (f : A → M S B) s Q :
  returns m s (λ a s1, returns (f a) s1 Q) → returns (m ≫= f) s Q.
Proof.
  intros (a & s1 & Hm & b & s2 & Hf & HQ). exists b, s2. split; [|done].
  by rewrite (bind_run _ _ _ _ _ Hm).
Qed.

Lemma returns_ret {S A} (a : A) (s : S) (Q : A → S → Prop) :
  Q a s → returns (mret a) s Q.
Proof. intros HQ. by exists a, s. Qed.

Lemma returns_lift {S A} (r : result A) a (s : S) (Q : A → S → Prop) :
  r = Ok a → Q a s → returns (lift r) s Q.
Proof. intros -> HQ. by exists a, s. Qed.

Lemma returns_mono {S A} (m : M S A) s (Q Q' : A → S → Prop) :
  returns m s Q → (∀ a s', Q a s' → Q' a s') → returns m s Q'.
Proof. intros (a & s' & Hm & HQ) H. exists a, s'. auto. Qed.

Lemma edge_ok_mono self (pend pend' : string → string → Prop) e :
  (∀ n lc, pend' n lc → pend n lc) → edge_ok self pend e → edge_ok self pend' e.
Proof.
  intros Hp (H1 & H2 & H3). split; [done|]. split; [done|].
  intros lc Hlc. destruct (H3 lc Hlc) as [? ?]. split; auto.
Qed.

Lemma good_mono self N (pend pend' : string → string → Prop) w s :
  (∀ n lc, pend' n lc → pend n lc) → good self N pend w s → good self N pend' w s.
Proof.
  intros Hp [H1 H2 H3 H4]. split; try done.
  eapply Forall_impl; [done|]. intros e. by apply edge_ok_mono.
Qed.

Lemma returns_node_set self N pend w s n k q :
  good self N pend w s → n ∈ N →
  returns (node_set n k (VNum q)) s (λ _ s', good self N pend w s').
Proof.
  intros [H1 H2 H3 H4] Hn. unfold returns, node_set.
  destruct (H1 n Hn) as [a Ha]. rewrite Ha. eexists _, _. split; [done|].
  split; simpl.
  - intros n' Hn'. destruct (decide (n = n')) as [<-|Hne].
    + rewrite lookup_insert_eq. eauto.
    + rewrite lookup_insert_ne by done. by apply H1.
  - done.
  - intros n' k' Hk'. rewrite node_attr_set. destruct (decide _); [done|]. by apply H3.
  - done.
Qed.

Lemma returns_node_get self N pend w s n k d :
  good self N pend w s → n ∈ N →
  returns (node_get n k d) s
    (λ v s', s' = s ∧ v = default d (node_attr (st_G s) n k)).
Proof.
  intros [H1 _ _ _] Hn. unfold returns, node_get, node_attr.
  destruct (H1 n Hn) as [a Ha]. rewrite Ha. by eexists _, _.
Qed.

Lemma edge_ok_numeric self pend e attr :
  edge_ok self pend e → attr ∈ vol_col self :: load_cols self →
  numeric_or_absent (e_data e !! attr).
Proof.
  intros (_ & Hv & Hl) Ha. apply elem_of_cons in Ha as [->|Ha].
  - by destruct (e_data e !! vol_col self) as [[]|].
  - by apply Hl.
Qed.

Lemma returns_sum_edges self N pend w s n attr m inc exc :
  good self N pend w s → attr ∈ vol_col self :: load_cols self →
  returns (sum_edges n attr m None inc exc) s (λ _ s', s' = s).
Proof.
  intros [_ _ _ H4] Ha. unfold returns, sum_edges. eexists _, _. split; [|done].
  rewrite sum_edge_attr_loop, sum_edge_loop_unfiltered; [done|].
  rewrite select_edges_filter. apply Forall_forall. intros e He.
  apply list_elem_of_filter in He as [_ He].
  rewrite Forall_forall in H4. by eapply edge_ok_numeric; [apply H4|].
Qed.

Lemma sum_edge_loop_filtered attr fk inc exc es val :
  (∀ e, e ∈ es → is_str (e_data e !! fk)) →
  (∀ e, e ∈ es → passing fk inc exc e = true → numeric_or_absent (e_data e !! attr)) →
  sum_edge_loop attr (Some fk) inc exc val es =
  Ok (val + total (attr_or_zero attr <$> filter (λ e, passing fk inc exc e = true) es)).
Proof.
  intros Hstr Hnum. apply sum_edge_loop_contribs.
  exists ((λ e, if passing fk inc exc e then attr_or_zero attr e else 0) <$> es).
  split.
  - apply Forall2_fmap_r, Forall_Forall2_diag, Forall_forall.
    intros e He. apply contrib_filtered; auto.
  - by rewrite total_filter.
Qed.

Lemma returns_sum_edges_filtered self N pend w s n m inc exc :
  good self N pend w s →
  returns (sum_edges n (vol_col self) m (Some (name_col self)) inc exc) s
    (λ _ s', s' = s).
Proof.
  intros [_ _ _ H4]. unfold returns, sum_edges. eexists _, _. split; [|done].
  rewrite Forall_forall in H4.
  rewrite sum_edge_attr_loop, sum_edge_loop_filtered; [done| |];
    intros e He; rewrite select_edges_filter in He;
    apply list_elem_of_filter in He as [_ He];
    destruct (H4 e He) as (Hs & Hv & _); [done|].
  intros _. by destruct (e_data e !! vol_col self) as [[]|].
Qed.

Lemma solve_edge_fresh self lc conc d log :
  lc ≠ vol_col self → lc ≠ name_col self →
  is_str (d !! name_col self) → is_num (d !! vol_col self) → d !! lc = None →
  ∃ q, solve_edge self lc conc (d, log) = (Ok (), (<[lc := VNum q]> d, log)).
Proof.
  intros Hv Hn Hid Hvol Hnone.
  destruct (d !! name_col self) as [[|id]|] eqn:Eid; try done.
  destruct (d !! vol_col self) as [[vol|]|] eqn:Evol; try done.
  eexists. unfold solve_edge.
  erewrite bind_run by reflexivity. simpl. rewrite Hnone.
  rewrite bool_decide_eq_false_2 by (by intros [? ?]).
  erewrite bind_run by reflexivity. by apply (solve_edge_tail _ _ _ _ _ id).
Qed.

Lemma out_edges_loop_fresh self lc conc n (pend : string → string → Prop) es log :
  lc ∈ load_cols self → lc ≠ vol_col self → lc ≠ name_col self → pend n lc →
  Forall (edge_ok self pend) es →
  ∃ es', out_edges_loop (solve_edge self lc conc) n es log = (Ok (), (es', log)) ∧
         Forall (edge_ok self (λ n' lc', pend n' lc' ∧ ¬ (n' = n ∧ lc' = lc))) es'.
Proof.
  intros Hlc Hv Hn Hp. induction 1 as [|e es He _ (es' & IH & Hes')]; simpl.
  - by exists [].
  - destruct (decide (e_from e = n)) as [Hfrom|Hfrom].
    + destruct He as (Hs & Hvol & Hl).
      destruct (Hl lc Hlc) as [_ Hnone]. rewrite Hfrom in Hnone. specialize (Hnone Hp).
      destruct (solve_edge_fresh self lc conc (e_data e) log) as (q & ->); try done.
      rewrite IH. eexists. split; [done|]. constructor; [|done].
      split; simpl; [by rewrite lookup_insert_ne|].
      split; [by rewrite lookup_insert_ne|].
      intros lc' Hlc'. destruct (decide (lc' = lc)) as [->|Hne].
      * rewrite lookup_insert_eq. split; [done|]. intros [_ H]. exfalso. by apply H.
      * rewrite lookup_insert_ne by done. destruct (Hl lc' Hlc') as [? H].
        split; [done|]. intros [? _]. by apply H.
    + rewrite IH. eexists. split; [done|]. constructor; [|done].
      eapply edge_ok_mono; [|done]. by intros ? ? [? _].
Qed.

Lemma returns_for_out_edges self N (pend : string → string → Prop) w s n lc conc :
  good self N pend w s → cols_ok self → lc ∈ load_cols self → pend n lc →
  returns (for_out_edges n (solve_edge self lc conc)) s
    (λ _ s', good self N (λ n' lc', pend n' lc' ∧ ¬ (n' = n ∧ lc' = lc)) w s').
Proof.
  intros [H1 H2 H3 H4] Hcols Hlc Hp. unfold returns, for_out_edges.
  destruct (out_edges_loop_fresh self lc conc n pend (g_edges (st_G s)) (st_warnings s))
    as (es' & -> & Hes'); try done.
  { intros ->. by apply (cols_ok_vol_not_load _ Hcols). }
  { intros ->. by apply (cols_ok_name_not_load _ Hcols). }
  eexists _, _. split; [done|]. split; simpl; try done.
Qed.

Lemma returns_solve_out self N (pend : string → string → Prop) w s n lc
    vol_in load_in conc :
  good self N pend w s → cols_ok self → lc ∈ load_cols self → pend n lc →
  returns (solve_out self n lc vol_in load_in conc) s
    (λ _ s', good self N (λ n' lc', pend n' lc' ∧ ¬ (n' = n ∧ lc' = lc)) w s').
Proof.
  intros Hg Hcols Hlc Hp. unfold solve_out. destruct (bool_decide (0 < load_in)).
  - apply returns_bind. eapply returns_mono; [by apply returns_for_out_edges|].
    cbv beta. intros [] s1 Hg1.
    apply returns_bind. eapply returns_lift; [apply any_in_str|].
    destruct (matches _ _).
    + by apply returns_ret.
    + apply returns_bind. eapply returns_mono.
      { eapply returns_sum_edges; [done|]. by right. }
      cbv beta. intros lo ? ->.
      apply returns_bind. eapply returns_mono.
      { by eapply returns_sum_edges_filtered. }
      cbv beta. intros vo ? ->.
      apply returns_bind. eapply returns_mono.
      { by eapply returns_sum_edges_filtered. }
      cbv beta. intros vt ? ->.
      by apply returns_ret.
  - apply returns_ret. eapply good_mono; [|done]. by intros ? ? [? _].
Qed.

Lemma numeric_as_num d o :
  numeric_or_absent o → ∃ q, as_num (default (VNum d) o) = Ok q.
Proof. destruct o as [[q|]|]; simpl; [eauto|done|eauto]. Qed.

Lemma returns_solve_load self N (pend : string → string → Prop) w s n lc vol_in :
  good self N pend w s → cols_ok self → n ∈ N → lc ∈ load_cols self → pend n lc →
  vol_in ≠ 0 →
  returns (solve_load self n vol_in lc) s
    (λ _ s', good self N (λ n' lc', pend n' lc' ∧ ¬ (n' = n ∧ lc' = lc)) w s').
Proof.
  intros Hg Hcols Hn Hlc Hp Hnz. unfold solve_load.
  apply returns_bind. eapply returns_mono.
  { eapply returns_sum_edges; [done|]. by right. }
  cbv beta. intros el ? ->.
  apply returns_bind. eapply returns_mono; [by eapply returns_node_get|].
  cbv beta. intros v ? [-> ->].
  destruct (numeric_as_num 0 (node_attr (st_G s) n lc)) as (nl & Hnl).
  { apply (gd_node _ _ _ _ _ Hg). by do 2 right. }
  apply returns_bind. eapply returns_lift; [done|].
  apply returns_bind. eapply returns_mono; [by eapply returns_node_set|].
  cbv beta. intros [] s1 Hg1.
  apply returns_bind. eapply returns_mono; [by eapply returns_node_set|].
  cbv beta. intros [] s2 Hg2.
  apply returns_bind. eapply returns_mono; [by eapply returns_solve_out|].
  cbv beta. intros [[lo vo] vt] s3 Hg3.
  apply returns_bind. eapply returns_mono; [by eapply returns_node_set|].
  cbv beta. intros [] s4 Hg4.
  apply returns_bind. eapply returns_mono; [by eapply returns_node_set|].
  cbv beta. intros [] s5 Hg5.
  apply returns_bind.
  eapply (returns_mono _ _
            (λ _ s', good self N (λ n' lc', pend n' lc' ∧ ¬ (n' = n ∧ lc' = lc)) w s')).
  { unfold when. destruct (bool_decide (0 < el + nl)) eqn:Hpos.
    - apply bool_decide_eq_true in Hpos.
      apply returns_bind. eapply returns_lift.
      { unfold py_div. rewrite decide_False; [done|].
        intros Hz. rewrite Hz in Hpos. exact (Qcle_not_lt _ _ (Qcle_refl 0) Hpos). }
      by eapply returns_node_set.
    - by apply returns_ret. }
  cbv beta. intros [] s6 Hg6.
  apply returns_bind. eapply returns_mono; [by eapply returns_node_set|].
  cbv beta. intros [] s7 Hg7.
  apply returns_bind. eapply returns_mono; [by eapply returns_node_set|].
  cbv beta. intros [] s8 Hg8.
  apply returns_bind. eapply returns_lift.
  { unfold py_div. by rewrite decide_False. }
  apply returns_bind. eapply returns_mono; [by eapply returns_node_set|].
  cbv beta. intros [] s9 Hg9.
  apply returns_bind. eapply returns_mono; [by eapply returns_node_set|].
  cbv beta. intros [] s10 Hg10.
  apply returns_bind. eapply returns_lift.
  { unfold py_div. by rewrite decide_False. }
  apply returns_bind. eapply returns_mono; [by eapply returns_node_set|].
  cbv beta. intros [] s11 Hg11.
  apply returns_bind. eapply returns_mono; [by eapply returns_node_set|].
  cbv beta. intros [] s12 Hg12.
  apply returns_bind. eapply returns_lift.
  { unfold py_div. by rewrite decide_False. }
  by eapply returns_node_set.
Qed.

Lemma returns_solve_loads self N w n vol_in l : ∀ (pend : string → string → Prop) s,
  cols_ok self → n ∈ N → vol_in ≠ 0 → NoDup l →
  (∀ lc, lc ∈ l → lc ∈ load_cols self ∧ pend n lc) →
  good self N pend w s →
  returns (for_each l (solve_load self n vol_in)) s
    (λ _ s', good self N (λ n' lc', pend n' lc' ∧ ¬ (n' = n ∧ lc' ∈ l)) w s').
Proof.
  induction l as [|lc l IH]; intros pend s Hcols Hn Hnz Hnd Hl Hg; simpl.
  - apply returns_ret. eapply good_mono; [|done]. by intros ? ? [? _].
  - apply NoDup_cons in Hnd as [Hnotin Hnd].
    destruct (Hl lc) as [Hlc Hp]; [left|].
    apply returns_bind. eapply returns_mono; [by eapply returns_solve_load|].
    cbv beta. intros [] s1 Hg1.
    eapply returns_mono.
    { apply IH; [done..| |done]. intros lc' Hlc'.
      destruct (Hl lc') as [? ?]; [by right|]. split; [done|]. split; [done|].
      intros [_ ->]. done. }
    cbv beta. intros [] s2 Hg2. eapply good_mono; [|done].
    intros n' lc' [Hp' Hne]. split; [split; [done|]|].
    + intros [-> ->]. apply Hne. split; [done|]. left.
    + intros [-> Hin]. apply Hne. split; [done|]. by right.
Qed.

Lemma returns_solve_node self N (pend : string → string → Prop) w s n :
  good self N pend w s → cols_ok self → n ∈ N →
  (∀ lc, lc ∈ load_cols self → pend n lc) →
  returns (solve_node self n) s
    (λ _ s', good self N (λ n' lc', pend n' lc' ∧ n' ≠ n) w s').
Proof.
  intros Hg Hcols Hn Hp. unfold solve_node.
  apply returns_bind. eapply returns_mono; [by eapply returns_node_get|].
  cbv beta. intros v ? [-> ->].
  apply returns_bind. eapply returns_mono.
  { eapply returns_sum_edges; [done|]. left. }
  cbv beta. intros ev ? ->.
  destruct (numeric_as_num 0 (node_attr (st_G s) n (vol_col self))) as (nv & Hnv).
  { apply (gd_node _ _ _ _ _ Hg). left. }
  apply returns_bind. eapply returns_lift; [done|].
  apply returns_bind. eapply returns_mono; [by eapply returns_node_set|].
  cbv beta. intros [] s1 Hg1.
  apply returns_bind. eapply returns_mono; [by eapply returns_node_get|].
  cbv beta. intros ck ? [-> ->].
  assert (∃ ex, as_num (default (default (VNum 0) (node_attr (st_G s) n (vol_col self)))
                          (node_attr (st_G s1) n (ck_vol_col self))) = Ok ex)
    as (ex & Hex).
  { pose proof (gd_node _ _ _ _ _ Hg1 n (ck_vol_col self)) as Hck.
    destruct (node_attr (st_G s1) n (ck_vol_col self)) as [[q|]|]; simpl.
    - eauto.
    - exfalso. apply Hck. right. left.
    - eauto. }
  apply returns_bind. eapply returns_lift; [done|].
  apply returns_bind. eapply returns_mono; [by eapply returns_node_set|].
  cbv beta. intros [] s2 Hg2.
  unfold when. destruct (bool_decide (ev + nv = 0)) eqn:Hz; simpl.
  - apply returns_ret. eapply good_mono; [|done]. by intros ? ? [? _].
  - apply bool_decide_eq_false in Hz.
    eapply returns_mono.
    { apply returns_solve_loads; [done..| | |done].
      - destruct Hcols as [_ Hnd]. apply NoDup_cons in Hnd as [_ Hnd].
        by apply NoDup_cons in Hnd as [_ Hnd].
      - intros lc Hlc. split; [done|]. by apply Hp. }
    cbv beta. intros [] s3 Hg3. eapply good_mono; [|done].
    intros n' lc' [Hp' Hne]. split; [done|]. by intros [-> _].
Qed.

Lemma returns_solve_nodes self N w l : ∀ (pend : string → string → Prop) s,
  cols_ok self → NoDup l →
  (∀ n, n ∈ l → n ∈ N ∧ ∀ lc, pend n lc) →
  good self N pend w s →
  returns (for_each l (solve_node self)) s (λ _ s', good self N (λ _ _, False) w s').
Proof.
  induction l as [|n l IH]; intros pend s Hcols Hnd Hl Hg; simpl.
  - apply returns_ret. eapply good_mono; [|done]. done.
  - apply NoDup_cons in Hnd as [Hnotin Hnd].
    destruct (Hl n) as [Hn Hp]; [left|].
    apply returns_bind. eapply returns_mono; [by eapply returns_solve_node|].
    cbv beta. intros [] s1 Hg1.
    eapply IH; [done..| |done].
    intros n' Hn'. destruct (Hl n') as [? ?]; [by right|]. split; [done|].
    intros lc. split; [done|]. by intros ->.
Qed.

Lemma clean_good self G :
  wf_graph G → clean self G → good self (g_nodes G) (λ _ _, True) [] (initial G).
Proof.
  intros (_ & Hdom & _) [Hnode Hedge]. split; simpl.
  - intros n Hn. by apply Hdom.
  - done.
  - intros n k Hk. unfold node_attr.
    destruct (g_node G !! n) as [a|] eqn:Ha; simpl; [|done].
    specialize (Hnode n a Ha). unfold clean_node in Hnode.
    rewrite Forall_forall in Hnode. by apply Hnode.
  - eapply Forall_impl; [done|]. intros e (Hs & Hv & Hl). split; [done|].
    split; [done|]. intros lc Hlc. rewrite Forall_forall in Hl.
    rewrite (Hl lc Hlc). done.
Qed.

(** Property X10.  On a well-formed network without a cycle, whose column
    names do not collide and whose attributes are as a model builder leaves
    them, the traversal returns, and it issues no warning. *)
Theorem solve_returns self G :
  wf_graph G → cols_ok self → ¬ has_cycle G → clean self G →
  ∃ s', solve self (initial G) = (Ok (), s') ∧ st_warnings s' = [].
Proof.
  intros Hwf Hcols Hac Hclean.
  destruct (topological_sort_acyclic G Hwf Hac) as (ys & Hsort & Ht & Hall).
  destruct (returns_solve_nodes self (g_nodes G) [] (reverse ys) (λ _ _, True)
              (initial G)) as ([] & s' & Hrun & Hg); try done.
  - rewrite reverse_Permutation. by eapply topo_NoDup.
  - intros n Hn. split; [|done]. apply Hall. by rewrite elem_of_reverse in Hn.
  - by apply clean_good.
  - exists s'. split; [|by destruct Hg].
    unfold solve. change (st_G (initial G)) with G. rewrite Hsort, Hrun. done.
Qed.

(** ** More on the attributes left by a traversal *)

(** Property X15.  After a successful traversal, an edge that is not treated
    (treatment is off, or its identifier contains no treated flag), leaving
    a node with non-zero inflow volume and positive inflow load, carries the
    load [conc_in * edge_volume] with [conc_in = load_in / vol_in]. *)
Theorem untreated_edge_load self s s' e lc vol_in load_in :
  wf_graph (st_G s) → cols_ok self → solve self s = (Ok (), s') →
  e ∈ g_edges (st_G s') → lc ∈ load_cols self →
  treated_edge self (e_data e) = false →
  node_attr (st_G s') (e_from e) (vol_col self) = Some (VNum vol_in) → vol_in ≠ 0 →
  node_attr (st_G s') (e_from e) lc = Some (VNum load_in) → 0 < load_in →
  ∃ edge_volume,
    e_data e !! vol_col self = Some (VNum edge_volume) ∧
    e_data e !! lc = Some (VNum (load_in / vol_in * edge_volume)).
Proof.
  intros Hwf Hcols Hs He Hlc Hun Hvol Hnz Hload Hpos.
  pose proof (solve_edge_node _ _ _ _ Hwf Hs He) as Hn.
  destruct (solve_final_load _ _ _ _ _ _ Hwf Hcols Hs Hn Hlc Hvol Hnz)
    as (load_in' & lo & A1 & A2 & _ & _ & Hedges).
  assert (load_in' = load_in) as -> by congruence.
  rewrite bool_decide_eq_true_2 in Hedges by done. destruct Hedges as [Hedges _].
  destruct (Hedges e He eq_refl) as (vol & Hv & Hl).
  unfold edge_conc in Hl. rewrite Hun in Hl. by exists vol.
Qed.

(** Property X16.  A node that a successful traversal leaves with a volume
    of 0 has had no inflow: apart from the volume and the percent
    difference, its attributes are as before the call, and so are its
    out-edges. *)
Theorem zero_inflow_node self s s' n :
  wf_graph (st_G s) → cols_ok self → solve self s = (Ok (), s') →
  n ∈ g_nodes (st_G s) →
  node_attr (st_G s') n (vol_col self) = Some (VNum 0) →
  (∀ k, k ≠ vol_col self → k ≠ vol_pct_diff_col self →
        node_attr (st_G s') n k = node_attr (st_G s) n k) ∧
  select_edges (st_G s') M_out_edges n = select_edges (st_G s) M_out_edges n.
Proof.
  intros Hwf Hcols Hs Hn Hvol.
  destruct (solve_sandwich _ _ _ _ Hwf Hs Hn) as (s0 & s1 & F0 & Hnode & F1).
  destruct (solve_node_ok _ _ _ _ Hcols Hnode) as (sb & vol_in & Hspec & Hrest).
  destruct Hspec as (_ & Hvol' & Hedges & _ & Hattrs).
  pose proof (cols_ok_vol_not_written _ Hcols) as [Hvw _].
  rewrite (fr_node _ _ _ _ F1) in Hvol by (intros ?; done).
  assert (vol_in = 0) as ->.
  { destruct (decide (vol_in = 0)) as [Hz|Hz]; [done|].
    pose proof (solve_loads_preserves self n vol_in (load_cols self) sb) as F.
    rewrite Hrest in F. simpl in F.
    rewrite (fr_node _ _ _ _ F) in Hvol by (by intros [_ ?]). congruence. }
  rewrite decide_True in Hrest by done. subst s1. split.
  - intros k Hk1 Hk2.
    rewrite (fr_node _ _ _ _ F1) by (intros ?; done).
    rewrite Hattrs by done. apply (fr_node _ _ _ _ F0). by intros ?.
  - rewrite (frame_out_edges _ _ _ _ n F1) by (by intros k [? _]).
    transitivity (select_edges (st_G s0) M_out_edges n).
    + unfold select_edges. by rewrite Hedges.
    + apply (frame_out_edges _ _ _ _ n F0). by intros k [? _].
Qed.

(** Property X13.  After a successful traversal the volume of a node is the
    sum of the volumes of its in-edges plus the volume the node held before. *)
Theorem volume_balance self s s' n :
  wf_graph (st_G s) → cols_ok self → solve self s = (Ok (), s') →
  n ∈ g_nodes (st_G s) →
  ∃ edge_vol node_vol,
    sum_edge_attr (st_G s') n (vol_col self) M_in_edges None None None = Ok edge_vol ∧
    as_num (default (VNum 0) (node_attr (st_G s) n (vol_col self))) = Ok node_vol ∧
    node_attr (st_G s') n (vol_col self) = Some (VNum (edge_vol + node_vol)).
Proof.
  intros Hwf Hcols Hs Hn.
  destruct (solve_volume _ _ _ _ Hwf Hcols Hs Hn) as (ev & nv & _ & Hnv & Hv & Hev).
  by exists ev, nv.
Qed.


(** ** Loads routed downstream, and the bookkeeping at a node *)

Lemma solve_ok_topo self s s' :
  wf_graph (st_G s) → solve self s = (Ok (), s') →
  ∃ ys, for_each (reverse ys) (solve_node self) s = (Ok (), s') ∧
        topo (st_G s) ys ∧ ∀ n, n ∈ ys ↔ n ∈ g_nodes (st_G s).
Proof.
  intros Hwf. unfold solve.
  destruct (topological_sort_spec (st_G s) Hwf) as (ys & fin & -> & Ht & Hsub & Hfin).
  destruct (for_each (reverse ys) (solve_node self) s) as [[[]|e] s1] eqn:Hrun; [|done].
  destruct Hfin as [[-> Hall]|[-> _]]; [|done].
  intros [= <-]. exists ys. split; [done|]. split; [done|].
  intros n. split; auto.
Qed.

Lemma topo_suffix G l1 l2 : topo G (l1 ++ l2) → topo G l2.
Proof. induction l1 as [|x l1 IH]; [done|]. intros (_ & _ & H). by apply IH. Qed.

Lemma node_set_frame (Wn We : string → string → Prop) n k v s u s' :
  Wn n k → node_set n k v s = (Ok u, s') → frame Wn We (st_G s) (st_G s').
Proof.
  intros HW H. pose proof (preserves_node_set Wn We n k v HW s) as F.
  by rewrite H in F.
Qed.

(** The first part of the loop body at a node, up to the loop over the
    load columns. *)
Lemma solve_node_head self n s s' :
  cols_ok self → solve_node self n s = (Ok (), s') →
  ∃ sb vol_in,
    frame (λ n' k, n' = n ∧ (k = vol_col self ∨ k = vol_pct_diff_col self))
          (λ _ _, False) (st_G s) (st_G sb) ∧
    node_attr (st_G sb) n (vol_col self) = Some (VNum vol_in) ∧
    if decide (vol_in = 0) then s' = sb
    else for_each (load_cols self) (solve_load self n vol_in) sb = (Ok (), s').
Proof.
  intros Hcols H. unfold solve_node in H.
  apply bind_ok in H as (nvv & s1 & H1 & H). apply node_get_ok in H1 as [-> ->].
  apply bind_ok in H as (ev & s1 & H1 & H). apply sum_edges_ok in H1 as [Hev ->].
  apply bind_ok in H as (nv & s1 & H1 & H). apply lift_ok in H1 as [Hnv ->].
  apply bind_ok in H as ([] & s1 & H1 & H).
  pose proof (node_set_frame
    (λ n' k, n' = n ∧ (k = vol_col self ∨ k = vol_pct_diff_col self)) (λ _ _, False)
    _ _ _ _ _ _ (conj eq_refl (or_introl eq_refl)) H1) as F1.
  apply node_set_ok in H1 as ->.
  apply bind_ok in H as (ckv & s2 & H1 & H). apply node_get_ok in H1 as [-> ->].
  apply bind_ok in H as (ex & s2 & H1 & H). apply lift_ok in H1 as [Hex ->].
  apply bind_ok in H as ([] & s2 & H1 & H).
  pose proof (node_set_frame
    (λ n' k, n' = n ∧ (k = vol_col self ∨ k = vol_pct_diff_col self)) (λ _ _, False)
    _ _ _ _ _ _ (conj eq_refl (or_intror eq_refl)) H1) as F2.
  apply node_set_ok in H1 as ->.
  pose proof (cols_ok_vol_not_written _ Hcols) as [_ Hne].
  match type of H with _ ?sb = _ => exists sb, (ev + nv) end.
  split; [by eapply frame_trans|]. split.
  - cbn [st_G]. rewrite !node_attr_set.
    rewrite decide_False by (intros [_ ?]; congruence). by rewrite decide_True.
  - unfold when in H. destruct (decide (ev + nv = 0)) as [Hz|Hz].
    + rewrite bool_decide_eq_true_2 in H by done. simpl in H.
      by apply ret_ok in H as [_ ->].
    + rewrite bool_decide_eq_false_2 in H by done. done.
Qed.

(** The iteration for load column [lc] at node [n] within a successful
    traversal: the nodes processed before ([l1], which hold the sources of
    the in-edges of [n]) and after ([l2]), and what the other iterations
    may have written. *)
Lemma solve_at self s s' n c1 lc c2 vol_in :
  wf_graph (st_G s) → cols_ok self → solve self s = (Ok (), s') →
  n ∈ g_nodes (st_G s) → load_cols self = c1 ++ lc :: c2 →
  node_attr (st_G s') n (vol_col self) = Some (VNum vol_in) → vol_in ≠ 0 →
  ∃ (l1 l2 : list string) sa sb,
    (∀ e, e ∈ g_edges (st_G s) → e_to e = n → e_from e ∈ l1) ∧
    (n ∉ l1) ∧ (n ∉ l2) ∧ (∀ x, x ∈ l1 → x ∉ l2) ∧
    frame (λ n' k, n' ∈ l1 ∨
                   (n' = n ∧ k ∈ vol_col self :: vol_pct_diff_col self ::
                                 vol_keys self ++ flat_map load_keys c1))
          (λ n' k, n' ∈ l1 ∨ (n' = n ∧ k ∈ c1)) (st_G s) (st_G sa) ∧
    solve_load self n vol_in lc sa = (Ok (), sb) ∧
    frame (λ n' k, n' ∈ l2 ∨ (n' = n ∧ k ∈ vol_keys self ++ flat_map load_keys c2))
          (λ n' k, n' ∈ l2 ∨ (n' = n ∧ k ∈ c2)) (st_G sb) (st_G s').
Proof.
  intros Hwf Hcols Hs Hn Hl Hvol Hnz.
  apply solve_ok_topo in Hs as (ys & Hrun & Ht & Hall); [|done].
  assert (n ∈ reverse ys) as Hin by (rewrite elem_of_reverse; by apply Hall).
  apply list_elem_of_split in Hin as (l1 & l2 & Hys).
  assert (NoDup (l1 ++ n :: l2)) as Hnd
    by (rewrite <- Hys, reverse_Permutation; by eapply topo_NoDup).
  assert (ys = reverse l2 ++ n :: reverse l1) as Hys'.
  { rewrite <- (reverse_involutive ys), Hys, reverse_app, reverse_cons.
    by rewrite <- app_assoc. }
  rewrite Hys in Hrun.
  apply for_each_app in Hrun as (s0 & H1 & H2). simpl in H2.
  apply bind_ok in H2 as ([] & s1 & Hx & H2).
  apply NoDup_app in Hnd as (_ & Hl1 & Hnd). apply NoDup_cons in Hnd as [Hl2 _].
  pose proof (solve_nodes_preserves self l1 s) as F0. rewrite H1 in F0.
  pose proof (solve_nodes_preserves self l2 s1) as F1. rewrite H2 in F1.
  simpl in F0, F1.
  destruct (solve_node_head _ _ _ _ Hcols Hx) as (sb0 & vol_in' & Fh & Hvol' & Hrest).
  pose proof (cols_ok_vol_not_written _ Hcols) as [Hvw _].
  assert (n ∉ l1) as Hn1 by (intros H; apply (Hl1 n H); left).
  assert (vol_in' = vol_in) as ->.
  { rewrite (fr_node _ _ _ _ F1) in Hvol by done.
    destruct (decide (vol_in' = 0)) as [Hz|Hz]; [subst; congruence|].
    pose proof (solve_loads_preserves self n vol_in' (load_cols self) sb0) as F.
    rewrite Hrest in F. simpl in F.
    rewrite (fr_node _ _ _ _ F) in Hvol by (by intros [_ ?]). congruence. }
  rewrite decide_False in Hrest by done. rewrite Hl in Hrest.
  apply for_each_app in Hrest as (sa & Hc1 & Hrest). simpl in Hrest.
  apply bind_ok in Hrest as ([] & sb & Hlc & Hc2).
  pose proof (solve_loads_preserves self n vol_in c1 sb0) as Fc1. rewrite Hc1 in Fc1.
  pose proof (solve_loads_preserves self n vol_in c2 sb) as Fc2. rewrite Hc2 in Fc2.
  simpl in Fc1, Fc2.
  exists l1, l2, sa, sb. split; [|split; [done|split; [done|split]]].
  - intros e He Hto. rewrite Hys' in Ht. apply topo_suffix in Ht.
    destruct Ht as (_ & Hpred & _). rewrite <- elem_of_reverse. by apply Hpred.
  - intros x Hx1 Hx2. apply (Hl1 x Hx1). by right.
  - split; [|split; [done|]].
    + eapply frame_trans; [|eapply frame_trans].
      * eapply frame_mono; [| |exact F0]; simpl; tauto.
      * eapply frame_mono; [| |exact Fh]; simpl; [|tauto].
        intros n' k [-> [->| ->]]; right; (split; [done|]); [left|right; left].
      * eapply frame_mono; [| |exact Fc1]; simpl; [|tauto].
        intros n' k [-> Hk]. right. split; [done|]. by do 2 right.
    + eapply frame_trans.
      * eapply frame_mono; [| |exact Fc2]; simpl; tauto.
      * eapply frame_mono; [| |exact F1]; simpl; tauto.
Qed.

Lemma frame_edge_back Wn We G G' e' :
  frame Wn We G G' → e' ∈ g_edges G' →
  ∃ e, e ∈ g_edges G ∧ e_from e' = e_from e ∧ e_to e' = e_to e ∧
       ∀ k, ¬ We (e_from e) k → e_data e' !! k = e_data e !! k.
Proof.
  intros [_ _ _ He] Hin. apply list_elem_of_lookup in Hin as [i Hi].
  destruct (Forall2_lookup_r _ _ _ _ _ He Hi) as (e & Hi' & Hf & Ht & Hk).
  exists e. split; [by eapply list_elem_of_lookup_2|done].
Qed.

Lemma Forall2_with_left {A B} (R : A → B → Prop) (P : A → Prop) l l' :
  Forall2 R l l' → Forall P l → Forall2 (λ a b, R a b ∧ P a) l l'.
Proof.
  induction 1 as [|a b l l' HR _ IH]; [constructor|].
  intros HP. apply Forall_cons in HP as [? ?]. constructor; auto.
Qed.

(** The sum over the edges selected at [n] is the same in two graphs that
    agree on the summed attribute and the filter attribute of the edges of
    the first graph selected at [n]. *)
Lemma sum_edge_attr_frame_in Wn We G G' n attr m fk inc exc :
  frame Wn We G G' →
  (∀ e, e ∈ g_edges G → selects m n e →
        ¬ We (e_from e) attr ∧ ∀ k, fk = Some k → ¬ We (e_from e) k) →
  sum_edge_attr G' n attr m fk inc exc = sum_edge_attr G n attr m fk inc exc.
Proof.
  intros [_ _ _ He] Hsel. rewrite !sum_edge_attr_loop, !select_edges_filter.
  apply sum_edge_loop_agree.
  eapply Forall2_impl.
  - apply (Forall2_filter_selects
             (λ e e', (∀ k, ¬ We (e_from e) k → e_data e' !! k = e_data e !! k) ∧
                      e ∈ g_edges G)).
    eapply Forall2_impl.
    + apply (Forall2_with_left _ (λ e, e ∈ g_edges G) _ _ He).
      by apply Forall_forall.
    + simpl. intros e e' [(Hf & Ht & Hk) Hin]. done.
  - simpl. intros e e' [Hs [HP Hin]]. destruct (Hsel e Hin Hs) as [H1 H2].
    split; [by apply HP|]. intros k Hk. apply HP. by apply H2.
Qed.

Lemma cols_ok_load_before self c1 lc c2 :
  cols_ok self → load_cols self = c1 ++ lc :: c2 →
  ∀ k, k ∈ load_keys lc →
    k ∉ vol_col self :: vol_pct_diff_col self :: vol_keys self ++ flat_map load_keys c1.
Proof.
  intros [Hk _] Hl k Hin. unfold node_keys in Hk. rewrite Hl in Hk.
  rewrite flat_map_app in Hk.
  change (flat_map load_keys (lc :: c2))
    with (load_keys lc ++ flat_map load_keys c2) in Hk.
  apply NoDup_cons in Hk as [_ Hk].
  rewrite !app_comm_cons, !app_assoc in Hk.
  apply NoDup_app in Hk as (Hk & _ & _).
  apply NoDup_app in Hk as (_ & Hdisj & _).
  intros H. apply (Hdisj k); [|done].
  rewrite <- !app_comm_cons. done.
Qed.

(** Property X14.  After a successful traversal the load of a node with
    non-zero inflow volume is the sum of the loads its in-edges carry plus
    the load the node held before: loads are routed downstream in
    topological order. *)
Theorem load_balance self s s' n lc vol_in :
  wf_graph (st_G s) → cols_ok self → solve self s = (Ok (), s') →
  n ∈ g_nodes (st_G s) → lc ∈ load_cols self →
  node_attr (st_G s') n (vol_col self) = Some (VNum vol_in) → vol_in ≠ 0 →
  ∃ edge_load node_load,
    sum_edge_attr (st_G s') n lc M_in_edges None None None = Ok edge_load ∧
    as_num (default (VNum 0) (node_attr (st_G s) n lc)) = Ok node_load ∧
    node_attr (st_G s') n lc = Some (VNum (edge_load + node_load)).
Proof.
  intros Hwf Hcols Hs Hn Hlc Hvol Hnz.
  apply list_elem_of_split in Hlc as (c1 & c2 & Hl).
  destruct (solve_at _ _ _ _ _ _ _ _ Hwf Hcols Hs Hn Hl Hvol Hnz)
    as (l1 & l2 & sa & sb & Hpred & Hn1 & Hn2 & Hdisj & Fa & Hrun & Fb).
  destruct (cols_ok_load _ _ _ _ Hcols Hl) as (Hnd & _ & _ & _ & _ & Hkeys & _).
  pose proof (cols_ok_load_before _ _ _ _ Hcols Hl) as Hbefore.
  assert (lc ∈ load_keys lc) as Hin by left.
  pose proof (solve_load_preserves self n vol_in lc sa) as Fl. rewrite Hrun in Fl.
  simpl in Fl.
  apply solve_load_ok in Hrun as (load_in & r & Hspec); [|done].
  destruct Hspec as (_ & (el & nl & Hel & Hnl & ->) & _ & A1 & _).
  exists el, nl. split; [|split].
  - rewrite <- Hel.
    assert (F : frame (λ _ _, True) (λ n' _, n' = n ∨ n' ∈ l2) (st_G sa) (st_G s')).
    { eapply frame_trans; (eapply frame_mono; [| |done]); simpl; tauto. }
    apply (sum_edge_attr_frame_in _ _ _ _ _ _ _ _ _ _ F).
    intros e He Hsel. simpl in Hsel.
    destruct (frame_edge_back _ _ _ _ _ Fa He) as (e0 & He0 & Hf & Ht & _).
    assert (e_from e ∈ l1) as Hfrom by (rewrite Hf; apply Hpred; congruence).
    split; [|done]. intros [Heq|H2]; [congruence|]. by apply (Hdisj _ Hfrom).
  - rewrite <- (fr_node _ _ _ _ Fa); [done|].
    intros [?|[_ H]]; [done|]. by apply (Hbefore lc Hin).
  - rewrite (fr_node _ _ _ _ Fb); [done|].
    intros [?|[_ H]]; [done|]. by apply (Hkeys lc Hin).
Qed.

(** Property X17.  A node with non-zero inflow volume whose load is not
    positive writes nothing on its out-edges for that load column, and
    passes its load on unchanged as [load_out]. *)
Theorem nonpositive_load_leaves_edges self s s' n lc vol_in load_in :
  wf_graph (st_G s) → cols_ok self → solve self s = (Ok (), s') →
  n ∈ g_nodes (st_G s) → lc ∈ load_cols self →
  node_attr (st_G s') n (vol_col self) = Some (VNum vol_in) → vol_in ≠ 0 →
  node_attr (st_G s') n lc = Some (VNum load_in) → ¬ 0 < load_in →
  node_attr (st_G s') n (load_out_col lc) = Some (VNum load_in) ∧
  Forall2 (λ e e', e_from e = n → e_data e' !! lc = e_data e !! lc)
    (g_edges (st_G s)) (g_edges (st_G s')).
Proof.
  intros Hwf Hcols Hs Hn Hlc Hvol Hnz Hload Hnpos.
  pose proof Hlc as Hlc'.
  apply list_elem_of_split in Hlc as (c1 & c2 & Hl).
  destruct (solve_at _ _ _ _ _ _ _ _ Hwf Hcols Hs Hn Hl Hvol Hnz)
    as (l1 & l2 & sa & sb & Hpred & Hn1 & Hn2 & Hdisj & Fa & Hrun & Fb).
  destruct (cols_ok_load _ _ _ _ Hcols Hl) as (Hnd & _ & _ & Hc1 & Hc2 & Hkeys & _).
  assert (lc ∈ load_keys lc) as Hin by left.
  assert (load_out_col lc ∈ load_keys lc) as Hin' by (unfold load_keys; do 2 right; left).
  apply solve_load_ok in Hrun as (load_in' & r & Hspec); [|done].
  destruct Hspec as (_ & _ & Hout & A1 & _ & A3 & _).
  assert (load_in' = load_in) as ->.
  { rewrite (fr_node _ _ _ _ Fb) in Hload; [congruence|].
    intros [?|[_ H]]; [done|]. by apply (Hkeys lc Hin). }
  unfold out_spec in Hout. rewrite bool_decide_eq_false_2 in Hout by done.
  destruct Hout as [Hedges ->]. split.
  - rewrite (fr_node _ _ _ _ Fb); [done|].
    intros [?|[_ H]]; [done|]. by apply (Hkeys _ Hin').
  - pose proof (fr_edges _ _ _ _ Fa) as Ea. pose proof (fr_edges _ _ _ _ Fb) as Eb.
    rewrite Hedges in Eb.
    apply Forall2_same_length_lookup. split.
    + by rewrite (Forall2_length _ _ _ Ea), (Forall2_length _ _ _ Eb).
    + intros i e e' Hi Hi' Hfrom.
      destruct (Forall2_lookup_l _ _ _ _ _ Ea Hi) as (ea & Hia & Hfa & _ & Hka).
      destruct (Forall2_lookup_lr _ _ _ _ _ _ Eb Hia Hi') as (_ & _ & Hkb).
      rewrite Hkb, Hka; [done| |].
      * intros [?|[_ ?]]; [congruence|done].
      * intros [H|[_ ?]]; [|done]. rewrite Hfa, Hfrom in H. done.
Qed.

(** The volume columns one load iteration leaves at the node. *)
Lemma solve_load_vol_cols self n vol_in lc s s' :
  NoDup (vol_keys self) →
  solve_load self n vol_in lc s = (Ok (), s') →
  ∃ vo vt,
    node_attr (st_G s') n (vol_out_col self) = Some (VNum vo) ∧
    node_attr (st_G s') n (vol_red_col self) = Some (VNum (vol_in - vo)) ∧
    node_attr (st_G s') n (pct_vol_red_col self)
      = Some (VNum (num 100 * ((vol_in - vo) / vol_in))) ∧
    node_attr (st_G s') n (vol_tmnt_col self) = Some (VNum vt) ∧
    node_attr (st_G s') n (pct_vol_tmnt_col self)
      = Some (VNum (num 100 * (vt / vol_in))) ∧
    node_attr (st_G s') n (vol_cap_col self) = Some (VNum (vt + (vol_in - vo))) ∧
    node_attr (st_G s') n (pct_vol_cap_col self)
      = Some (VNum (num 100 * ((vt + (vol_in - vo)) / vol_in))).
Proof.
  intros Hnd H. unfold solve_load in H.
  apply bind_ok in H as (el & s1 & _ & H).
  apply bind_ok in H as (nlv & s2 & _ & H).
  apply bind_ok in H as (nl & s3 & _ & H).
  apply bind_ok in H as ([] & s4 & _ & H).
  apply bind_ok in H as ([] & s5 & _ & H).
  apply bind_ok in H as ([[lo vo] vt] & s6 & _ & H).
  apply bind_ok in H as ([] & s7 & _ & H).
  apply bind_ok in H as ([] & s8 & _ & H).
  apply bind_ok in H as ([] & s9 & _ & H).
  apply bind_ok in H as ([] & s10 & H1 & H). apply node_set_ok in H1 as ->.
  apply bind_ok in H as ([] & s11 & H1 & H). apply node_set_ok in H1 as ->.
  apply bind_ok in H as (q1 & s12 & H1 & H). apply lift_ok in H1 as [Hq1 ->].
  apply py_div_ok in Hq1 as [_ ->].
  apply bind_ok in H as ([] & s12 & H1 & H). apply node_set_ok in H1 as ->.
  apply bind_ok in H as ([] & s13 & H1 & H). apply node_set_ok in H1 as ->.
  apply bind_ok in H as (q2 & s14 & H1 & H). apply lift_ok in H1 as [Hq2 ->].
  apply py_div_ok in Hq2 as [_ ->].
  apply bind_ok in H as ([] & s14 & H1 & H). apply node_set_ok in H1 as ->.
  apply bind_ok in H as ([] & s15 & H1 & H). apply node_set_ok in H1 as ->.
  apply bind_ok in H as (q3 & s16 & H1 & H). apply lift_ok in H1 as [Hq3 ->].
  apply py_div_ok in Hq3 as [_ ->].
  apply node_set_ok in H as ->.
  unfold vol_keys in Hnd. nodup_neqs Hnd.
  exists vo, vt. repeat split; attr_lookup.
Qed.

Lemma cols_ok_vol_keys self : cols_ok self → NoDup (vol_keys self).
Proof.
  intros [H _]. unfold node_keys in H. apply NoDup_cons in H as [_ H].
  apply NoDup_cons in H as [_ H]. apply NoDup_cons in H as [_ H].
  by apply NoDup_app in H as (H & _).
Qed.

(** Property X18.  The volume columns of a node with non-zero inflow volume
    after a successful traversal: what is reduced is what does not leave,
    what is captured is what is treated or reduced, and the percentages are
    taken of the inflow volume. *)
Theorem volume_bookkeeping self s s' n vol_in :
  wf_graph (st_G s) → cols_ok self → solve self s = (Ok (), s') →
  n ∈ g_nodes (st_G s) → load_cols self ≠ [] →
  node_attr (st_G s') n (vol_col self) = Some (VNum vol_in) → vol_in ≠ 0 →
  ∃ vol_out vol_treated,
    let vol_reduced := vol_in - vol_out in
    node_attr (st_G s') n (vol_out_col self) = Some (VNum vol_out) ∧
    node_attr (st_G s') n (vol_red_col self) = Some (VNum vol_reduced) ∧
    node_attr (st_G s') n (pct_vol_red_col self)
      = Some (VNum (num 100 * (vol_reduced / vol_in))) ∧
    node_attr (st_G s') n (vol_tmnt_col self) = Some (VNum vol_treated) ∧
    node_attr (st_G s') n (pct_vol_tmnt_col self)
      = Some (VNum (num 100 * (vol_treated / vol_in))) ∧
    node_attr (st_G s') n (vol_cap_col self)
      = Some (VNum (vol_treated + vol_reduced)) ∧
    node_attr (st_G s') n (pct_vol_cap_col self)
      = Some (VNum (num 100 * ((vol_treated + vol_reduced) / vol_in))).
Proof.
  intros Hwf Hcols Hs Hn Hne Hvol Hnz.
  destruct (solve_final_node _ _ _ _ _ Hwf Hcols Hs Hn Hvol Hnz) as (sb0 & s1 & Hrun & F1).
  destruct (load_cols self) as [|lc l _] using rev_ind; [done|].
  apply for_each_snoc in Hrun as (sa & _ & Hlc).
  apply solve_load_vol_cols in Hlc as (vo & vt & H); [|by apply cols_ok_vol_keys].
  exists vo, vt. simpl.
  rewrite !(fr_node _ _ _ _ F1) by (intros ?; done). done.
Qed.

(** Property X19.  The columns of one load at a node with non-zero inflow
    volume after a successful traversal: the concentration is the load per
    volume, what is reduced is what does not leave, and the percentage,
    stored when the load is positive, is taken of the load. *)
Theorem load_bookkeeping self s s' n lc vol_in :
  wf_graph (st_G s) → cols_ok self → solve self s = (Ok (), s') →
  n ∈ g_nodes (st_G s) → lc ∈ load_cols self →
  node_attr (st_G s') n (vol_col self) = Some (VNum vol_in) → vol_in ≠ 0 →
  ∃ load_in load_out,
    let load_reduced := load_in - load_out in
    node_attr (st_G s') n lc = Some (VNum load_in) ∧
    node_attr (st_G s') n (conc_col lc) = Some (VNum (load_in / vol_in)) ∧
    node_attr (st_G s') n (load_out_col lc) = Some (VNum load_out) ∧
    node_attr (st_G s') n (load_red_col lc) = Some (VNum load_reduced) ∧
    (0 < load_in →
     node_attr (st_G s') n (pct_load_red_col lc)
       = Some (VNum (num 100 * (load_reduced / load_in)))).
Proof.
  intros Hwf Hcols Hs Hn Hlc Hvol Hnz.
  apply list_elem_of_split in Hlc as (c1 & c2 & Hl).
  destruct (solve_at _ _ _ _ _ _ _ _ Hwf Hcols Hs Hn Hl Hvol Hnz)
    as (l1 & l2 & sa & sb & _ & _ & Hn2 & _ & _ & Hrun & Fb).
  destruct (cols_ok_load _ _ _ _ Hcols Hl) as (Hnd & _ & _ & _ & _ & Hkeys & _).
  apply solve_load_ok in Hrun as (load_in & r & Hspec); [|done].
  destruct Hspec as (_ & _ & _ & A1 & A2 & A3 & A4 & A5 & _).
  assert (Hload : ∀ k, k ∈ load_keys lc →
            node_attr (st_G s') n k = node_attr (st_G sb) n k).
  { intros k Hk. apply (fr_node _ _ _ _ Fb).
    intros [?|[_ H]]; [done|]. by apply (Hkeys k Hk). }
  exists load_in, r.1.1. simpl.
  rewrite !Hload by (unfold load_keys; set_solver).
  rewrite safe_divide_nz in A2 by done. done.
Qed.

(** ** The table of results *)

(** Property X21.  Once [results] has returned, it returns the same table
    again and again without running the traversal: the network, graph
    included, is left as it is. *)
Theorem results_cached {T} (table : Graph → result T) self net r net' :
  SwmmNetwork_results table self net = (Ok r, net') →
  is_Some r ∧ SwmmNetwork_results table self net' = (Ok r, net').
Proof.
  unfold SwmmNetwork_results, SwmmNetwork_solve, get_results, mbind, M_bind, mret, M_ret.
  destruct net as [s [t|]]; simpl.
  - intros [= <- <-]. split; [by eexists|done].
  - destruct (solve self s) as [[[]|e] s1]; simpl; [|done].
    destruct (table (st_G s1)) as [t|e]; simpl; [|done].
    intros [= <- <-]. split; [by eexists|done].
Qed.

(** Property X22.  When [results] raises, nothing is stored: the graph is as
    the failed traversal left it (or as the traversal left it, when the
    assembly of the table failed), and the next access runs the traversal
    again. *)
Theorem results_failure_stores_nothing {T} (table : Graph → result T) self net e net' :
  SwmmNetwork_results table self net = (Raise e, net') →
  net_results net = None ∧ net_results net' = None ∧
  net_state net' = (solve self (net_state net)).2.
Proof.
  unfold SwmmNetwork_results, SwmmNetwork_solve, get_results, mbind, M_bind, mret, M_ret.
  destruct net as [s [t|]]; simpl; [done|].
  destruct (solve self s) as [[[]|e1] s1]; simpl.
  - destruct (table (st_G s1)) as [t|e2]; simpl; [done|]. by intros [= <- <-].
  - by intros [= <- <-].
Qed.

(** ** The volumes that leave a node, and the properties at work on examples *)

(** Property X20.  After a successful traversal, at a node that is no
    outfall, with non-zero inflow volume and a positive load in the last
    load column, whose out-edges have string identifiers and numeric
    volumes: [vol_out] is the volume of the out-edges whose identifier
    contains no volume-reduction flag, and [vol_treated] the volume of those
    whose identifier contains a treated flag, whether or not treatment is
    enabled. *)
Theorem outflow_and_treated_volume self s s' n vol_in l lc load_in :
  wf_graph (st_G s) → cols_ok self → solve self s = (Ok (), s') →
  n ∈ g_nodes (st_G s) → load_cols self = l ++ [lc] →
  node_attr (st_G s') n (vol_col self) = Some (VNum vol_in) → vol_in ≠ 0 →
  node_attr (st_G s') n lc = Some (VNum load_in) → 0 < load_in →
  outfall_node self n = false →
  (∀ e, e ∈ select_edges (st_G s') M_out_edges n →
        is_str (e_data e !! name_col self) ∧ is_num (e_data e !! vol_col self)) →
  node_attr (st_G s') n (vol_out_col self)
    = Some (VNum (total (attr_or_zero (vol_col self) <$>
         filter (λ e, passing (name_col self) None (Some (vol_reduced_flags self)) e
                      = true)
           (select_edges (st_G s') M_out_edges n)))) ∧
  node_attr (st_G s') n (vol_tmnt_col self)
    = Some (VNum (total (attr_or_zero (vol_col self) <$>
         filter (λ e, passing (name_col self) (Some (treated_flags self)) None e
                      = true)
           (select_edges (st_G s') M_out_edges n)))).
Proof.
  intros Hwf Hcols Hs Hn Hl Hvol Hnz Hload Hpos Hof Hedges.
  destruct (solve_final_vol _ _ _ _ _ _ _ Hwf Hcols Hs Hn Hl Hvol Hnz)
    as (load_in' & vo & vt & A1 & B1 & _ & B2 & Hv).
  assert (load_in' = load_in) as -> by congruence.
  rewrite bool_decide_eq_true_2, Hof in Hv by done. simpl in Hv.
  destruct Hv as [Hvo Hvt].
  assert (Hnum : ∀ e, e ∈ select_edges (st_G s') M_out_edges n →
            numeric_or_absent (e_data e !! vol_col self)).
  { intros e He. destruct (Hedges e He) as [_ H].
    by destruct (e_data e !! vol_col self) as [[]|]. }
  rewrite sum_edge_attr_loop, sum_edge_loop_filtered in Hvo, Hvt;
    try (intros e He; by apply Hedges); try (intros e He _; by apply Hnum).
  rewrite Qcplus_0_l in Hvo, Hvt. injection Hvo as <-. injection Hvt as <-.
  done.
Qed.

Lemma run_pair {A B} (p : A * B) a : p.1 = a → p = (a, p.2).
Proof. destruct p. simpl. by intros ->. Qed.

(** The out-edges of [A] in the scenario: without a filter key the include flags are ignored. *)
Lemma sum_edge_attr_unfiltered_scenario :
  sum_edge_attr Scenario.G "A" "volume" M_out_edges None (Some ["TR"]) None =
  Ok (total (attr_or_zero "volume" <$> select_edges Scenario.G M_out_edges "A")).
Proof.
  refine (sum_edge_attr_unfiltered Scenario.G "A" "volume" M_out_edges (Some ["TR"]) None _).
  apply (proj1 (Forall_forall (λ e, numeric_or_absent (e_data e !! "volume")) _)).
  decide_by_computation.
Defined.

(** The out-edges of [B] in the scenario, filtered on the treated flag. *)
Lemma sum_edge_attr_filtered_scenario :
  sum_edge_attr Scenario.G "B" "volume" M_out_edges (Some "id") (Some ["TR"]) None =
  Ok (total (attr_or_zero "volume" <$>
               filter (λ e, passing "id" (Some ["TR"]) None e = true)
                 (select_edges Scenario.G M_out_edges "B"))).
Proof.
  refine (sum_edge_attr_filtered Scenario.G "B" "volume" M_out_edges "id"
            (Some ["TR"]) None _ _).
  - apply (proj1 (Forall_forall (λ e, is_str (e_data e !! "id")) _)).
    decide_by_computation.
  - apply (proj1 (Forall_forall
             (λ e, passing "id" (Some ["TR"]) None e = true →
                   numeric_or_absent (e_data e !! "volume")) _)).
    decide_by_computation.
Defined.

(** Summing the identifiers of the out-edges of [A] raises. *)
Lemma sum_edge_attr_string_attr_scenario :
  sum_edge_attr Scenario.G "A" "id" M_out_edges None None None = Raise TypeError.
Proof.
  refine (sum_edge_attr_string_attr Scenario.G "A" "id" M_out_edges None None
            untreated_edge_before "P1" _ _).
  - decide_by_computation.
  - reflexivity.
Defined.

(** An edge that carries a load of 5: the load is replaced, with a warning. *)
Lemma solve_edge_writes_load_example :
  solve_edge default_config "load" (num 2) (data_loaded, []) =
  (Ok (), (<["load" := VNum (edge_conc default_config data_loaded (num 2) * num 100)]>
             data_loaded,
           if decide (data_loaded !! "load" = None) then []
           else [] ++ [(VStr "P1", "load")])).
Proof.
  refine (solve_edge_writes_load default_config "load" (num 2) data_loaded [] "P1"
            (num 100) _ _ _ _ _).
  - done.
  - done.
  - reflexivity.
  - reflexivity.
  - right. exists (num 5). split; [reflexivity|decide_by_computation].
Defined.

(** An edge that carries a load of 0. *)
Lemma solve_edge_zero_preset_load_example :
  solve_edge default_config "load" (num 2) (data_zero_load, []) =
  (Raise ZeroDivisionError, (data_zero_load, [])).
Proof.
  refine (solve_edge_zero_preset_load default_config "load" (num 2) data_zero_load []
            (VStr "P1") (num 100) _ _ _); reflexivity.
Defined.

(** An edge without a volume. *)
Lemma solve_edge_missing_volume_example :
  solve_edge default_config "load" (num 2) (data_no_volume, []) =
  (Raise (KeyError (if decide (is_Some (data_no_volume !! "load") ∧
                               data_no_volume !! name_col default_config = None)
                    then name_col default_config else vol_col default_config)),
   (data_no_volume, [])).
Proof.
  refine (solve_edge_missing_volume default_config "load" (num 2) data_no_volume [] _).
  reflexivity.
Defined.

(** The scenario is well formed, acyclic and clean: the traversal returns. *)
Lemma solve_returns_scenario :
  ∃ s', solve default_config (initial Scenario.G) = (Ok (), s') ∧ st_warnings s' = [].
Proof.
  refine (solve_returns default_config Scenario.G _ default_config_cols_ok _ _).
  - graph_ok.
  - apply finished_acyclic; [graph_ok|]. vm_compute. reflexivity.
  - decide_by_computation.
Defined.

(** The scenario, edge [A -> B]. *)
Lemma untreated_edge_load_scenario :
  let s' := final default_config Scenario.G in
  let e := untreated_edge_after in
  ∃ edge_volume,
    e_data e !! vol_col default_config = Some (VNum edge_volume) ∧
    e_data e !! "load" = Some (VNum (num 10 / num 100 * edge_volume)).
Proof.
  refine (untreated_edge_load default_config (initial Scenario.G)
            (final default_config Scenario.G) untreated_edge_after "load"
            (num 100) (num 10) _ default_config_cols_ok _ _ _ _ _ _ _ _).
  - graph_ok.
  - run_ok.
  - decide_by_computation.
  - decide_by_computation.
  - reflexivity.
  - decide_by_computation.
  - decide_by_computation.
  - decide_by_computation.
  - decide_by_computation.
Defined.

(** The outfall without inflow. *)
Lemma zero_inflow_node_example :
  let s := initial Examples.G_dry_outfall in
  let s' := final default_config Examples.G_dry_outfall in
  (∀ k, k ≠ vol_col default_config → k ≠ vol_pct_diff_col default_config →
        node_attr (st_G s') "OF1" k = node_attr (st_G s) "OF1" k) ∧
  select_edges (st_G s') M_out_edges "OF1" = select_edges (st_G s) M_out_edges "OF1".
Proof.
  refine (zero_inflow_node default_config (initial Examples.G_dry_outfall)
            (final default_config Examples.G_dry_outfall) "OF1"
            _ default_config_cols_ok _ _ _).
  - graph_ok.
  - run_ok.
  - decide_by_computation.
  - decide_by_computation.
Defined.

(** The scenario, node [B]. *)
Lemma volume_balance_scenario :
  let s := initial Scenario.G in
  let s' := final default_config Scenario.G in
  ∃ edge_vol node_vol,
    sum_edge_attr (st_G s') "B" (vol_col default_config) M_in_edges None None None
      = Ok edge_vol ∧
    as_num (default (VNum 0) (node_attr (st_G s) "B" (vol_col default_config)))
      = Ok node_vol ∧
    node_attr (st_G s') "B" (vol_col default_config) = Some (VNum (edge_vol + node_vol)).
Proof.
  refine (volume_balance default_config (initial Scenario.G)
            (final default_config Scenario.G) "B" _ default_config_cols_ok _ _).
  - graph_ok.
  - run_ok.
  - decide_by_computation.
Defined.

(** The scenario, node [B]: its load is the load of the edge [A -> B]. *)
Lemma load_balance_scenario :
  let s := initial Scenario.G in
  let s' := final default_config Scenario.G in
  ∃ edge_load node_load,
    sum_edge_attr (st_G s') "B" "load" M_in_edges None None None = Ok edge_load ∧
    as_num (default (VNum 0) (node_attr (st_G s) "B" "load")) = Ok node_load ∧
    node_attr (st_G s') "B" "load" = Some (VNum (edge_load + node_load)).
Proof.
  refine (load_balance default_config (initial Scenario.G)
            (final default_config Scenario.G) "B" "load" (num 100)
            _ default_config_cols_ok _ _ _ _ _).
  - graph_ok.
  - run_ok.
  - decide_by_computation.
  - decide_by_computation.
  - decide_by_computation.
  - decide_by_computation.
Defined.

(** A subcatchment without load, node [A] of [G_inflow]. *)
Lemma nonpositive_load_leaves_edges_example :
  let s := initial Examples.G_inflow in
  let s' := final default_config Examples.G_inflow in
  node_attr (st_G s') "A" (load_out_col "load") = Some (VNum 0) ∧
  Forall2 (λ e e', e_from e = "A" → e_data e' !! "load" = e_data e !! "load")
    (g_edges (st_G s)) (g_edges (st_G s')).
Proof.
  refine (nonpositive_load_leaves_edges default_config (initial Examples.G_inflow)
            (final default_config Examples.G_inflow) "A" "load" (num 100) 0
            _ default_config_cols_ok _ _ _ _ _ _ _).
  - graph_ok.
  - run_ok.
  - decide_by_computation.
  - decide_by_computation.
  - decide_by_computation.
  - decide_by_computation.
  - decide_by_computation.
  - decide_by_computation.
Defined.

(** The scenario, node [B]: the volume columns. *)
Lemma volume_bookkeeping_scenario :
  let s' := final default_config Scenario.G in
  ∃ vol_out vol_treated,
    let vol_reduced := num 100 - vol_out in
    node_attr (st_G s') "B" (vol_out_col default_config) = Some (VNum vol_out) ∧
    node_attr (st_G s') "B" (vol_red_col default_config) = Some (VNum vol_reduced) ∧
    node_attr (st_G s') "B" (pct_vol_red_col default_config)
      = Some (VNum (num 100 * (vol_reduced / num 100))) ∧
    node_attr (st_G s') "B" (vol_tmnt_col default_config) = Some (VNum vol_treated) ∧
    node_attr (st_G s') "B" (pct_vol_tmnt_col default_config)
      = Some (VNum (num 100 * (vol_treated / num 100))) ∧
    node_attr (st_G s') "B" (vol_cap_col default_config)
      = Some (VNum (vol_treated + vol_reduced)) ∧
    node_attr (st_G s') "B" (pct_vol_cap_col default_config)
      = Some (VNum (num 100 * ((vol_treated + vol_reduced) / num 100))).
Proof.
  refine (volume_bookkeeping default_config (initial Scenario.G)
            (final default_config Scenario.G) "B" (num 100)
            _ default_config_cols_ok _ _ _ _ _).
  - graph_ok.
  - run_ok.
  - decide_by_computation.
  - done.
  - decide_by_computation.
  - decide_by_computation.
Defined.

(** The scenario, node [B]: the load columns. *)
Lemma load_bookkeeping_scenario :
  let s' := final default_config Scenario.G in
  ∃ load_in load_out,
    let load_reduced := load_in - load_out in
    node_attr (st_G s') "B" "load" = Some (VNum load_in) ∧
    node_attr (st_G s') "B" (conc_col "load") = Some (VNum (load_in / num 100)) ∧
    node_attr (st_G s') "B" (load_out_col "load") = Some (VNum load_out) ∧
    node_attr (st_G s') "B" (load_red_col "load") = Some (VNum load_reduced) ∧
    (0 < load_in →
     node_attr (st_G s') "B" (pct_load_red_col "load")
       = Some (VNum (num 100 * (load_reduced / load_in)))).
Proof.
  refine (load_bookkeeping default_config (initial Scenario.G)
            (final default_config Scenario.G) "B" "load" (num 100)
            _ default_config_cols_ok _ _ _ _ _).
  - graph_ok.
  - run_ok.
  - decide_by_computation.
  - decide_by_computation.
  - decide_by_computation.
  - decide_by_computation.
Defined.

(** The scenario, node [B]: its only out-edge is treated. *)
Lemma outflow_and_treated_volume_scenario :
  let s' := final default_config Scenario.G in
  node_attr (st_G s') "B" (vol_out_col default_config)
    = Some (VNum (total (attr_or_zero (vol_col default_config) <$>
         filter (λ e, passing (name_col default_config) None
                        (Some (vol_reduced_flags default_config)) e = true)
           (select_edges (st_G s') M_out_edges "B")))) ∧
  node_attr (st_G s') "B" (vol_tmnt_col default_config)
    = Some (VNum (total (attr_or_zero (vol_col default_config) <$>
         filter (λ e, passing (name_col default_config)
                        (Some (treated_flags default_config)) None e = true)
           (select_edges (st_G s') M_out_edges "B")))).
Proof.
  refine (outflow_and_treated_volume default_config (initial Scenario.G)
            (final default_config Scenario.G) "B" (num 100) [] "load" (num 10)
            _ default_config_cols_ok _ _ eq_refl _ _ _ _ eq_refl _).
  - graph_ok.
  - run_ok.
  - decide_by_computation.
  - decide_by_computation.
  - decide_by_computation.
  - decide_by_computation.
  - decide_by_computation.
  - apply (proj1 (Forall_forall
             (λ e, is_str (e_data e !! name_col default_config) ∧
                   is_num (e_data e !! vol_col default_config)) _)).
    decide_by_computation.
Defined.

(** The scenario, with the number of nodes for a table. *)
Lemma results_cached_scenario :
  let net := mkNetwork (initial Scenario.G) None in
  let net' := (SwmmNetwork_results node_count default_config net).2 in
  is_Some (Some 3%nat) ∧
  SwmmNetwork_results node_count default_config net' = (Ok (Some 3%nat), net').
Proof.
  refine (results_cached node_count default_config
            (mkNetwork (initial Scenario.G) None) (Some 3%nat)
            (SwmmNetwork_results node_count default_config
               (mkNetwork (initial Scenario.G) None)).2 _).
  apply run_pair. vm_compute. reflexivity.
Defined.

(** The network whose traversal divides by zero: nothing is stored. *)
Lemma results_failure_example :
  let net := mkNetwork (initial Examples.G_zero_load) None in
  let net' := (SwmmNetwork_results node_count default_config net).2 in
  net_results net = None ∧ net_results net' = None ∧
  net_state net' = (solve default_config (net_state net)).2.
Proof.
  refine (results_failure_stores_nothing node_count default_config
            (mkNetwork (initial Examples.G_zero_load) None) ZeroDivisionError
            (SwmmNetwork_results node_count default_config
               (mkNetwork (initial Examples.G_zero_load) None)).2 _).
  apply run_pair. vm_compute. reflexivity.
Defined.

(** ** Failures of a traversal on a clean network *)

(** Property X11.  On a network with a cycle whose attributes are as a model
    builder leaves them, the loop body never fails on the nodes yielded
    before the cycle is detected: the exception is [NetworkXUnfeasible], and
    no warning is issued. *)
Theorem cycle_raises_unfeasible self G :
  wf_graph G → cols_ok self → has_cycle G → clean self G →
  (solve self (initial G)).1 = Raise NetworkXUnfeasible ∧
  st_warnings (solve self (initial G)).2 = [].
Proof.
  intros Hwf Hcols Hcyc Hclean.
  destruct (topological_sort_cycle G Hwf Hcyc) as (ys & Hsort & Ht & Hsub).
  destruct (returns_solve_nodes self (g_nodes G) [] (reverse ys) (λ _ _, True)
              (initial G)) as ([] & s' & Hrun & Hg); try done.
  - rewrite reverse_Permutation. by eapply topo_NoDup.
  - intros n Hn. split; [|done]. apply Hsub. by rewrite elem_of_reverse in Hn.
  - by apply clean_good.
  - unfold solve. change (st_G (initial G)) with G. rewrite Hsort, Hrun. simpl.
    split; [done|]. by destruct Hg.
Qed.

(** Property X9.  With treatment on and at least one treated flag, an edge
    whose identifier is a number makes the body raise [TypeError] at the
    substring test, after the untreated load has been written on the edge. *)
Theorem solve_edge_numeric_id self lc conc d log q vol :
  lc ≠ vol_col self → lc ≠ name_col self →
  treated self = true → treated_flags self ≠ [] →
  d !! name_col self = Some (VNum q) →
  d !! vol_col self = Some (VNum vol) →
  d !! lc = None →
  solve_edge self lc conc (d, log) =
  (Raise TypeError, (<[lc := VNum (conc * vol)]> d, log)).
Proof.
  intros Hv Hn Ht Hflags Hid Hvol Hnone. unfold solve_edge.
  erewrite bind_run by reflexivity. simpl. rewrite Hnone.
  rewrite bool_decide_eq_false_2 by (by intros [? ?]).
  erewrite bind_run by reflexivity.
  erewrite bind_run by (by apply data_num_run).
  erewrite bind_run by reflexivity. simpl. rewrite Ht.
  erewrite bind_raise; [done|]. rewrite data_any_in_spec.
  destruct (treated_flags self) as [|i flags]; [done|].
  unfold getitem. by rewrite lookup_insert_ne, Hid.
Qed.

(** The cyclic example. *)
Lemma cycle_raises_unfeasible_example :
  (solve default_config (initial Examples.G_cycle)).1 = Raise NetworkXUnfeasible ∧
  st_warnings (solve default_config (initial Examples.G_cycle)).2 = [].
Proof.
  refine (cycle_raises_unfeasible default_config Examples.G_cycle
            _ default_config_cols_ok G_cycle_has_cycle _).
  - graph_ok.
  - decide_by_computation.
Defined.

(** An edge whose identifier is the number 7. *)
Lemma solve_edge_numeric_id_example :
  solve_edge default_config "load" (num 2) (data_numeric_id, []) =
  (Raise TypeError, (<["load" := VNum (num 2 * num 100)]> data_numeric_id, [])).
Proof.
  refine (solve_edge_numeric_id default_config "load" (num 2) data_numeric_id []
            (num 7) (num 100) _ _ eq_refl _ _ _ _); done.
Defined.

(** ** The loads that leave a node *)

(** Property X23.  What treatment leaves at a node that is no outfall, with
    non-zero inflow volume and positive load, after a successful traversal:
    every out-edge carries its volume times the concentration
    [load_in / vol_in] of the node, lowered by the factor [1 - 0.7] on a
    treated edge; [load_out] is the sum of these loads as [sum_edge_attr]
    adds them up, and the load reduced is [load_in - load_out]. *)
Theorem load_out_is_edge_sum self s s' n lc vol_in load_in :
  wf_graph (st_G s) → cols_ok self → solve self s = (Ok (), s') →
  n ∈ g_nodes (st_G s) → lc ∈ load_cols self → outfall_node self n = false →
  node_attr (st_G s') n (vol_col self) = Some (VNum vol_in) → vol_in ≠ 0 →
  node_attr (st_G s') n lc = Some (VNum load_in) → 0 < load_in →
  (∀ e, e ∈ g_edges (st_G s') → e_from e = n →
     ∃ vol, e_data e !! vol_col self = Some (VNum vol) ∧
            e_data e !! lc
              = Some (VNum ((if treated_edge self (e_data e)
                             then (1 - Q2Qc (7 # 10)) * (load_in / vol_in)
                             else load_in / vol_in) * vol))) ∧
  ∃ load_out,
    sum_edge_attr (st_G s') n lc M_out_edges None None None = Ok load_out ∧
    node_attr (st_G s') n (load_out_col lc) = Some (VNum load_out) ∧
    node_attr (st_G s') n (load_red_col lc) = Some (VNum (load_in - load_out)).
Proof.
  intros Hwf Hcols Hs Hn Hlc Hof Hvol Hnz Hload Hpos.
  destruct (solve_final_load _ _ _ _ _ _ Hwf Hcols Hs Hn Hlc Hvol Hnz)
    as (load_in' & lo & A1 & _ & A3 & A4 & Hlo).
  assert (load_in' = load_in) as -> by congruence.
  rewrite bool_decide_eq_true_2 in Hlo by done.
  destruct Hlo as [Hedges Hlo]. rewrite Hof in Hlo. split.
  - intros e He Hfrom. destruct (Hedges e He Hfrom) as (v & Hv & Hl).
    exists v. split; [done|]. by rewrite Hl.
  - by exists lo.
Qed.

(** The scenario, node [B], whose out-edge is treated. *)
Lemma load_out_is_edge_sum_scenario :
  let s' := final default_config Scenario.G in
  (∀ e, e ∈ g_edges (st_G s') → e_from e = "B" →
     ∃ vol, e_data e !! vol_col default_config = Some (VNum vol) ∧
            e_data e !! "load"
              = Some (VNum ((if treated_edge default_config (e_data e)
                             then (1 - Q2Qc (7 # 10)) * (num 10 / num 100)
                             else num 10 / num 100) * vol))) ∧
  ∃ load_out,
    sum_edge_attr (st_G s') "B" "load" M_out_edges None None None = Ok load_out ∧
    node_attr (st_G s') "B" (load_out_col "load") = Some (VNum load_out) ∧
    node_attr (st_G s') "B" (load_red_col "load") = Some (VNum (num 10 - load_out)).
Proof.
  refine (load_out_is_edge_sum default_config (initial Scenario.G)
            (final default_config Scenario.G) "B" "load" (num 100) (num 10)
            _ default_config_cols_ok _ _ _ eq_refl _ _ _ _).
  - graph_ok.
  - run_ok.
  - decide_by_computation.
  - decide_by_computation.
  - decide_by_computation.
  - decide_by_computation.
  - decide_by_computation.
  - decide_by_computation.
Defined.
